(** * Nuclide: clang include search, test-runner registry, label truncation

    A shallow embedding of
    - [pkg/nuclide-clang/lib/utils.js]: [isHeaderFile], [isSourceFile],
      [processGrepResult], [findIncludingSourceFile];
    - the test-runner package main module: [limitString] and
      [Activation.addTestRunner].

    JavaScript strings are sequences of UTF-16 code units; they are modelled
    as lists of code units in [N], so that [length], [substring], [substr] and
    [indexOf] count the way the source does. *)

From Stdlib Require Import String Ascii NArith ZArith List Bool Lia.
From stdpp Require Import base option list gmap.
Import ListNotations.

Local Open Scope N_scope.
Local Open Scope nat_scope.

(** ** JavaScript strings *)

Abbreviation jsstring := (list N).

(** An ASCII literal as a JavaScript string. *)
Fixpoint js (s : string) : jsstring :=
  match s with
  | EmptyString => []
  | String a s' => N_of_ascii a :: js s'
  end.

Definition NUL : N := 0%N.
Definition LF : N := 10%N.
Definition DQUOTE : N := 34%N.
Definition HASH : N := 35%N.
Definition DOT : N := 46%N.
Definition SLASH : N := 47%N.
Definition LT : N := 60%N.
Definition GT : N := 62%N.
(** U+2026 HORIZONTAL ELLIPSIS, one code unit. *)
Definition ELLIPSIS : N := 8230%N.

Fixpoint take_while {A} (p : A -> bool) (l : list A) : list A :=
  match l with
  | x :: t => if p x then x :: take_while p t else []
  | [] => []
  end.

Fixpoint drop_while {A} (p : A -> bool) (l : list A) : list A :=
  match l with
  | x :: t => if p x then drop_while p t else l
  | [] => []
  end.

(** [s1 === s2] on strings. *)
Definition str_eqb (s1 s2 : jsstring) : bool := bool_decide (s1 = s2).

(** [String.prototype.indexOf] for a one-unit needle, from position 0;
    [None] stands for -1. *)
Fixpoint indexOf (s : jsstring) (c : N) : option nat :=
  match s with
  | [] => None
  | x :: t => if N.eqb x c then Some 0 else S <$> indexOf t c
  end.

(** [String.prototype.substr(start, length)] with both arguments in range
    or beyond the end (the result is clamped to the string). *)
Definition substr (s : jsstring) (start : nat) (len : option nat) : jsstring :=
  match len with
  | Some n => take n (drop start s)
  | None => drop start s
  end.

(** ToIntegerOrInfinity of the rational [num / 2]: truncation toward zero. *)
Definition trunc_half (num : Z) : Z := Z.quot num 2.

(** The clamp of [String.prototype.substring]: an index is brought into
    [0 .. length]. *)
Definition clamp (len : nat) (i : Z) : nat :=
  Z.to_nat (Z.min (Z.max i 0) (Z.of_nat len)).

(** [String.prototype.substring(start, end)] on already truncated indices:
    both are clamped and swapped when start is larger than end. *)
Definition substring (s : jsstring) (start : Z) (fin : option Z) : jsstring :=
  let len := length s in
  let a := clamp len start in
  let b := match fin with Some e => clamp len e | None => len end in
  take (Nat.max a b - Nat.min a b) (drop (Nat.min a b) s).

(** ** The [path] module

    [path] is Node's; the code under study only calls it.  The interface is a
    class, and [posix] below is the POSIX implementation that Node ships, used
    to evaluate the definitions on concrete paths. *)

Class PathModule := {
  extname : jsstring -> jsstring;
  basename : jsstring -> jsstring;
  dirname : jsstring -> jsstring;
  join : jsstring -> jsstring -> jsstring;
  normalize : jsstring -> jsstring;
  relative : jsstring -> jsstring -> jsstring
}.

Module posix.

Definition is_slash (c : N) : bool := N.eqb c SLASH.

(** Splitting at every slash: ["/a//b"] gives [[""; "a"; ""; "b"]]. *)
Fixpoint split_slash (s : jsstring) : list jsstring :=
  match s with
  | [] => [[]]
  | c :: t =>
      if is_slash c then [] :: split_slash t
      else match split_slash t with
           | seg :: segs => (c :: seg) :: segs
           | [] => [[c]]
           end
  end.

Fixpoint join_slash (segs : list jsstring) : jsstring :=
  match segs with
  | [] => []
  | [seg] => seg
  | seg :: rest => seg ++ SLASH :: join_slash rest
  end.

(** One segment of [normalizeString]; [res] is the stack of kept segments,
    innermost first. *)
Definition normalize_segment (allowAboveRoot : bool)
    (res : list jsstring) (seg : jsstring) : list jsstring :=
  if str_eqb seg [] || str_eqb seg [DOT] then res
  else if str_eqb seg [DOT; DOT] then
    match res with
    | top :: below =>
        if str_eqb top [DOT; DOT] then seg :: res else below
    | [] => if allowAboveRoot then [seg] else []
    end
  else seg :: res.

Definition normalizeString (s : jsstring) (allowAboveRoot : bool) : jsstring :=
  join_slash (rev (fold_left (normalize_segment allowAboveRoot) (split_slash s) [])).

Definition isAbsolute (s : jsstring) : bool :=
  match s with c :: _ => is_slash c | [] => false end.

Definition normalize (s : jsstring) : jsstring :=
  match s with
  | [] => [DOT]
  | _ =>
      let abs := isAbsolute s in
      let trailing := match last s with Some c => is_slash c | None => false end in
      let p := normalizeString s (negb abs) in
      let p := match p with [] => if abs then [] else [DOT] | _ => p end in
      let p := match p with [] => p | _ => if trailing then p ++ [SLASH] else p end in
      if abs then SLASH :: p else p
  end.

(** [path.join] of two arguments. *)
Definition join (a b : jsstring) : jsstring :=
  let joined :=
    match a, b with
    | [], _ => b
    | _, [] => a
    | _, _ => a ++ SLASH :: b
    end in
  match joined with
  | [] => [DOT]
  | _ => normalize joined
  end.

(** The backward scan of [dirname]: [r] holds the units at indices
    [i, i-1, ..]; the scan stops before index 0. *)
Fixpoint dirname_scan (r : jsstring) (i : nat) (matchedSlash : bool) : option nat :=
  match r, i with
  | c :: r', S i' =>
      if is_slash c then
        if matchedSlash then dirname_scan r' i' matchedSlash else Some i
      else dirname_scan r' i' false
  | _, _ => None
  end.

Definition dirname (s : jsstring) : jsstring :=
  match s with
  | [] => [DOT]
  | _ =>
      let hasRoot := isAbsolute s in
      match dirname_scan (rev s) (length s - 1) true with
      | None => if hasRoot then [SLASH] else [DOT]
      | Some e => if hasRoot && Nat.eqb e 1 then [SLASH; SLASH] else take e s
      end
  end.

(** The last segment of a path, trailing slashes ignored. *)
Definition basename (s : jsstring) : jsstring :=
  let r := drop_while is_slash (rev s) in
  rev (take_while (fun c => negb (is_slash c)) r).

(** State of the backward scan of [extname]. *)
Record ext_state := {
  startDot : option nat;
  endPos : option nat;
  matchedSlash : bool;
  preDotState : Z
}.

(** [r] holds the units at indices [i-1, i-2, ..]; the result is the final
    state and [startPart]. *)
Fixpoint extname_scan (r : jsstring) (i : nat) (st : ext_state) : ext_state * nat :=
  match r, i with
  | c :: r', S i' =>
      if is_slash c then
        if matchedSlash st then extname_scan r' i' st else (st, i)
      else
        let st :=
          match endPos st with
          | None => {| startDot := startDot st; endPos := Some i;
                       matchedSlash := false; preDotState := preDotState st |}
          | Some _ => st
          end in
        let st :=
          if N.eqb c DOT then
            match startDot st with
            | None => {| startDot := Some i'; endPos := endPos st;
                         matchedSlash := matchedSlash st;
                         preDotState := preDotState st |}
            | Some _ => {| startDot := startDot st; endPos := endPos st;
                           matchedSlash := matchedSlash st; preDotState := 1 |}
            end
          else
            match startDot st with
            | Some _ => {| startDot := startDot st; endPos := endPos st;
                           matchedSlash := matchedSlash st; preDotState := (-1) |}
            | None => st
            end in
        extname_scan r' i' st
  | _, _ => (st, 0)
  end.

Definition extname (s : jsstring) : jsstring :=
  let '(st, startPart) :=
    extname_scan (rev s) (length s)
      {| startDot := None; endPos := None; matchedSlash := true; preDotState := 0 |} in
  match startDot st, endPos st with
  | Some sd, Some e =>
      if Z.eqb (preDotState st) 0
         || (Z.eqb (preDotState st) 1 && Nat.eqb sd (e - 1) && Nat.eqb sd (startPart + 1))
      then []
      else take (e - sd) (drop sd s)
  | _, _ => []
  end.

(** [path.resolve] of one argument against the working directory. *)
Definition resolve (cwd s : jsstring) : jsstring :=
  let full := if isAbsolute s then s else cwd ++ SLASH :: s in
  SLASH :: normalizeString full false.

Fixpoint drop_common (a b : list jsstring) : list jsstring * list jsstring :=
  match a, b with
  | x :: a', y :: b' => if str_eqb x y then drop_common a' b' else (a, b)
  | _, _ => (a, b)
  end.

Definition segments (s : jsstring) : list jsstring :=
  filter (fun seg => seg <> []) (split_slash s).

Definition relative (cwd from to : jsstring) : jsstring :=
  if str_eqb from to then []
  else
    let from := resolve cwd from in
    let to := resolve cwd to in
    if str_eqb from to then []
    else
      let '(up, down) := drop_common (segments from) (segments to) in
      join_slash (map (fun _ => [DOT; DOT]) up ++ down).

End posix.

(** Node's POSIX [path], for a process whose working directory is [cwd]. *)
Definition posix_path (cwd : jsstring) : PathModule := {|
  extname := posix.extname;
  basename := posix.basename;
  dirname := posix.dirname;
  join := posix.join;
  normalize := posix.normalize;
  relative := posix.relative cwd
|}.

(** ** [utils.js]: file classification *)

Definition HEADER_EXTENSIONS : gset jsstring :=
  list_to_set [js ".h"; js ".hh"; js ".hpp"; js ".hxx"; js ".h++"].

Definition SOURCE_EXTENSIONS : gset jsstring :=
  list_to_set [js ".c"; js ".cc"; js ".cpp"; js ".cxx"; js ".c++"; js ".m"; js ".mm"].

Section Classification.
Context `{Path : PathModule}.

Definition isHeaderFile (filename : jsstring) : bool :=
  bool_decide (extname filename ∈ HEADER_EXTENSIONS).

Definition isSourceFile (filename : jsstring) : bool :=
  bool_decide (extname filename ∈ SOURCE_EXTENSIONS).

End Classification.

(** ** Regular expressions

    The subset of JavaScript's RegExp syntax that the include pattern uses,
    as abstract syntax, with the backtracking matcher of the language
    standard: alternatives are tried left to right, [*] is greedy and gives
    iterations back one at a time, and a capture group records the text of
    its last iteration. *)

Inductive regex :=
| Bol                          (* ^ *)
| Eol                          (* $ *)
| Class (p : N -> bool)        (* one unit: \s, ., [..] *)
| Lit (s : jsstring)           (* literal text *)
| Seq (r1 r2 : regex)
| Alt (r1 r2 : regex)          (* r1|r2 *)
| Star (r : regex)             (* r* *)
| Group (n : nat) (r : regex)  (* the n-th left parenthesis *).

Definition Plus (r : regex) : regex := Seq r (Star r).

Infix ">>" := Seq (at level 62, right associativity).

(** [match[0]], [match[1]], ..; [None] is [undefined]. *)
Abbreviation Captures := (list (option jsstring)).

Definition group (m : Captures) (i : nat) : option jsstring := default None (m !! i).

Fixpoint groups (r : regex) : list nat :=
  match r with
  | Seq r1 r2 | Alt r1 r2 => groups r1 ++ groups r2
  | Star r1 => groups r1
  | Group n r1 => n :: groups r1
  | _ => []
  end.

Definition reset (ns : list nat) (caps : Captures) : Captures :=
  fold_right (fun n c => <[n := None]> c) caps ns.

Fixpoint strip_prefix (p s : jsstring) : option jsstring :=
  match p, s with
  | [], _ => Some s
  | x :: p', y :: s' => if N.eqb x y then strip_prefix p' s' else None
  | _ :: _, [] => None
  end.

(** The iterations of [r*]: one more iteration is tried first, and an
    iteration has to consume input; when no further iteration leads to a
    match, the continuation runs on what is left.  [fuel] bounds the number
    of iterations by the length of the input. *)
Fixpoint star_iterate
    (body : jsstring -> Captures -> (jsstring -> Captures -> option Captures)
            -> option Captures)
    (k : jsstring -> Captures -> option Captures)
    (fuel : nat) (s : jsstring) (caps : Captures) {struct fuel} : option Captures :=
  match fuel with
  | 0 => k s caps
  | S fuel' =>
      match body s caps
              (fun s' caps' =>
                 if Nat.ltb (length s') (length s)
                 then star_iterate body k fuel' s' caps' else None) with
      | Some m => Some m
      | None => k s caps
      end
  end.

(** [rmatch input r s caps k]: match [r] at the suffix [s] of [input], then
    continue with [k] on what is left; a failure of [k] makes the matcher
    try its next choice.  The captures inside [r*] are cleared at the start
    of each iteration. *)
Fixpoint rmatch (input : jsstring) (r : regex) (s : jsstring) (caps : Captures)
    (k : jsstring -> Captures -> option Captures) {struct r} : option Captures :=
  match r with
  | Bol => if Nat.eqb (length s) (length input) then k s caps else None
  | Eol => match s with [] => k s caps | _ :: _ => None end
  | Class p =>
      match s with
      | c :: t => if p c then k t caps else None
      | [] => None
      end
  | Lit l =>
      match strip_prefix l s with
      | Some t => k t caps
      | None => None
      end
  | Seq r1 r2 => rmatch input r1 s caps (fun s' caps' => rmatch input r2 s' caps' k)
  | Alt r1 r2 =>
      match rmatch input r1 s caps k with
      | Some m => Some m
      | None => rmatch input r2 s caps k
      end
  | Star r1 =>
      star_iterate (fun s' caps' k' => rmatch input r1 s' (reset (groups r1) caps') k')
        k (length s) s caps
  | Group n r1 =>
      rmatch input r1 s caps
        (fun s' caps' => k s' (<[n := Some (take (length s - length s') s)]> caps'))
  end.

Definition ngroups (r : regex) : nat := length (groups r).

(** [RegExp.prototype.exec] of a regex without flags: the leftmost start
    position at which the pattern matches. *)
Fixpoint exec_from (r : regex) (input s : jsstring) : option Captures :=
  match rmatch input r s (replicate (S (ngroups r)) None)
          (fun s' caps' => Some (<[0 := Some (take (length s - length s') s)]> caps')) with
  | Some m => Some m
  | None =>
      match s with
      | [] => None
      | _ :: t => exec_from r input t
      end
  end.

Definition exec (r : regex) (input : jsstring) : option Captures :=
  exec_from r input input.

(** [\s]: WhiteSpace and LineTerminator. *)
Definition is_space (c : N) : bool :=
  bool_decide (c ∈ [9; 10; 11; 12; 13; 32; 160; 5760; 8232; 8233; 8239; 8287; 12288; 65279]%N)
  || (N.leb 8192 c && N.leb c 8202).

(** [.]: any unit but a LineTerminator. *)
Definition is_dot (c : N) : bool :=
  negb (bool_decide (c ∈ [10; 13; 8232; 8233]%N)).

Definition one_of (l : list N) (c : N) : bool := bool_decide (c ∈ l).

(** [escape-string-regexp] puts a backslash before every metacharacter of
    [s], so that the fragment matches [s] unit for unit: as abstract syntax,
    the literal [s]. *)
Definition escapeStringRegExp (s : jsstring) : regex := Lit s.

(** The template
    [^\s*#include\s+["<](${relativePath}|(../)*${basename})[">]\s*$];
    the two dots of [(../)*] are written unescaped in the source. *)
Definition includePattern (relativePath basename : regex) : regex :=
  Bol >> Star (Class is_space) >> Lit (js "#include") >> Plus (Class is_space) >>
  Class (one_of [DQUOTE; LT]) >>
  Group 1 (Alt relativePath
               (Star (Group 2 (Class is_dot >> Class is_dot >> Lit [SLASH])) >> basename)) >>
  Class (one_of [DQUOTE; GT]) >> Star (Class is_space) >> Eol.

(** ** [utils.js]: filtering one line of grep output *)

Inductive JsError :=
| Error (message : jsstring)
| TypeError.

(** The completion of a call: a value or a thrown error. *)
Inductive completion (A : Type) :=
| Normal (a : A)
| Throw (e : JsError).
Arguments Normal {A} a.
Arguments Throw {A} e.

Section ProcessGrepResult.
Context `{Path : PathModule}.

(** [None] is [null].  [path.join] throws a TypeError on an argument that
    is not a string. *)
Definition processGrepResult (result headerFile : jsstring) (includeRegex : regex)
    : completion (option jsstring) :=
  match indexOf result NUL with
  | None => Normal None
  | Some splitIndex =>
      let filename := substr result 0 (Some splitIndex) in
      if negb (isSourceFile filename) then Normal None
      else
        match exec includeRegex (substr result (splitIndex + 1) None) with
        | None => Normal None
        | Some m =>
            match group m 2 with
            | Some _ =>
                match group m 1 with
                | Some m1 =>
                    let includePath := normalize (join (dirname filename) m1) in
                    if negb (str_eqb includePath headerFile) then Normal None
                    else Normal (Some filename)
                | None => Throw TypeError
                end
            | None => Normal (Some filename)
            end
        end
  end.

End ProcessGrepResult.

Definition inc (h : jsstring) : jsstring := js "#include " ++ DQUOTE :: h ++ [DQUOTE].

(** ** [utils.js]: the search as an observable

    [observeProcess] turns a child process into a stream of messages; the
    search maps each message through a callback ([flatMap]) and keeps the
    first value ([take(1)]). *)

Inductive ProcessMessage :=
| stdout (data : jsstring)
| stderr (data : jsstring)
| error (err : jsstring)
| exit (exitCode : Z).

(** What a subscriber is sent. *)
Inductive Notification :=
| next (value : option jsstring)
| complete
| fail (e : JsError).

(** [Observable.empty()] and [Observable.of(x)], by the values they emit
    before they complete. *)
Definition Observable_empty : list (option jsstring) := [].
Definition Observable_of (x : option jsstring) : list (option jsstring) := [x].

(** [observeProcess(spawn).flatMap(project).take(1)]: the command that
    [spawn] starts ([grep -RE --null pattern directory]) and the callback
    given to [flatMap]. *)
Record Observable := {
  command : jsstring;
  flags : list jsstring;
  pattern : regex;
  directory : jsstring;
  project : ProcessMessage -> completion (list (option jsstring))
}.

Section FindIncludingSourceFile.
Context `{Path : PathModule}.

Definition findIncludingSourceFile (headerFile projectRoot : jsstring) : Observable :=
  let basename := escapeStringRegExp (basename headerFile) in
  let relativePath := escapeStringRegExp (relative projectRoot headerFile) in
  let regex := includePattern relativePath basename in
  {| command := js "grep";
     flags := [js "-RE"; js "--null"];
     pattern := regex;
     directory := dirname headerFile;
     project := fun message =>
       match message with
       | stdout data =>
           match processGrepResult data headerFile regex with
           | Normal file =>
               Normal (match file with
                       | None => Observable_empty
                       | Some f => Observable_of (Some f)
                       end)
           | Throw e => Throw e
           end
       | error err => Throw (Error err)
       | exit _ => Normal (Observable_of None)
       | stderr _ => Normal Observable_empty
       end |}.

End FindIncludingSourceFile.

(** *** One subscription *)

Inductive ProcessState := running | exited | killed.

Record Subscription := {
  process : ProcessState;
  closed : bool;
  received : list Notification
}.

Inductive Event :=
| Message (m : ProcessMessage)  (* the process produces a message *)
| Unsubscribe                   (* the consumer cancels *).

(** Modelled from the spec: [observeProcess] belongs to nuclide-commons, which
    is not among the sources; the spec states that ending the subscription
    terminates the spawned process.  A process that has exited stays so. *)
Definition teardown (p : ProcessState) : ProcessState :=
  match p with
  | running => killed
  | other => other
  end.

(** Subscribing spawns the process. *)
Definition subscribe (o : Observable) : Subscription :=
  {| process := running; closed := false; received := [] |}.

(** [take(1)]: the first value is passed on, followed by [complete], and the
    source is unsubscribed; a thrown error ends the stream. *)
Definition step (o : Observable) (s : Subscription) (e : Event) : Subscription :=
  if closed s then s
  else
    match e with
    | Unsubscribe =>
        {| process := teardown (process s); closed := true; received := received s |}
    | Message m =>
        let p := match m with exit _ => exited | _ => process s end in
        match project o m with
        | Normal [] => {| process := p; closed := false; received := received s |}
        | Normal (v :: _) =>
            {| process := teardown p; closed := true;
               received := received s ++ [next v; complete] |}
        | Throw err =>
            {| process := teardown p; closed := true;
               received := received s ++ [fail err] |}
        end
    end.

Definition run (o : Observable) (events : list Event) : Subscription :=
  fold_left (step o) events (subscribe o).

(** The notifications a subscriber gets when the process produces
    [messages] and nobody cancels. *)
Definition emits (o : Observable) (messages : list ProcessMessage) : list Notification :=
  received (run o (Message <$> messages)).

(** A message that the callback maps to the empty observable. *)
Definition skipped (o : Observable) (m : ProcessMessage) : Prop :=
  project o m = Normal Observable_empty.

Definition grep_line (filename text : jsstring) : jsstring := filename ++ NUL :: text.

(** ** Test runner package: [limitString]

    The numbers that [limitString] computes with are halves of integers
    ([length / 2], [str.length - length / 2]); a number is kept as twice its
    value, and ToIntegerOrInfinity ([substring] applies it to its arguments)
    truncates toward zero.  [length] is taken integral. *)

Definition half_of (n : Z) : Z := n.                  (* n / 2, doubled *)
Definition int_minus_half (n : Z) (h : Z) : Z := (2 * n - h)%Z. (* n - h *)
Definition ToInteger (h : Z) : Z := trunc_half h.

Definition limitString (str : jsstring) (length : option Z) : jsstring :=
  let length := default 20%Z length in
  let strLength := Z.of_nat (List.length str) in
  if Z.gtb strLength length then
    substring str 0%Z (Some (ToInteger (half_of length)))
    ++ [ELLIPSIS]
    ++ substring str (ToInteger (int_minus_half (Z.of_nat (List.length str)) (half_of length))) None
  else str.

(** ** Test runner package: [Activation.addTestRunner] *)

(** A test runner is an object; the registry is a [Set], which compares
    objects by reference. *)
Abbreviation TestRunner := positive.

(** The controller re-renders when it is told that the runners changed;
    only the number of notifications is kept. *)
Record TestRunnerController := { updates : nat }.

Record Activation := {
  _controller : option TestRunnerController;
  _testRunners : gset TestRunner
}.

(** [if (this._controller != null) this.getController().didUpdateTestRunners()] *)
Definition notifyController (this : Activation) : Activation :=
  {| _controller :=
       match _controller this with
       | Some c => Some {| updates := S (updates c) |}
       | None => None
       end;
     _testRunners := _testRunners this |}.

(** Atom's [Disposable]: the action runs on the first [dispose] only. *)
Record Disposable := {
  disposed : bool;
  disposalAction : Activation -> Activation
}.

Definition dispose (d : Disposable) (this : Activation) : Disposable * Activation :=
  if disposed d then (d, this)
  else ({| disposed := true; disposalAction := disposalAction d |}, disposalAction d this).

(** [None] is the [undefined] of the bare [return]; the log line written in
    that branch is not part of the state. *)
Definition addTestRunner (this : Activation) (testRunner : TestRunner)
    : Activation * option Disposable :=
  if bool_decide (testRunner ∈ _testRunners this) then (this, None)
  else
    let this :=
      notifyController
        {| _controller := _controller this;
           _testRunners := {[testRunner]} ∪ _testRunners this |} in
    (this,
     Some {| disposed := false;
             disposalAction := fun this =>
               notifyController
                 {| _controller := _controller this;
                    _testRunners := _testRunners this ∖ {[testRunner]} |} |}).

(** ** What a match is

    [matches input r s caps s' caps']: [r] matches a prefix of [s], leaving
    [s'], and turns the captures [caps] into [caps'].  The matcher above
    returns the first such match, in its order of preference, whose
    continuation succeeds. *)
Inductive matches (input : jsstring)
  : regex -> jsstring -> Captures -> jsstring -> Captures -> Prop :=
| matches_Bol s c : length s = length input -> matches input Bol s c s c
| matches_Eol c : matches input Eol [] c [] c
| matches_Class (p : N -> bool) x t c :
    p x = true -> matches input (Class p) (x :: t) c t c
| matches_Lit l t c : matches input (Lit l) (l ++ t) c t c
| matches_Seq r1 r2 s c s1 c1 s2 c2 :
    matches input r1 s c s1 c1 -> matches input r2 s1 c1 s2 c2 ->
    matches input (Seq r1 r2) s c s2 c2
| matches_Alt_l r1 r2 s c s1 c1 :
    matches input r1 s c s1 c1 -> matches input (Alt r1 r2) s c s1 c1
| matches_Alt_r r1 r2 s c s1 c1 :
    matches input r2 s c s1 c1 -> matches input (Alt r1 r2) s c s1 c1
| matches_Star_done r s c : matches input (Star r) s c s c
| matches_Star_more r s c s1 c1 s2 c2 :
    matches input r s (reset (groups r) c) s1 c1 ->
    length s1 < length s ->
    matches input (Star r) s1 c1 s2 c2 ->
    matches input (Star r) s c s2 c2
| matches_Group n r s c s1 c1 :
    matches input r s c s1 c1 ->
    matches input (Group n r) s c s1 (<[n := Some (take (length s - length s1) s)]> c1).

(** One iteration of [(../)*]: two units that [.] accepts and a slash. *)
Definition is_segment (seg : jsstring) : Prop :=
  exists a b : N, seg = [a; b; SLASH] /\ is_dot a = true /\ is_dot b = true.

(** The captures after the iterations [segs] of [(../)*]. *)
Definition captures_after (segs : list jsstring) (caps : Captures) : Captures :=
  fold_left (fun c seg => <[2 := Some seg]> (reset [2] c)) segs caps.

(** ** Further parts of the sources *)

Definition is_stderr (m : ProcessMessage) : bool :=
  match m with
  | stderr _ => true
  | _ => false
  end.

(** ** [Section.js]

    The component as its props, its state and what it renders.  [None] in a
    prop is [undefined] or [null]; [onChange] tells whether a function is
    given, and the calls made to it are returned beside the state. *)

Module SectionUI.

(** A text or some other element. *)
Inductive Node :=
| Text (s : jsstring)
| Element (key : nat).

Record Props := {
  headline : Node;
  className : option jsstring;
  children : option Node;
  collapsable : option bool;
  collapsedByDefault : option bool;
  collapsed : option bool;
  onChange : bool;
  size : option jsstring
}.

Record State := { isCollapsed : bool }.

Definition constructor (props : Props) : State :=
  let initialIsCollapsed :=
    match collapsable props with
    | Some c =>
        c && match collapsedByDefault props with
             | Some d => d
             | None => false
             end
    | None => false
    end in
  {| isCollapsed := initialIsCollapsed |}.

(** The new state and the arguments of the calls to [props.onChange]. *)
Definition _toggleCollapsed (props : Props) (state : State) : State * list bool :=
  match collapsed props with
  | None => ({| isCollapsed := negb (isCollapsed state) |}, [])
  | Some c => (state, if onChange props then [negb c] else [])
  end.

Fixpoint join_space (l : list jsstring) : jsstring :=
  match l with
  | [] => []
  | [x] => x
  | x :: rest => x ++ 32%N :: join_space rest
  end.

(** [classnames] of one object: its keys with a true value, in order,
    separated by spaces. *)
Definition classnames (classes : list (jsstring * bool)) : jsstring :=
  join_space (fst <$> List.filter snd classes).

Definition getHeadlineComponent (size : option jsstring) : jsstring :=
  match size with
  | Some s =>
      if str_eqb s (js "small") then js "h6"
      else if str_eqb s (js "medium") then js "h5"
      else js "h3"
  | None => js "h3"
  end.

(** The headline element: [onClick] tells whether the handler
    [_toggleCollapsed] is attached. *)
Record Headline := {
  component : jsstring;
  iconClass : jsstring;
  onClick : bool;
  title : option jsstring;
  content : Node
}.

Record Rendered := {
  outerClassName : option jsstring;
  header : Headline;
  displayNone : bool;
  body : option Node
}.

Definition render (props : Props) (state : State) : Rendered :=
  let collapsable :=
    match collapsable props with
    | Some c => c
    | None => false
    end in
  let collapsed :=
    match collapsed props with
    | None => isCollapsed state
    | Some c => c
    end in
  let iconClass :=
    classnames [(js "icon", collapsable);
                (js "icon-chevron-down", collapsable && negb collapsed);
                (js "icon-chevron-right", collapsable && collapsed);
                (js "nuclide-ui-section-collapsable", collapsable)] in
  {| outerClassName := className props;
     header :=
       {| component := getHeadlineComponent (size props);
          iconClass := iconClass;
          onClick := collapsable;
          title :=
            if collapsable
            then Some (if collapsed then js "Click to expand" else js "Click to collapse")
            else None;
          content := headline props |};
     displayNone := collapsed;
     body := children props |}.

(** A click on the headline runs the handler that the last render attached,
    if any. *)
Definition click (props : Props) (state : State) : State * list bool :=
  if onClick (header (render props state)) then _toggleCollapsed props state
  else (state, []).

Fixpoint clicks (props : Props) (n : nat) (state : State) : State :=
  match n with
  | 0 => state
  | S n' => clicks props n' (click props state).1
  end.

End SectionUI.

(** ** Test runner package: the context menu items *)

Module Menu.

(** [element.dataset]: [name] and [path] are strings or [undefined]. *)
Record Dataset := {
  name : option jsstring;
  path : option jsstring
}.

(** An element by what the code reads of it: its [dataset] and the
    [dataset] of the first descendant of class [name], if there is one
    ([querySelector('.name')]). *)
Record HTMLElement := {
  dataset : Dataset;
  querySelector_name : option Dataset
}.

Record MouseEvent := { target : HTMLElement }.

Record FileTreeNode := { isContainer : bool }.

Record FileTreeContextMenu := { getSingleSelectedNode : option FileTreeNode }.

(** The fields that [created] assigns through [this]. *)
Record ContextMenuItem := {
  command : option jsstring;
  label : option jsstring
}.

(** A call that returns, or fails its [invariant]. *)
Inductive outcome (A : Type) :=
| Returned (a : A)
| AssertionError.
Arguments Returned {A} a.
Arguments AssertionError {A}.

Definition shouldDisplayItem (isForFile : bool) (contextMenu : FileTreeContextMenu) : bool :=
  match getSingleSelectedNode contextMenu with
  | Some node => if isForFile then negb (isContainer node) else isContainer node
  | None => false
  end.

Definition created (isForFile : bool) (event : MouseEvent) (this : ContextMenuItem)
    : outcome ContextMenuItem :=
  let label := if isForFile then js "Run tests at" else js "Run tests in" in
  let target :=
    match name (dataset (target event)) with
    | None => querySelector_name (target event)
    | Some _ => Some (dataset (target event))
    end in
  match target with
  | None => AssertionError
  | Some target =>
      match name target with
      | None => Returned this
      | Some name =>
          Returned {| command := Some (js "nuclide-test-runner:run-tests");
                      label := Some (label ++ js " '" ++ limitString name None ++ js "'") |}
      end
  end.

Definition shouldDisplay (this : Activation) (isForFile : bool)
    (contextMenu : FileTreeContextMenu) (event : MouseEvent) : bool :=
  if Nat.eqb (size (_testRunners this)) 0 then false
  else if negb (shouldDisplayItem isForFile contextMenu) then false
  else
    let target :=
      match name (dataset (target event)) with
      | None => querySelector_name (target event)
      | Some _ => Some (dataset (target event))
      end in
    match target with
    | Some target =>
        match name target, path target with
        | Some _, Some _ => true
        | _, _ => false
        end
    | None => false
    end.

(** The separator of [addItemsToFileTreeContextMenu]. *)
Definition separatorShouldDisplay (this : Activation) (contextMenu : FileTreeContextMenu)
    (event : MouseEvent) : bool :=
  shouldDisplay this true contextMenu event || shouldDisplay this false contextMenu event.

End Menu.

(** ** Test runner package: consumers of the registry

    A consumer adds runners and keeps the [Disposable]s it gets back, to
    dispose them when it likes. *)

Record Registry := {
  registryOf : Activation;
  issued : list (TestRunner * Disposable)
}.

Inductive RegistryOp :=
| AddRunner (t : TestRunner)       (* addTestRunner(t), the result kept *)
| DisposeIssued (i : nat)          (* dispose() of the i-th Disposable kept *).

Definition registry_step (w : Registry) (op : RegistryOp) : Registry :=
  match op with
  | AddRunner t =>
      let '(this, d) := addTestRunner (registryOf w) t in
      {| registryOf := this;
         issued := issued w ++ match d with Some d => [(t, d)] | None => [] end |}
  | DisposeIssued i =>
      match issued w !! i with
      | Some (t, d) =>
          let '(d', this) := dispose d (registryOf w) in
          {| registryOf := this; issued := <[i := (t, d')]> (issued w) |}
      | None => w
      end
  end.

Definition registry_run (ops : list RegistryOp) (w : Registry) : Registry :=
  fold_left registry_step ops w.

(** [new Activation()], as far as the registry goes. *)
Definition new_registry : Registry :=
  {| registryOf := {| _controller := None; _testRunners := ∅ |}; issued := [] |}.

(** [getController]: the controller is made on first use. *)
Definition getController (this : Activation) : Activation * TestRunnerController :=
  match _controller this with
  | Some controller => (this, controller)
  | None =>
      let controller := {| updates := 0 |} in
      ({| _controller := Some controller; _testRunners := _testRunners this |}, controller)
  end.

(** What is true of the registry after any calls: the action of an issued
    [Disposable] deletes its runner, a runner is registered exactly when one
    of its [Disposable]s has not run, and then only one has not. *)
Definition registry_inv (w : Registry) : Prop :=
  (forall i t d, issued w !! i = Some (t, d) ->
     forall a, disposalAction d a
               = notifyController {| _controller := _controller a;
                                     _testRunners := _testRunners a ∖ {[t]} |}) /\
  (forall t, t ∈ _testRunners (registryOf w) <->
     exists i d, issued w !! i = Some (t, d) /\ disposed d = false) /\
  (forall i j t d d',
     issued w !! i = Some (t, d) -> issued w !! j = Some (t, d') ->
     disposed d = false -> disposed d' = false -> i = j).


(** ** Test runner package: the module and the objects it keeps

    The [Disposable]s of the host (command listeners, menu items, the opener)
    and of the package are objects with an identity; the same object can sit
    in a [CompositeDisposable] and in the hands of a caller.  An object is
    named by its creation number, and the world records which objects have
    been disposed and which disposal actions have run. *)

Module Package.

(** What a disposal action gives back to the host. *)
Inductive Resource :=
| CommandListener (target command : jsstring)  (* atom.commands.add *)
| TestSectionItem (priority : Z)               (* contextMenu.addItemToTestSection *)
| ToolBarItems                                 (* toolBar.removeItems() *)
| Opener                                       (* api.addOpener *)
| ControllerItems                              (* api.destroyWhere(..) *).

(** A member of a [CompositeDisposable]: a [Disposable], or a
    [CompositeDisposable] of [Disposable]s. *)
Inductive Entry :=
| Single (id : nat) (r : Resource)
| Group (id : nat) (items : list (nat * Resource)).

Definition entry_id (e : Entry) : nat :=
  match e with
  | Single id _ => id
  | Group id _ => id
  end.

(** event-kit's [CompositeDisposable]: once disposed it holds nothing and
    [add] and [remove] do nothing. *)
Record CompositeDisposable := {
  isDisposed : bool;
  disposables : list Entry
}.

Definition composite_add (es : list Entry) (c : CompositeDisposable) : CompositeDisposable :=
  if isDisposed c then c
  else {| isDisposed := false; disposables := disposables c ++ es |}.

Definition composite_remove (id : nat) (c : CompositeDisposable) : CompositeDisposable :=
  if isDisposed c then c
  else {| isDisposed := false;
          disposables := List.filter (fun e => negb (Nat.eqb (entry_id e) id)) (disposables c) |}.

(** An [Activation] with its [_disposables]. *)
Record ActivationObject := {
  fields : Activation;
  _disposables : CompositeDisposable
}.

Record World := {
  objects : nat;                       (* how many Disposables were created *)
  disposedObjects : gset nat;          (* those whose [dispose] has run *)
  acquired : list (nat * Resource);    (* what was taken from the host, by the
                                          Disposable that gives it back *)
  released : list (nat * Resource);    (* the disposal actions run, in order *)
  heap : list ActivationObject;        (* every Activation constructed *)
  activation : option nat              (* the module's variable *)
}.

(** [Disposable.dispose] of the object [id] whose action releases [r]. *)
Definition dispose_single (id : nat) (r : Resource) (w : World) : World :=
  if bool_decide (id ∈ disposedObjects w) then w
  else {| objects := objects w;
          disposedObjects := {[id]} ∪ disposedObjects w;
          acquired := acquired w;
          released := released w ++ [(id, r)];
          heap := heap w;
          activation := activation w |}.

Definition dispose_entry (w : World) (e : Entry) : World :=
  match e with
  | Single id r => dispose_single id r w
  | Group id items =>
      if bool_decide (id ∈ disposedObjects w) then w
      else
        fold_left (fun w item => dispose_single item.1 item.2 w) items
          {| objects := objects w;
             disposedObjects := {[id]} ∪ disposedObjects w;
             acquired := acquired w;
             released := released w;
             heap := heap w;
             activation := activation w |}
  end.

Definition set_heap (h : list ActivationObject) (w : World) : World :=
  {| objects := objects w;
     disposedObjects := disposedObjects w;
     acquired := acquired w;
     released := released w;
     heap := h;
     activation := activation w |}.

Definition set_activation (a : option nat) (w : World) : World :=
  {| objects := objects w;
     disposedObjects := disposedObjects w;
     acquired := acquired w;
     released := released w;
     heap := heap w;
     activation := a |}.

(** [k] more Disposables are created. *)
Definition create (k : nat) (w : World) : World :=
  {| objects := objects w + k;
     disposedObjects := disposedObjects w;
     acquired := acquired w;
     released := released w;
     heap := heap w;
     activation := activation w |}.

(** The host hands out new Disposables for the resources [rs]. *)
Definition acquire (rs : list Resource) (w : World) : World :=
  {| objects := objects w + length rs;
     disposedObjects := disposedObjects w;
     acquired := acquired w ++ imap (fun k r => (objects w + k, r)) rs;
     released := released w;
     heap := heap w;
     activation := activation w |}.

Definition update_disposables (this : nat)
    (f : CompositeDisposable -> CompositeDisposable) (w : World) : World :=
  match heap w !! this with
  | Some a =>
      set_heap (<[this := {| fields := fields a; _disposables := f (_disposables a) |}]> (heap w)) w
  | None => w
  end.

Definition update_fields (this : nat) (f : Activation) (w : World) : World :=
  match heap w !! this with
  | Some a =>
      set_heap (<[this := {| fields := f; _disposables := _disposables a |}]> (heap w)) w
  | None => w
  end.

Definition constructor_commands : list Resource :=
  [CommandListener (js "atom-workspace") (js "nuclide-test-runner:toggle-panel");
   CommandListener (js "atom-workspace") (js "nuclide-test-runner:run-tests");
   CommandListener (js ".tree-view .entry.file.list-item") (js "nuclide-test-runner:run-tests");
   CommandListener (js ".tree-view .entry.directory.list-nested-item")
     (js "nuclide-test-runner:run-tests")].

(** [new Activation()]: the place of the new object in the heap, and the
    world with it. *)
Definition Activation_new (w : World) : nat * World :=
  let n := objects w in
  let this :=
    {| fields := {| _controller := None; _testRunners := ∅ |};
       _disposables :=
         {| isDisposed := false;
            disposables := imap (fun k r => Single (n + k) r) constructor_commands |} |} in
  (length (heap w), set_heap (heap w ++ [this]) (acquire constructor_commands w)).

(** [Activation.dispose]: [this._disposables.dispose()]. *)
Definition Activation_dispose (this : nat) (w : World) : World :=
  match heap w !! this with
  | Some a =>
      if isDisposed (_disposables a) then w
      else
        fold_left dispose_entry (disposables (_disposables a))
          (update_disposables this (fun _ => {| isDisposed := true; disposables := [] |}) w)
  | None => w
  end.

(** A [Disposable] in the hands of a caller. *)
Inductive Handle :=
| Releases (id : nat) (r : Resource)          (* a member of [_disposables] itself *)
| Detaches (id : nat) (this group : nat)      (* [() => this._disposables.remove(group)] *).

Definition dispose_handle (h : Handle) (w : World) : World :=
  match h with
  | Releases id r => dispose_single id r w
  | Detaches id this group =>
      if bool_decide (id ∈ disposedObjects w) then w
      else
        update_disposables this (composite_remove group)
          {| objects := objects w;
             disposedObjects := {[id]} ∪ disposedObjects w;
             acquired := acquired w;
             released := released w;
             heap := heap w;
             activation := activation w |}
  end.

Definition FILE_TREE_CONTEXT_MENU_PRIORITY : Z := 200.

(** The three items go into a [CompositeDisposable] of their own, which is
    added to [_disposables]; the result only takes it out again. *)
Definition Activation_addItemsToFileTreeContextMenu (this : nat) (w : World) : Handle * World :=
  let n := objects w in
  let items :=
    [TestSectionItem FILE_TREE_CONTEXT_MENU_PRIORITY;
     TestSectionItem (FILE_TREE_CONTEXT_MENU_PRIORITY + 1);
     TestSectionItem (FILE_TREE_CONTEXT_MENU_PRIORITY + 2)] in
  let menuItemSubscriptions := n + 3 in
  let handle := n + 4 in
  (Detaches handle this menuItemSubscriptions,
   update_disposables this
     (composite_add [Group menuItemSubscriptions (imap (fun k r => (n + k, r)) items)])
     (create 2 (acquire items w))).

(** The button's [Disposable] is added to [_disposables] and returned. *)
Definition Activation_addToolBar (this : nat) (w : World) : Handle * World :=
  let n := objects w in
  (Releases n ToolBarItems,
   update_disposables this (composite_add [Single n ToolBarItems]) (acquire [ToolBarItems] w)).

Definition Activation_consumeWorkspaceViewsService (this : nat) (w : World) : World :=
  let n := objects w in
  let rs := [Opener; ControllerItems;
             CommandListener (js "atom-workspace") (js "nuclide-test-runner:toggle-panel")] in
  update_disposables this (composite_add (imap (fun k r => Single (n + k) r) rs)) (acquire rs w).

(** *** The module's functions *)

Definition activate (w : World) : World :=
  match activation w with
  | Some _ => w
  | None =>
      let '(this, w) := Activation_new w in
      set_activation (Some this) w
  end.

Definition deactivate (w : World) : World :=
  match activation w with
  | Some this => set_activation None (Activation_dispose this w)
  | None => w
  end.

(** The [Disposable] of a runner with the [Activation] it was made by. *)
Definition consumeTestRunner (testRunner : TestRunner) (w : World)
    : World * option (nat * Disposable) :=
  match activation w with
  | Some this =>
      match heap w !! this with
      | Some a =>
          let '(f, d) := addTestRunner (fields a) testRunner in
          (update_fields this f w, (fun d => (this, d)) <$> d)
      | None => (w, None)
      end
  | None => (w, None)
  end.

(** [dispose] of a runner's [Disposable]: its action works on the
    [Activation] that made it. *)
Definition dispose_runner (h : nat * Disposable) (w : World) : (nat * Disposable) * World :=
  match heap w !! h.1 with
  | Some a =>
      let '(d, f) := dispose h.2 (fields a) in
      ((h.1, d), update_fields h.1 f w)
  | None => (h, w)
  end.

Definition addItemsToFileTreeContextMenu (w : World) : Menu.outcome (Handle * World) :=
  match activation w with
  | Some this => Menu.Returned (Activation_addItemsToFileTreeContextMenu this w)
  | None => Menu.AssertionError
  end.

Definition consumeToolBar (w : World) : Menu.outcome (Handle * World) :=
  match activation w with
  | Some this => Menu.Returned (Activation_addToolBar this w)
  | None => Menu.AssertionError
  end.

Definition consumeWorkspaceViewsService (w : World) : Menu.outcome World :=
  match activation w with
  | Some this => Menu.Returned (Activation_consumeWorkspaceViewsService this w)
  | None => Menu.AssertionError
  end.

Definition deserializeTestRunnerPanelState (w : World)
    : Menu.outcome (TestRunnerController * World) :=
  let w := activate w in
  match activation w with
  | Some this =>
      match heap w !! this with
      | Some a =>
          let '(f, controller) := getController (fields a) in
          Menu.Returned (controller, update_fields this f w)
      | None => Menu.AssertionError
      end
  | None => Menu.AssertionError
  end.

(** The numbers of the objects that an entry stands for. *)
Definition entry_ids (e : Entry) : list nat :=
  match e with
  | Single id _ => [id]
  | Group id items => id :: items.*1
  end.

(** What holds of the world whatever the module's functions are called
    with: the numbers in use are below the number of objects created, and
    the [Activation] in the module's variable has not been disposed. *)
Definition wf (w : World) : Prop :=
  (forall id, id ∈ disposedObjects w -> id < objects w) /\
  (forall item, item ∈ released w -> item.1 < objects w) /\
  (forall this a e id,
      heap w !! this = Some a -> e ∈ disposables (_disposables a) ->
      id ∈ entry_ids e -> id < objects w) /\
  (forall this, activation w = Some this ->
      exists a, heap w !! this = Some a /\ isDisposed (_disposables a) = false).

(** The action of the object [id] has run once, and released [r]. *)
Definition released_once (id : nat) (r : Resource) (w : World) : Prop :=
  exists before after,
    released w = before ++ (id, r) :: after /\ id ∉ (before ++ after).*1.

(** From [w] to [w'] only objects below [n] were disposed. *)
Definition only_below (n : nat) (w w' : World) : Prop :=
  objects w' = objects w /\ acquired w' = acquired w /\
  heap w' = heap w /\ activation w' = activation w /\
  (exists extra, released w' = released w ++ extra /\ Forall (fun item => item.1 < n) extra) /\
  (forall id, n <= id -> id ∈ disposedObjects w' <-> id ∈ disposedObjects w).

(** Nothing created, nothing activated. *)
Definition start : World :=
  {| objects := 0; disposedObjects := ∅; acquired := []; released := [];
     heap := []; activation := None |}.

(** *** Calls of the module's functions, in any order

    Atom calls the functions that the module exports, and the callers
    dispose the [Disposable]s they were given when they please. *)

Inductive Call :=
| CallActivate
| CallDeactivate
| CallConsumeTestRunner (testRunner : TestRunner)
| CallAddItemsToFileTreeContextMenu
| CallConsumeToolBar
| CallDeserializeTestRunnerPanelState
| CallConsumeWorkspaceViewsService
| CallDispose (i : nat)          (* of the i-th [IDisposable] returned *)
| CallDisposeRunner (i : nat)    (* of the i-th runner [Disposable] returned *).

Record Session := {
  world : World;
  handles : list Handle;
  runnerHandles : list (nat * Disposable)
}.

(** A call that throws leaves everything as it was. *)
Definition call (s : Session) (c : Call) : Session :=
  match c with
  | CallActivate =>
      {| world := activate (world s); handles := handles s;
         runnerHandles := runnerHandles s |}
  | CallDeactivate =>
      {| world := deactivate (world s); handles := handles s;
         runnerHandles := runnerHandles s |}
  | CallConsumeTestRunner testRunner =>
      let '(w, h) := consumeTestRunner testRunner (world s) in
      {| world := w; handles := handles s;
         runnerHandles := runnerHandles s ++ option_list h |}
  | CallAddItemsToFileTreeContextMenu =>
      match addItemsToFileTreeContextMenu (world s) with
      | Menu.Returned (h, w) =>
          {| world := w; handles := handles s ++ [h]; runnerHandles := runnerHandles s |}
      | Menu.AssertionError => s
      end
  | CallConsumeToolBar =>
      match consumeToolBar (world s) with
      | Menu.Returned (h, w) =>
          {| world := w; handles := handles s ++ [h]; runnerHandles := runnerHandles s |}
      | Menu.AssertionError => s
      end
  | CallDeserializeTestRunnerPanelState =>
      match deserializeTestRunnerPanelState (world s) with
      | Menu.Returned (_, w) =>
          {| world := w; handles := handles s; runnerHandles := runnerHandles s |}
      | Menu.AssertionError => s
      end
  | CallConsumeWorkspaceViewsService =>
      match consumeWorkspaceViewsService (world s) with
      | Menu.Returned w =>
          {| world := w; handles := handles s; runnerHandles := runnerHandles s |}
      | Menu.AssertionError => s
      end
  | CallDispose i =>
      match handles s !! i with
      | Some h =>
          {| world := dispose_handle h (world s); handles := handles s;
             runnerHandles := runnerHandles s |}
      | None => s
      end
  | CallDisposeRunner i =>
      match runnerHandles s !! i with
      | Some h =>
          let '(h', w) := dispose_runner h (world s) in
          {| world := w; handles := handles s;
             runnerHandles := <[i := h']> (runnerHandles s) |}
      | None => s
      end
  end.

Definition calls (cs : list Call) (s : Session) : Session := fold_left call cs s.

Definition start_session : Session :=
  {| world := start; handles := []; runnerHandles := [] |}.

(** A member of a [CompositeDisposable] stands for objects that exist, and
    its actions give back what was taken. *)
Definition entry_ok (w : World) (e : Entry) : Prop :=
  match e with
  | Single id r => id < objects w /\ (id, r) ∈ acquired w
  | Group id items =>
      id < objects w /\
      forall item, item ∈ items -> item.1 < objects w /\ item ∈ acquired w
  end.

Definition handle_ok (w : World) (h : Handle) : Prop :=
  match h with
  | Releases id r => id < objects w /\ (id, r) ∈ acquired w
  | Detaches id _ _ => id < objects w
  end.

(** Objects are created and resources taken, never forgotten. *)
Definition grows (w w' : World) : Prop :=
  objects w <= objects w' /\
  (forall item, item ∈ acquired w -> item ∈ acquired w') /\
  (forall item, item ∈ acquired w' -> item ∈ acquired w \/ objects w <= item.1).

(** What the disposals keep true. *)
Definition inv0 (w : World) : Prop :=
  (forall id, id ∈ disposedObjects w -> id < objects w) /\
  (forall item, item ∈ released w -> item.1 ∈ disposedObjects w /\ item ∈ acquired w) /\
  NoDup (released w).*1 /\
  (forall this a e,
      heap w !! this = Some a -> e ∈ disposables (_disposables a) -> entry_ok w e).

Definition inv (w : World) : Prop :=
  inv0 w /\
  (forall this, activation w = Some this ->
      exists a, heap w !! this = Some a /\ isDisposed (_disposables a) = false).

Definition session_inv (s : Session) : Prop :=
  inv (world s) /\ forall h, h ∈ handles s -> handle_ok (world s) h.

(** *** What has not been given back

    The items of the context menu are the one thing that the package may
    keep registered. *)
Definition is_menu_item (r : Resource) : bool :=
  match r with
  | TestSectionItem _ => true
  | _ => false
  end.

(** The [Activation] in the module's variable has the [Disposable] [id],
    whose action gives back [r], among its [_disposables]. *)
Definition held (w : World) (id : nat) (r : Resource) : Prop :=
  exists this a,
    activation w = Some this /\ heap w !! this = Some a /\
    Single id r ∈ disposables (_disposables a).

(** A [Disposable] that has been disposed has given back what it stands
    for. *)
Definition settled (w : World) : Prop :=
  forall item, item ∈ acquired w -> item.1 ∈ disposedObjects w -> item ∈ released w.

Definition accounted (w : World) : Prop :=
  (forall item, item ∈ acquired w -> item.1 < objects w) /\
  NoDup (acquired w).*1 /\
  settled w /\
  (forall this a g items,
      heap w !! this = Some a -> Group g items ∈ disposables (_disposables a) ->
      (g ∉ (acquired w).*1) /\ forall item, item ∈ items -> is_menu_item item.2 = true) /\
  (forall item, item ∈ acquired w ->
      item ∈ released w \/ held w item.1 item.2 \/ is_menu_item item.2 = true).

Definition session_accounted (s : Session) : Prop :=
  accounted (world s) /\
  forall id this g, Detaches id this g ∈ handles s ->
    (id ∉ (acquired (world s)).*1) /\ (g ∉ (acquired (world s)).*1) /\ g < objects (world s).

End Package.

(** * Evaluation on concrete inputs *)

(** Node's [path] in a process started in the root directory. *)
Definition root_path : PathModule := posix_path (js "/").

Example extname_ex1 : posix.extname (js "/a/b/foo.h++") = js ".h++".
Proof. vm_compute. reflexivity. Qed.
Example extname_ex2 : posix.extname (js "/a/b/.bashrc") = [].
Proof. vm_compute. reflexivity. Qed.
Example extname_ex3 : posix.extname (js "/a.d/b/") = [].
Proof. vm_compute. reflexivity. Qed.
Example extname_ex4 : posix.extname (js "x..") = js ".".
Proof. vm_compute. reflexivity. Qed.
Example extname_ex5 : posix.extname (js "..") = [].
Proof. vm_compute. reflexivity. Qed.
Example extname_ex6 : posix.extname (js "a.b.c//") = js ".c".
Proof. vm_compute. reflexivity. Qed.
Example dirname_ex1 : posix.dirname (js "/a/b/foo.h") = js "/a/b".
Proof. vm_compute. reflexivity. Qed.
Example dirname_ex2 : posix.dirname (js "/foo.h") = js "/".
Proof. vm_compute. reflexivity. Qed.
Example dirname_ex3 : posix.dirname (js "foo.h") = js ".".
Proof. vm_compute. reflexivity. Qed.
Example dirname_ex4 : posix.dirname (js "a/b/") = js "a".
Proof. vm_compute. reflexivity. Qed.
Example normalize_ex1 : posix.normalize (js "/a/b/../../c/./d/") = js "/c/d/".
Proof. vm_compute. reflexivity. Qed.
Example normalize_ex2 : posix.normalize (js "../a/../../b") = js "../../b".
Proof. vm_compute. reflexivity. Qed.
Example normalize_ex3 : posix.normalize (js "/..") = js "/".
Proof. vm_compute. reflexivity. Qed.
Example join_ex1 : posix.join (js "/a/sub") (js "../foo.h") = js "/a/foo.h".
Proof. vm_compute. reflexivity. Qed.
Example relative_ex1 : posix.relative (js "/") (js "/a") (js "/a/b/foo.h") = js "b/foo.h".
Proof. vm_compute. reflexivity. Qed.
Example relative_ex2 : posix.relative (js "/") (js "/a/sub") (js "/a/foo.h") = js "../foo.h".
Proof. vm_compute. reflexivity. Qed.
Example basename_ex1 : posix.basename (js "/a/b/foo.h") = js "foo.h".
Proof. vm_compute. reflexivity. Qed.
Example isHeader_ex1 : isHeaderFile (Path := root_path) (js "/a/b/foo.hpp") = true.
Proof. vm_compute. reflexivity. Qed.
Example isSource_ex1 : isSourceFile (Path := root_path) (js "/a/b/foo.mm") = true.
Proof. vm_compute. reflexivity. Qed.
Example isSource_ex2 : isSourceFile (Path := root_path) (js "/a/b/foo.h") = false.
Proof. vm_compute. reflexivity. Qed.
Example exec_ex1 :
  exec (includePattern (Lit (js "b/foo.h")) (Lit (js "foo.h"))) (inc (js "../../foo.h") ++ [LF])
  = Some [Some (inc (js "../../foo.h") ++ [LF]); Some (js "../../foo.h"); Some (js "../")].
Proof. vm_compute. reflexivity. Qed.
Example exec_ex2 :
  exec (includePattern (Lit (js "b/foo.h")) (Lit (js "foo.h"))) (js "  #include   <b/foo.h>  ")
  = Some [Some (js "  #include   <b/foo.h>  "); Some (js "b/foo.h"); None].
Proof. vm_compute. reflexivity. Qed.
Example exec_ex3 :
  exec (includePattern (Lit (js "b/foo.h")) (Lit (js "foo.h"))) (inc (js "foo.h"))
  = Some [Some (inc (js "foo.h")); Some (js "foo.h"); None].
Proof. vm_compute. reflexivity. Qed.
Example exec_ex4 :
  exec (includePattern (Lit (js "b/foo.h")) (Lit (js "foo.h"))) (inc (js "./foo.h")) = None.
Proof. vm_compute. reflexivity. Qed.
Example exec_ex5 :
  exec (includePattern (Lit (js "b/foo.h")) (Lit (js "foo.h"))) (inc (js "ab/foo.h"))
  = Some [Some (inc (js "ab/foo.h")); Some (js "ab/foo.h"); Some (js "ab/")].
Proof. vm_compute. reflexivity. Qed.
Example exec_ex6 :
  exec (includePattern (Lit (js "b/foo.h")) (Lit (js "foo.h"))) (js "x" ++ inc (js "foo.h")) = None.
Proof. vm_compute. reflexivity. Qed.
Example find_ex1 :
  emits (findIncludingSourceFile (Path := root_path) (js "/a/foo.h") (js "/a"))
    [stdout (grep_line (js "/a/README") (inc (js "foo.h") ++ [LF]));
     stdout (grep_line (js "/a/b/x.c") (inc (js "../../foo.h") ++ [LF]));
     stdout (grep_line (js "/a/b/y.c") (inc (js "../foo.h") ++ [LF]));
     stdout (grep_line (js "/a/z.c") (inc (js "foo.h") ++ [LF]));
     exit 0]
  = [next (Some (js "/a/b/y.c")); complete].
Proof. vm_compute. reflexivity. Qed.
Example find_ex2 :
  emits (findIncludingSourceFile (Path := root_path) (js "/a/foo.h") (js "/a")) [exit 1]
  = [next None; complete].
Proof. vm_compute. reflexivity. Qed.
Example find_ex3 :
  emits (findIncludingSourceFile (Path := root_path) (js "/a/foo.h") (js "/a")) [error (js "ENOENT"); exit 1]
  = [fail (Error (js "ENOENT"))].
Proof. vm_compute. reflexivity. Qed.
Example limitString_ex1 : limitString (js "foobar") (Some 4%Z) = js "fo" ++ ELLIPSIS :: js "ar".
Proof. vm_compute. reflexivity. Qed.
Example limitString_ex2 : limitString (js "hi") None = js "hi".
Proof. vm_compute. reflexivity. Qed.
Example limitString_ex3 :
  limitString (js "abcdefghij") (Some 5%Z) = js "ab" ++ ELLIPSIS :: js "hij".
Proof. vm_compute. reflexivity. Qed.
Example limitString_ex4 : limitString (js "abc") (Some (-3)%Z) = [ELLIPSIS].
Proof. vm_compute. reflexivity. Qed.

(** * Properties *)

(** ** File classification *)

(** C7: [isHeaderFile] holds exactly of the names whose [path.extname] is one
    of .h .hh .hpp .hxx .h++, and [isSourceFile] exactly of those whose
    extension is one of .c .cc .cpp .cxx .c++ .m .mm. *)
Theorem isHeaderFile_isSourceFile_extensions `{Path : PathModule} :
  (forall h : jsstring,
      isHeaderFile h = true <->
      extname h ∈ [js ".h"; js ".hh"; js ".hpp"; js ".hxx"; js ".h++"]) /\
  (forall f : jsstring,
      isSourceFile f = true <->
      extname f ∈ [js ".c"; js ".cc"; js ".cpp"; js ".cxx"; js ".c++"; js ".m"; js ".mm"]).
Proof.
  split; intros x; unfold isHeaderFile, isSourceFile, HEADER_EXTENSIONS, SOURCE_EXTENSIONS;
    rewrite bool_decide_eq_true, elem_of_list_to_set; reflexivity.
Qed.

(** ** One line of grep output *)

Lemma indexOf_None (s : jsstring) (c : N) : c ∉ s -> indexOf s c = None.
Proof.
  induction s as [|x t IH]; intros Hnot; simpl; [reflexivity|].
  destruct (N.eqb_spec x c) as [->|Hne].
  - exfalso. apply Hnot. left.
  - rewrite IH; [reflexivity|]. intros Hin. apply Hnot. right. exact Hin.
Qed.

Lemma indexOf_Some (s : jsstring) (c : N) (i : nat) :
  indexOf s c = Some i -> s = take i s ++ c :: drop (S i) s /\ c ∉ take i s.
Proof.
  revert i. induction s as [|x t IH]; intros i Hi; simpl in Hi; [discriminate|].
  destruct (N.eqb_spec x c) as [->|Hne].
  - injection Hi as <-. simpl. rewrite drop_0. split; [reflexivity|]. apply not_elem_of_nil.
  - destruct (indexOf t c) as [j|] eqn:Hj; simpl in Hi; [|discriminate].
    injection Hi as <-. destruct (IH j eq_refl) as [Heq Hnot]. simpl. split.
    + f_equal. exact Heq.
    + intros Hin. apply elem_of_cons in Hin as [Hc|Hin]; [congruence|]. exact (Hnot Hin).
Qed.

Lemma indexOf_grep_line (filename text : jsstring) :
  NUL ∉ filename -> indexOf (grep_line filename text) NUL = Some (length filename).
Proof.
  unfold grep_line. induction filename as [|x t IH]; intros Hnot; simpl.
  - reflexivity.
  - destruct (N.eqb_spec x NUL) as [->|Hne].
    + exfalso. apply Hnot. left.
    + rewrite IH; [reflexivity|]. intros Hin. apply Hnot. right. exact Hin.
Qed.

Section ProcessGrepResultFacts.
Context `{Path : PathModule}.

(** What a surviving line looks like. *)
Lemma processGrepResult_Some (result headerFile : jsstring) (re : regex) (f : jsstring) :
  processGrepResult result headerFile re = Normal (Some f) ->
  exists (i : nat) (m : Captures),
    indexOf result NUL = Some i /\ f = take i result /\
    isSourceFile f = true /\
    exec re (drop (i + 1) result) = Some m /\
    (group m 2 = None \/
     exists m1, group m 1 = Some m1 /\ normalize (join (dirname f) m1) = headerFile).
Proof.
  unfold processGrepResult. intros Hres.
  destruct (indexOf result NUL) as [i|] eqn:Hi; [|discriminate].
  unfold substr in Hres. rewrite drop_0 in Hres.
  destruct (isSourceFile (take i result)) eqn:Hsrc; simpl in Hres; [|discriminate].
  destruct (exec re (drop (i + 1) result)) as [m|] eqn:Hm; [|discriminate].
  exists i, m. destruct (group m 2) as [g2|] eqn:Hg2.
  - destruct (group m 1) as [m1|] eqn:Hg1; [|discriminate].
    unfold str_eqb in Hres.
    destruct (bool_decide_reflect
                (normalize (join (dirname (take i result)) m1) = headerFile)) as [Heq|Hne];
      simpl in Hres; [|discriminate].
    injection Hres as <-. repeat split; try assumption; try reflexivity.
    right. exists m1. split; [reflexivity | exact Heq].
  - injection Hres as <-. repeat split; try assumption; try reflexivity. left. reflexivity.
Qed.

Lemma processGrepResult_not_source (result headerFile : jsstring) (re : regex) (i : nat) :
  indexOf result NUL = Some i -> isSourceFile (take i result) = false ->
  processGrepResult result headerFile re = Normal None.
Proof.
  intros Hi Hsrc. unfold processGrepResult. rewrite Hi. unfold substr.
  rewrite drop_0, Hsrc. reflexivity.
Qed.

Lemma processGrepResult_wrong_path (result headerFile : jsstring) (re : regex)
    (i : nat) (m : Captures) (m1 g2 : jsstring) :
  indexOf result NUL = Some i ->
  exec re (drop (i + 1) result) = Some m ->
  group m 1 = Some m1 -> group m 2 = Some g2 ->
  normalize (join (dirname (take i result)) m1) <> headerFile ->
  processGrepResult result headerFile re = Normal None.
Proof.
  intros Hi Hm Hg1 Hg2 Hne. unfold processGrepResult. rewrite Hi. unfold substr.
  rewrite drop_0. destruct (isSourceFile (take i result)); simpl; [|reflexivity].
  rewrite Hm, Hg2, Hg1. unfold str_eqb.
  rewrite bool_decide_eq_false_2 by exact Hne. reflexivity.
Qed.

(** ** The subscription *)

Lemma step_closed (o : Observable) (s : Subscription) (e : Event) :
  closed s = true -> step o s e = s.
Proof. intros Hc. unfold step. rewrite Hc. reflexivity. Qed.

Lemma fold_step_closed (o : Observable) (events : list Event) (s : Subscription) :
  closed s = true -> fold_left (step o) events s = s.
Proof.
  revert s. induction events as [|e events IH]; intros s Hc; simpl; [reflexivity|].
  rewrite step_closed by exact Hc. apply IH, Hc.
Qed.

Lemma run_app (o : Observable) (evs1 evs2 : list Event) :
  run o (evs1 ++ evs2) = fold_left (step o) evs2 (run o evs1).
Proof. unfold run. apply fold_left_app. Qed.

(** A skipped message of the search is a line of output; it leaves the
    subscription as it was. *)
Lemma skipped_step (headerFile projectRoot : jsstring) (m : ProcessMessage) (s : Subscription) :
  skipped (findIncludingSourceFile headerFile projectRoot) m ->
  step (findIncludingSourceFile headerFile projectRoot) s (Message m) = s.
Proof.
  unfold skipped. intros Hskip. unfold step. destruct s as [p [|] r]; simpl; [reflexivity|].
  destruct m as [data|data|err|code]; simpl in Hskip |- *.
  - destruct (processGrepResult data headerFile _) as [[f|]|e]; try discriminate. reflexivity.
  - reflexivity.
  - discriminate.
  - discriminate.
Qed.

Lemma skipped_fold (headerFile projectRoot : jsstring) (pre : list ProcessMessage)
    (s : Subscription) :
  Forall (skipped (findIncludingSourceFile headerFile projectRoot)) pre ->
  fold_left (step (findIncludingSourceFile headerFile projectRoot)) (Message <$> pre) s = s.
Proof.
  intros Hpre. revert s. induction Hpre as [|m pre Hm _ IH]; intros s; simpl; [reflexivity|].
  rewrite skipped_step by exact Hm. apply IH.
Qed.

(** The first message that is not skipped decides the outcome. *)
Lemma run_decisive (headerFile projectRoot : jsstring) (pre rest : list ProcessMessage)
    (m : ProcessMessage) :
  let o := findIncludingSourceFile headerFile projectRoot in
  Forall (skipped o) pre ->
  closed (step o (subscribe o) (Message m)) = true ->
  run o (Message <$> (pre ++ m :: rest)) = step o (subscribe o) (Message m).
Proof.
  intros o Hpre Hc. subst o. rewrite fmap_app, fmap_cons, run_app. unfold run.
  rewrite skipped_fold by exact Hpre. simpl fold_left.
  apply fold_step_closed, Hc.
Qed.

Lemma stdout_skipped (headerFile projectRoot line : jsstring) :
  processGrepResult line headerFile (pattern (findIncludingSourceFile headerFile projectRoot))
    = Normal None ->
  skipped (findIncludingSourceFile headerFile projectRoot) (stdout line).
Proof. unfold skipped. simpl. intros ->. reflexivity. Qed.

(** Whatever happens, a subscriber has got nothing yet, one value followed by
    [complete], or one error. *)
Lemma run_shape (o : Observable) (events : list Event) :
  let s := run o events in
  (received s = [] /\ closed s = false /\ process s <> killed) \/
  (received s = [] /\ closed s = true /\ process s <> running) \/
  (closed s = true /\ process s <> running /\ exists v, received s = [next v; complete]) \/
  (closed s = true /\ process s <> running /\ exists e, received s = [fail e]).
Proof.
  induction events as [|e events IH] using rev_ind.
  - left. repeat split. discriminate.
  - rewrite run_app. simpl. cbv zeta in IH.
    destruct IH as [(Hr & Hc & Hp)|[(Hr & Hc & Hp)|[(Hc & Hp & v & Hr)|(Hc & Hp & err & Hr)]]].
    + unfold step. rewrite Hc. destruct e as [m|].
      * destruct (project o m) as [[|v vs]|err]; simpl; rewrite ?Hr.
        -- left. repeat split. destruct m; simpl; [exact Hp..|discriminate].
        -- right. right. left. repeat split; [|exists v; reflexivity].
           destruct m; simpl; try discriminate; destruct (process (run o events)); simpl;
             discriminate.
        -- right. right. right. repeat split; [|exists err; reflexivity].
           destruct m; simpl; try discriminate; destruct (process (run o events)); simpl;
             discriminate.
      * simpl. right. left. repeat split; [exact Hr|].
        destruct (process (run o events)); simpl; discriminate.
    + rewrite step_closed by exact Hc. right. left. auto.
    + rewrite step_closed by exact Hc. right. right. left. eauto.
    + rewrite step_closed by exact Hc. right. right. right. eauto.
Qed.

Lemma step_found (headerFile projectRoot line f : jsstring) :
  processGrepResult line headerFile (pattern (findIncludingSourceFile headerFile projectRoot))
    = Normal (Some f) ->
  step (findIncludingSourceFile headerFile projectRoot)
       (subscribe (findIncludingSourceFile headerFile projectRoot)) (Message (stdout line))
  = {| process := killed; closed := true; received := [next (Some f); complete] |}.
Proof. intros Hline. unfold step. simpl in *. rewrite Hline. reflexivity. Qed.

Lemma received_origin (o : Observable) (events : list Event) (v : option jsstring) :
  next v ∈ received (run o events) ->
  exists (m : ProcessMessage) (vs : list (option jsstring)),
    Message m ∈ events /\ project o m = Normal (v :: vs).
Proof.
  induction events as [|e events IH] using rev_ind.
  - simpl. intros Hin. apply elem_of_nil in Hin. destruct Hin.
  - rewrite run_app. simpl. unfold step.
    destruct (closed (run o events)).
    + intros Hin. destruct (IH Hin) as (m & vs & Hm & Hp).
      exists m, vs. split; [|exact Hp]. apply elem_of_app. left. exact Hm.
    + destruct e as [m|]; simpl.
      * destruct (project o m) as [[|w ws]|err] eqn:Hp; simpl; intros Hin.
        -- destruct (IH Hin) as (m' & vs & Hm & Hp').
           exists m', vs. split; [|exact Hp']. apply elem_of_app. left. exact Hm.
        -- apply elem_of_app in Hin as [Hin|Hin].
           ++ destruct (IH Hin) as (m' & vs & Hm & Hp').
              exists m', vs. split; [|exact Hp']. apply elem_of_app. left. exact Hm.
           ++ apply elem_of_cons in Hin as [Hin|Hin].
              ** injection Hin as ->. exists m, ws. split; [|exact Hp].
                 apply elem_of_app. right. left.
              ** apply list_elem_of_singleton in Hin. discriminate.
        -- apply elem_of_app in Hin as [Hin|Hin].
           ++ destruct (IH Hin) as (m' & vs & Hm & Hp').
              exists m', vs. split; [|exact Hp']. apply elem_of_app. left. exact Hm.
           ++ apply list_elem_of_singleton in Hin. discriminate.
      * intros Hin. destruct (IH Hin) as (m' & vs & Hm & Hp').
        exists m', vs. split; [|exact Hp']. apply elem_of_app. left. exact Hm.
Qed.

End ProcessGrepResultFacts.


(** ** [limitString] *)

Lemma substring_prefix (s : jsstring) (e : Z) :
  substring s 0%Z (Some e) = take (Z.to_nat e) s.
Proof.
  unfold substring, clamp. simpl.
  replace (Z.to_nat (Z.min (Z.max 0 0) (Z.of_nat (length s)))) with 0 by lia.
  rewrite Nat.max_0_l, Nat.min_0_l, Nat.sub_0_r, drop_0.
  destruct (Z_le_gt_dec e (Z.of_nat (length s))) as [Hle|Hgt].
  - f_equal. lia.
  - rewrite !take_ge by lia. reflexivity.
Qed.

Lemma substring_suffix (s : jsstring) (a : Z) :
  substring s a None = drop (Z.to_nat a) s.
Proof.
  unfold substring, clamp.
  destruct (Z_le_gt_dec a (Z.of_nat (length s))) as [Hle|Hgt].
  - replace (Z.to_nat (Z.min (Z.max a 0) (Z.of_nat (length s)))) with (Z.to_nat a) by lia.
    rewrite Nat.max_r, Nat.min_l by lia.
    apply take_ge. rewrite length_drop. lia.
  - replace (Z.to_nat (Z.min (Z.max a 0) (Z.of_nat (length s)))) with (length s) by lia.
    rewrite Nat.max_id, Nat.min_id, Nat.sub_diag, !drop_ge by lia. reflexivity.
Qed.

(** C6, as the code has it: when [str] is longer than [length], the result
    is the first [length / 2] units rounded down, the ellipsis, and the last
    [length / 2] units rounded up (the start index of the tail,
    [str.length - length / 2], is what gets truncated), [length + 1] units in
    all; otherwise [str] itself.  [length] defaults to 20. *)
Theorem limitString_head_ellipsis_tail (str : jsstring) (len : Z) :
  limitString str (Some len)
  = (if (len <? Z.of_nat (length str))%Z
     then take (Z.to_nat (len / 2)) str ++ [ELLIPSIS]
          ++ drop (length str - Z.to_nat ((len + 1) / 2)) str
     else str) /\
  limitString str None = limitString str (Some 20%Z) /\
  ((0 <= len < Z.of_nat (length str))%Z ->
   length (limitString str (Some len)) = Z.to_nat len + 1) /\
  limitString (js "foobar") (Some 4%Z) = js "fo" ++ [ELLIPSIS] ++ js "ar" /\
  limitString (js "hi") None = js "hi".
Proof.
  assert (Hmain : limitString str (Some len)
                  = if (len <? Z.of_nat (length str))%Z
                    then take (Z.to_nat (len / 2)) str ++ [ELLIPSIS]
                         ++ drop (length str - Z.to_nat ((len + 1) / 2)) str
                    else str).
  { unfold limitString, ToInteger, trunc_half, half_of, int_minus_half. simpl default.
    rewrite Z.gtb_ltb. destruct (Z.ltb_spec len (Z.of_nat (length str))) as [Hlt|Hge];
      [|reflexivity].
    rewrite substring_prefix, substring_suffix.
    destruct (Z_lt_ge_dec len 0) as [Hneg|Hpos].
    - replace (Z.to_nat (len ÷ 2)) with 0
        by (pose proof (Z.quot_le_upper_bound len 2 0); lia).
      replace (Z.to_nat (len / 2)) with 0
        by (pose proof (Z.div_lt_upper_bound len 2 0); lia).
      rewrite !drop_ge; [reflexivity| |].
      + assert ((len + 1) / 2 <= 0)%Z by (apply Z.div_le_upper_bound; lia). lia.
      + assert (Z.of_nat (length str) <= (2 * Z.of_nat (length str) - len) ÷ 2)%Z
          by (apply Z.quot_le_lower_bound; lia). lia.
    - rewrite !Z.quot_div_nonneg by lia. do 3 f_equal.
      assert (Heq : ((2 * Z.of_nat (length str) - len) / 2
                     = Z.of_nat (length str) - (len + 1) / 2)%Z).
      { replace (2 * Z.of_nat (length str) - len)%Z
          with ((- (len + 1) + 1) + Z.of_nat (length str) * 2)%Z by lia.
        rewrite Z.div_add by lia.
        pose proof (Z.div_mod (len + 1) 2 ltac:(lia)).
        pose proof (Z.div_mod (- (len + 1) + 1) 2 ltac:(lia)).
        pose proof (Z.mod_pos_bound (len + 1) 2 ltac:(lia)).
        pose proof (Z.mod_pos_bound (- (len + 1) + 1) 2 ltac:(lia)).
        lia. }
      rewrite Heq.
      assert ((0 <= (len + 1) / 2)%Z /\ ((len + 1) / 2 <= len)%Z).
      { split; [apply Z.div_pos; lia|].
        destruct (Z.eq_dec len 0%Z) as [->|Hnz]; [reflexivity|].
        apply Z.div_le_upper_bound; lia. }
      lia. }
  split; [exact Hmain|]. split; [reflexivity|]. split; [|split; vm_compute; reflexivity].
  intros [H0 Hlt]. rewrite Hmain.
  destruct (Z.ltb_spec len (Z.of_nat (length str))) as [_|Hge]; [|lia].
  rewrite !length_app, length_take, length_drop. simpl.
  assert (0 <= len / 2)%Z by (apply Z.div_pos; lia).
  assert (len / 2 + (len + 1) / 2 = len)%Z.
  { pose proof (Z.div_mod len 2 ltac:(lia)).
    pose proof (Z.div_mod (len + 1) 2 ltac:(lia)).
    pose proof (Z.mod_pos_bound len 2 ltac:(lia)).
    pose proof (Z.mod_pos_bound (len + 1) 2 ltac:(lia)).
    assert (Hcases : (len mod 2 = 0 \/ len mod 2 = 1)%Z) by lia.
    destruct Hcases as [Hpar|Hpar].
    - assert (((len + 1) mod 2 = 1)%Z) by (rewrite <- Zplus_mod_idemp_l, Hpar; reflexivity). lia.
    - assert (((len + 1) mod 2 = 0)%Z) by (rewrite <- Zplus_mod_idemp_l, Hpar; reflexivity). lia. }
  assert (0 <= (len + 1) / 2)%Z by (apply Z.div_pos; lia).
  lia.
Qed.

(** ** [Activation.addTestRunner] *)

(** C10: adding a test runner that is registered returns nothing and leaves
    the activation as it was; adding a new one puts it in the set and returns
    a [Disposable] that has not run, whose disposal takes exactly that runner
    out of whatever the set is then, and so, run right away, gives back the
    set from before the call. *)
Theorem addTestRunner_round_trip (this : Activation) (t : TestRunner) :
  (t ∈ _testRunners this -> addTestRunner this t = (this, None)) /\
  (t ∉ _testRunners this ->
   exists d : Disposable,
     (addTestRunner this t).2 = Some d /\
     disposed d = false /\
     _testRunners (addTestRunner this t).1 = {[t]} ∪ _testRunners this /\
     (forall other : Activation,
         _testRunners (dispose d other).2 = _testRunners other ∖ {[t]}) /\
     _testRunners (dispose d (addTestRunner this t).1).2 = _testRunners this /\
     (forall other : Activation,
         dispose (dispose d (addTestRunner this t).1).1 other
         = ((dispose d (addTestRunner this t).1).1, other))).
Proof.
  unfold addTestRunner. split; intros Ht.
  - rewrite bool_decide_eq_true_2 by exact Ht. reflexivity.
  - rewrite bool_decide_eq_false_2 by exact Ht. eexists. split; [reflexivity|].
    simpl. repeat split.
    apply set_eq. intros x.
    rewrite elem_of_difference, elem_of_union, elem_of_singleton.
    split; [intros [[->|Hx] Hne]; [contradiction | exact Hx]|].
    intros Hx. split; [right; exact Hx|]. intros ->. contradiction.
Qed.

(** ** The matcher finds matches, and only matches *)

Lemma strip_prefix_Some (p s t : jsstring) : strip_prefix p s = Some t -> s = p ++ t.
Proof.
  revert s. induction p as [|x p IH]; intros s Hs; simpl in Hs.
  - injection Hs as ->. reflexivity.
  - destruct s as [|y s]; [discriminate|].
    destruct (N.eqb_spec x y) as [->|Hne]; [|discriminate].
    simpl. f_equal. apply IH, Hs.
Qed.

Lemma strip_prefix_app (p t : jsstring) : strip_prefix p (p ++ t) = Some t.
Proof.
  induction p as [|x p IH]; simpl; [reflexivity|]. rewrite N.eqb_refl. exact IH.
Qed.

Section Matcher.
Variable input : jsstring.

Lemma rmatch_sound (r : regex) :
  forall (s : jsstring) (c : Captures) (k : jsstring -> Captures -> option Captures)
         (m : Captures),
    rmatch input r s c k = Some m ->
    exists s' c', matches input r s c s' c' /\ k s' c' = Some m.
Proof.
  induction r as [| |p|l|r1 IH1 r2 IH2|r1 IH1 r2 IH2|r1 IH1|n r1 IH1]; intros s c k m Hm;
    simpl in Hm.
  - destruct (Nat.eqb_spec (length s) (length input)) as [Heq|]; [|discriminate].
    exists s, c. split; [constructor; exact Heq | exact Hm].
  - destruct s; [|discriminate]. exists [], c. split; [constructor | exact Hm].
  - destruct s as [|x t]; [discriminate|]. destruct (p x) eqn:Hp; [|discriminate].
    exists t, c. split; [constructor; exact Hp | exact Hm].
  - destruct (strip_prefix l s) as [t|] eqn:Hl; [|discriminate].
    apply strip_prefix_Some in Hl as ->. exists t, c. split; [constructor | exact Hm].
  - destruct (IH1 _ _ _ _ Hm) as (s1 & c1 & H1 & Hk1).
    destruct (IH2 _ _ _ _ Hk1) as (s2 & c2 & H2 & Hk2).
    exists s2, c2. split; [econstructor; eassumption | exact Hk2].
  - destruct (rmatch input r1 s c k) as [m1|] eqn:E1.
    + injection Hm as ->. destruct (IH1 _ _ _ _ E1) as (s1 & c1 & H1 & Hk1).
      exists s1, c1. split; [apply matches_Alt_l; exact H1 | exact Hk1].
    + destruct (IH2 _ _ _ _ Hm) as (s1 & c1 & H1 & Hk1).
      exists s1, c1. split; [apply matches_Alt_r; exact H1 | exact Hk1].
  - revert Hm. generalize (length s) as fuel. intros fuel. revert s c.
    induction fuel as [|fuel IHf]; intros s c Hm; simpl in Hm.
    + exists s, c. split; [constructor | exact Hm].
    + match type of Hm with
      | match ?body with _ => _ end = _ => destruct body as [m1|] eqn:E1
      end.
      * injection Hm as ->. destruct (IH1 _ _ _ _ E1) as (s1 & c1 & H1 & Hk1).
        destruct (Nat.ltb_spec (length s1) (length s)) as [Hlt|]; [|discriminate].
        destruct (IHf _ _ Hk1) as (s2 & c2 & H2 & Hk2).
        exists s2, c2. split; [eapply matches_Star_more; eassumption | exact Hk2].
      * exists s, c. split; [constructor | exact Hm].
  - destruct (IH1 _ _ _ _ Hm) as (s1 & c1 & H1 & Hk1).
    eexists s1, _. split; [constructor; exact H1 | exact Hk1].
Qed.

Lemma rmatch_complete_gen (r : regex) (s : jsstring) (c : Captures) (s' : jsstring)
    (c' : Captures) :
  matches input r s c s' c' ->
  forall k : jsstring -> Captures -> option Captures,
    is_Some (k s' c') ->
    is_Some (rmatch input r s c k) /\
    (forall r1, r = Star r1 ->
       forall fuel, length s <= fuel ->
         is_Some (star_iterate
                    (fun s1 c1 k1 => rmatch input r1 s1 (reset (groups r1) c1) k1)
                    k fuel s c)).
Proof.
  induction 1 as [s c Hlen|c|p x t c Hp|l t c|r1 r2 s c s1 c1 s2 c2 _ IH1 _ IH2
                 |r1 r2 s c s1 c1 _ IH1|r1 r2 s c s1 c1 _ IH1|r s c
                 |r s c s1 c1 s2 c2 _ IH1 Hlt _ IH2|n r s c s1 c1 _ IH1];
    intros k Hk.
  - split; [|discriminate]. simpl. rewrite Hlen, Nat.eqb_refl. exact Hk.
  - split; [|discriminate]. exact Hk.
  - split; [|discriminate]. simpl. rewrite Hp. exact Hk.
  - split; [|discriminate]. simpl. rewrite strip_prefix_app. exact Hk.
  - split; [|discriminate]. simpl. apply IH1. apply IH2. exact Hk.
  - split; [|discriminate]. simpl.
    destruct (IH1 k Hk) as [[m Hm] _]. rewrite Hm. eauto.
  - split; [|discriminate]. simpl.
    destruct (rmatch input r1 s c k); [eauto|]. apply IH1, Hk.
  - assert (Hfuel : forall fuel,
               is_Some (star_iterate
                          (fun s1 c1 k1 => rmatch input r s1 (reset (groups r) c1) k1)
                          k fuel s c)).
    { intros [|fuel]; simpl; [exact Hk|].
      match goal with |- is_Some (match ?body with _ => _ end) => destruct body end;
        [eauto | exact Hk]. }
    split; [apply Hfuel|]. intros r1 Hr fuel _. injection Hr as <-. apply Hfuel.
  - assert (Hfuel : forall fuel, length s <= fuel ->
               is_Some (star_iterate
                          (fun s1 c1 k1 => rmatch input r s1 (reset (groups r) c1) k1)
                          k fuel s c)).
    { intros [|fuel] Hle; [lia|]. simpl.
      match goal with
      | |- is_Some (match rmatch input r s _ ?k1 with _ => _ end) =>
          destruct (IH1 k1) as [[m Hm] _]
      end.
      - destruct (Nat.ltb_spec (length s1) (length s)) as [_|Hge]; [|lia].
        destruct (IH2 k Hk) as [_ Hstar]. apply (Hstar r eq_refl). lia.
      - rewrite Hm. eauto. }
    split; [apply Hfuel; lia|]. intros r1 Hr fuel Hle. injection Hr as <-.
    apply Hfuel, Hle.
  - split; [|discriminate]. simpl. apply IH1. exact Hk.
Qed.

Lemma rmatch_complete (r : regex) (s : jsstring) (c : Captures) (s' : jsstring)
    (c' : Captures) (k : jsstring -> Captures -> option Captures) :
  matches input r s c s' c' -> is_Some (k s' c') -> is_Some (rmatch input r s c k).
Proof. intros Hm Hk. apply (rmatch_complete_gen _ _ _ _ _ Hm k Hk). Qed.

Lemma exec_from_sound (r : regex) (s : jsstring) (m : Captures) :
  exec_from r input s = Some m ->
  exists s0 s' c',
    s0 `suffix_of` s /\
    matches input r s0 (replicate (S (ngroups r)) None) s' c' /\
    m = <[0 := Some (take (length s0 - length s') s0)]> c'.
Proof.
  induction s as [|x s IH]; simpl; intros Hm.
  - destruct (rmatch input r [] _ _) as [m1|] eqn:E; [|discriminate].
    injection Hm as ->. apply rmatch_sound in E as (s' & c' & Hmatch & Hk).
    injection Hk as <-. exists [], s', c'. repeat split; [reflexivity | exact Hmatch].
  - destruct (rmatch input r (x :: s) _ _) as [m1|] eqn:E.
    + injection Hm as ->. apply rmatch_sound in E as (s' & c' & Hmatch & Hk).
      injection Hk as <-. exists (x :: s), s', c'. repeat split; [reflexivity | exact Hmatch].
    + destruct (IH Hm) as (s0 & s' & c' & Hsuf & Hmatch & ->).
      exists s0, s', c'. repeat split; [|exact Hmatch]. apply suffix_cons_r, Hsuf.
Qed.

End Matcher.

Lemma exec_from_unfold (r : regex) (input s : jsstring) :
  exec_from r input s
  = match rmatch input r s (replicate (S (ngroups r)) None)
            (fun s' caps' => Some (<[0 := Some (take (length s - length s') s)]> caps')) with
    | Some m => Some m
    | None => match s with [] => None | _ :: t => exec_from r input t end
    end.
Proof. destruct s; reflexivity. Qed.

Lemma exec_complete (r : regex) (input s' : jsstring) (c' : Captures) :
  matches input r input (replicate (S (ngroups r)) None) s' c' -> is_Some (exec r input).
Proof.
  intros Hm. unfold exec.
  assert (Hfirst : is_Some (rmatch input r input (replicate (S (ngroups r)) None)
             (fun s1 c1 => Some (<[0 := Some (take (length input - length s1) input)]> c1)))).
  { eapply rmatch_complete; [exact Hm | eauto]. }
  destruct Hfirst as [m Hfirst]. rewrite exec_from_unfold, Hfirst. eauto.
Qed.

(** ** The include pattern *)

Ltac invert H := inversion H; subst; clear H.

Lemma take_consumed (g t : jsstring) : take (length (g ++ t) - length t) (g ++ t) = g.
Proof. apply take_app_length'. rewrite length_app. lia. Qed.

Lemma matches_Star_Class_inv (input : jsstring) (p : N -> bool) (s : jsstring)
    (c : Captures) (s' : jsstring) (c' : Captures) :
  matches input (Star (Class p)) s c s' c' ->
  c' = c /\ exists w, s = w ++ s' /\ Forall (fun x => p x = true) w.
Proof.
  intros H. remember (Star (Class p)) as r eqn:Hr.
  induction H as [| | | | | | |r s c|r s c s1 c1 s2 c2 H1 _ Hlt _ IH|]; try discriminate;
    injection Hr as ->.
  - split; [reflexivity|]. exists []. split; [reflexivity | constructor].
  - invert H1. destruct (IH eq_refl) as [-> (w & -> & Hw)]. split; [reflexivity|].
    exists (x :: w). split; [reflexivity|]. constructor; assumption.
Qed.

Lemma matches_Star_Class_intro (input : jsstring) (p : N -> bool) (w t : jsstring)
    (c : Captures) :
  Forall (fun x => p x = true) w -> matches input (Star (Class p)) (w ++ t) c t c.
Proof.
  induction 1 as [|x w Hx _ IH]; simpl.
  - constructor.
  - eapply matches_Star_more; [constructor; exact Hx | simpl; lia | exact IH].
Qed.

Lemma matches_Bol_inv (input s : jsstring) (c : Captures) (s' : jsstring) (c' : Captures) :
  matches input Bol s c s' c' -> length s = length input /\ s' = s /\ c' = c.
Proof. intros H. invert H. auto. Qed.

Lemma matches_Eol_inv (input s : jsstring) (c : Captures) (s' : jsstring) (c' : Captures) :
  matches input Eol s c s' c' -> s = [] /\ s' = [] /\ c' = c.
Proof. intros H. invert H. auto. Qed.

Lemma matches_Class_inv (input : jsstring) (p : N -> bool) (s : jsstring) (c : Captures)
    (s' : jsstring) (c' : Captures) :
  matches input (Class p) s c s' c' -> exists x, s = x :: s' /\ p x = true /\ c' = c.
Proof. intros H. invert H. eauto. Qed.

Lemma matches_Lit_inv (input l s : jsstring) (c : Captures) (s' : jsstring) (c' : Captures) :
  matches input (Lit l) s c s' c' -> s = l ++ s' /\ c' = c.
Proof. intros H. invert H. auto. Qed.

Lemma matches_Seq_inv (input : jsstring) (r1 r2 : regex) (s : jsstring) (c : Captures)
    (s' : jsstring) (c' : Captures) :
  matches input (Seq r1 r2) s c s' c' ->
  exists s1 c1, matches input r1 s c s1 c1 /\ matches input r2 s1 c1 s' c'.
Proof. intros H. invert H. eauto. Qed.

Lemma matches_Alt_inv (input : jsstring) (r1 r2 : regex) (s : jsstring) (c : Captures)
    (s' : jsstring) (c' : Captures) :
  matches input (Alt r1 r2) s c s' c' ->
  matches input r1 s c s' c' \/ matches input r2 s c s' c'.
Proof. intros H. invert H; auto. Qed.

Lemma matches_Group_inv (input : jsstring) (n : nat) (r : regex) (s : jsstring)
    (c : Captures) (s' : jsstring) (c' : Captures) :
  matches input (Group n r) s c s' c' ->
  exists c1, matches input r s c s' c1 /\
             c' = <[n := Some (take (length s - length s') s)]> c1.
Proof. intros H. invert H. eauto. Qed.

(** One iteration of [(../)]. *)
Lemma matches_segment_inv (input s : jsstring) (c : Captures) (s1 : jsstring)
    (c1 : Captures) :
  matches input (Group 2 (Class is_dot >> Class is_dot >> Lit [SLASH])) s c s1 c1 ->
  exists seg, is_segment seg /\ s = seg ++ s1 /\ c1 = <[2 := Some seg]> c.
Proof.
  intros H. apply matches_Group_inv in H as (c2 & H & ->).
  apply matches_Seq_inv in H as (sa & ca & Ha & H).
  apply matches_Seq_inv in H as (sb & cb & Hb & H).
  apply matches_Class_inv in Ha as (a & -> & Ha & ->).
  apply matches_Class_inv in Hb as (b & -> & Hb & ->).
  apply matches_Lit_inv in H as (-> & ->).
  exists [a; b; SLASH]. split; [exists a, b; auto|]. split; [reflexivity|].
  change (a :: b :: [SLASH] ++ s1) with ([a; b; SLASH] ++ s1).
  rewrite (take_consumed [a; b; SLASH]). reflexivity.
Qed.

Lemma matches_Star_segment_inv (input s : jsstring) (c : Captures) (s' : jsstring)
    (c' : Captures) :
  matches input (Star (Group 2 (Class is_dot >> Class is_dot >> Lit [SLASH]))) s c s' c' ->
  exists segs, Forall is_segment segs /\ s = concat segs ++ s' /\ c' = captures_after segs c.
Proof.
  intros H.
  remember (Star (Group 2 (Class is_dot >> Class is_dot >> Lit [SLASH]))) as r eqn:Hr.
  induction H as [| | | | | | |r s c|r s c s1 c1 s2 c2 H1 _ Hlt _ IH|]; try discriminate;
    injection Hr as ->.
  - exists []. split; [constructor|]. split; reflexivity.
  - apply matches_segment_inv in H1 as (seg & Hseg & -> & ->).
    destruct (IH eq_refl) as (segs & Hsegs & -> & ->).
    exists (seg :: segs). split; [constructor; assumption|]. split.
    + simpl. rewrite <- app_assoc. reflexivity.
    + reflexivity.
Qed.

Lemma matches_Star_segment_intro (input : jsstring) (segs : list jsstring) (t : jsstring)
    (c : Captures) :
  Forall is_segment segs ->
  matches input (Star (Group 2 (Class is_dot >> Class is_dot >> Lit [SLASH])))
    (concat segs ++ t) c t (captures_after segs c).
Proof.
  intros Hsegs. revert c. induction Hsegs as [|seg segs Hseg _ IH]; intros c; simpl.
  - constructor.
  - destruct Hseg as (a & b & -> & Ha & Hb).
    eapply matches_Star_more; [| |apply IH].
    + pose proof (matches_Group input 2 (Class is_dot >> Class is_dot >> Lit [SLASH])
                    ([a; b; SLASH] ++ concat segs ++ t) (reset [2] c) (concat segs ++ t)
                    (reset [2] c)) as HG.
      rewrite (take_consumed [a; b; SLASH]) in HG. rewrite <- app_assoc. apply HG.
      simpl. econstructor; [constructor; exact Ha|].
      econstructor; [constructor; exact Hb|]. apply (matches_Lit input [SLASH]).
    + rewrite <- app_assoc. simpl. lia.
Qed.

Lemma captures_after_three (segs : list jsstring) (x : option jsstring) :
  captures_after segs [None; None; x]
  = [None; None; match last segs with Some g => Some g | None => x end].
Proof.
  revert x. induction segs as [|seg segs IH]; intros x; [reflexivity|].
  change (captures_after (seg :: segs) [None; None; x])
    with (captures_after segs [None; None; Some seg]).
  rewrite IH, last_cons. destruct (last segs); reflexivity.
Qed.

Lemma concat_segments_inj (segs1 segs2 : list jsstring) :
  Forall is_segment segs1 -> Forall is_segment segs2 ->
  concat segs1 = concat segs2 -> segs1 = segs2.
Proof.
  intros H1. revert segs2. induction H1 as [|seg1 segs1 Hs1 _ IH]; intros segs2 H2 Heq.
  - destruct H2 as [|seg2 segs2 (a & b & -> & _) _]; [reflexivity | discriminate].
  - destruct Hs1 as (a1 & b1 & -> & _).
    destruct H2 as [|seg2 segs2 (a2 & b2 & -> & _) H2]; [discriminate|].
    simpl in Heq. injection Heq as -> -> Heq. f_equal. apply IH; assumption.
Qed.

(** The shape of a match of the include pattern. *)
Lemma includePattern_matches_inv (input rel base s : jsstring) (c : Captures)
    (s' : jsstring) (c' : Captures) :
  matches input (includePattern (Lit rel) (Lit base)) s c s' c' ->
  length s = length input /\ s' = [] /\
  exists (ws1 ws2 g1 ws3 : jsstring) (q q' : N) (c1 : Captures),
    s = ws1 ++ js "#include" ++ ws2 ++ q :: g1 ++ q' :: ws3 /\
    Forall (fun x => is_space x = true) ws1 /\
    Forall (fun x => is_space x = true) ws2 /\ ws2 <> [] /\
    Forall (fun x => is_space x = true) ws3 /\
    one_of [DQUOTE; LT] q = true /\ one_of [DQUOTE; GT] q' = true /\
    c' = <[1 := Some g1]> c1 /\
    ((g1 = rel /\ c1 = c) \/
     (exists segs, Forall is_segment segs /\ g1 = concat segs ++ base /\
                   c1 = captures_after segs c)).
Proof.
  unfold includePattern, Plus. intros H.
  apply matches_Seq_inv in H as (s1 & c1 & Hbol & H).
  apply matches_Bol_inv in Hbol as (Hlen & -> & ->).
  apply matches_Seq_inv in H as (s2 & c2 & Hws1 & H).
  apply matches_Star_Class_inv in Hws1 as [-> (ws1 & -> & Hws1)].
  apply matches_Seq_inv in H as (s3 & c3 & Hlit & H).
  apply matches_Lit_inv in Hlit as (-> & ->).
  apply matches_Seq_inv in H as (s4 & c4 & Hplus & H).
  apply matches_Seq_inv in Hplus as (s5 & c5 & Hsp & Hws2).
  apply matches_Class_inv in Hsp as (sp & -> & Hsp & ->).
  apply matches_Star_Class_inv in Hws2 as [-> (ws2 & -> & Hws2)].
  apply matches_Seq_inv in H as (s6 & c6 & Hq & H).
  apply matches_Class_inv in Hq as (q & -> & Hq & ->).
  apply matches_Seq_inv in H as (s7 & c7 & Hgroup & H).
  apply matches_Seq_inv in H as (s8 & c8 & Hq' & H).
  apply matches_Class_inv in Hq' as (q' & -> & Hq' & ->).
  apply matches_Seq_inv in H as (s9 & c9 & Hws3 & Heol).
  apply matches_Eol_inv in Heol as (-> & -> & ->).
  apply matches_Star_Class_inv in Hws3 as [-> (ws3 & -> & Hws3)].
  rewrite app_nil_r in Hgroup.
  apply matches_Group_inv in Hgroup as (c1 & Hgroup & ->).
  split; [exact Hlen|]. split; [reflexivity|].
  assert (Hshape : exists g1, s6 = g1 ++ q' :: ws3 /\
             ((g1 = rel /\ c1 = c) \/
              (exists segs, Forall is_segment segs /\ g1 = concat segs ++ base /\
                            c1 = captures_after segs c))).
  { apply matches_Alt_inv in Hgroup as [Hrel|Hseg].
    - apply matches_Lit_inv in Hrel as (-> & ->). exists rel. split; [reflexivity|].
      left. split; reflexivity.
    - apply matches_Seq_inv in Hseg as (sa & ca & Hstar & Hbase).
      apply matches_Lit_inv in Hbase as (-> & ->).
      apply matches_Star_segment_inv in Hstar as (segs & Hsegs & -> & ->).
      exists (concat segs ++ base). split; [rewrite <- app_assoc; reflexivity|].
      right. exists segs. repeat split. exact Hsegs. }
  destruct Hshape as (g1 & -> & Hg1).
  exists ws1, (sp :: ws2), g1, ws3, q, q', c1.
  rewrite (take_consumed g1). repeat split; try assumption.
  - constructor; assumption.
  - discriminate.
Qed.

(** What [exec] returns for the include pattern: the whole text, the
    include path, and the last [(../)] iteration when the path was matched
    by the second alternative. *)
Lemma exec_includePattern_inv (rel base text : jsstring) (m : Captures) :
  exec (includePattern (Lit rel) (Lit base)) text = Some m ->
  exists (ws1 ws2 g1 ws3 : jsstring) (q q' : N) (g2 : option jsstring),
    text = ws1 ++ js "#include" ++ ws2 ++ q :: g1 ++ q' :: ws3 /\
    Forall (fun x => is_space x = true) ws1 /\
    Forall (fun x => is_space x = true) ws2 /\ ws2 <> [] /\
    Forall (fun x => is_space x = true) ws3 /\
    one_of [DQUOTE; LT] q = true /\ one_of [DQUOTE; GT] q' = true /\
    m = [Some text; Some g1; g2] /\
    ((g1 = rel /\ g2 = None) \/
     (exists segs, Forall is_segment segs /\ g1 = concat segs ++ base /\ g2 = last segs)).
Proof.
  unfold exec. intros Hm.
  apply exec_from_sound in Hm as (s0 & s' & c' & Hsuf & Hmatch & ->).
  apply includePattern_matches_inv in Hmatch
    as (Hlen & -> & ws1 & ws2 & g1 & ws3 & q & q' & c1 & Hs0 & H1 & H2 & Hne & H3 & Hq & Hq'
        & -> & Hg).
  assert (s0 = text) as -> by (apply suffix_length_eq; [exact Hsuf | lia]).
  simpl length at 2. rewrite Nat.sub_0_r, firstn_all.
  change (replicate (S (ngroups (includePattern (Lit rel) (Lit base)))) None)
    with ([None; None; None] : Captures) in Hg.
  destruct Hg as [[-> ->]|(segs & Hsegs & -> & ->)].
  - exists ws1, ws2, rel, ws3, q, q', None. repeat split; try assumption. left. auto.
  - exists ws1, ws2, (concat segs ++ base), ws3, q, q', (last segs).
    rewrite captures_after_three. repeat split; try assumption.
    + destruct (last segs); reflexivity.
    + right. exists segs. auto.
Qed.

(** The last unit that is not white space is in one place only. *)
Lemma last_non_space_unique (sp : N -> bool) (l1 l2 w1 w2 : jsstring) (x1 x2 : N) :
  l1 ++ x1 :: w1 = l2 ++ x2 :: w2 ->
  Forall (fun x => sp x = true) w1 -> Forall (fun x => sp x = true) w2 ->
  sp x1 = false -> sp x2 = false ->
  l1 = l2 /\ x1 = x2 /\ w1 = w2.
Proof.
  intros Heq Hw1 Hw2 Hx1 Hx2. revert l2 Heq.
  induction l1 as [|y l1 IH]; intros [|z l2] Heq; simpl in Heq.
  - injection Heq as -> ->. auto.
  - injection Heq as -> ->. apply Forall_app in Hw1 as [_ Hw1].
    apply Forall_cons in Hw1 as [Hsp _]. congruence.
  - injection Heq as -> <-. apply Forall_app in Hw2 as [_ Hw2].
    apply Forall_cons in Hw2 as [Hsp _]. congruence.
  - injection Heq as -> Heq. destruct (IH _ Heq) as (-> & -> & ->). auto.
Qed.

Lemma one_of_not_space (l : list N) (q : N) :
  Forall (fun x => is_space x = false) l -> one_of l q = true -> is_space q = false.
Proof.
  intros Hl Hq. unfold one_of in Hq. apply bool_decide_eq_true in Hq.
  rewrite Forall_forall in Hl. apply Hl, Hq.
Qed.

Lemma inc_app (h trail : jsstring) :
  inc h ++ trail = js "#include" ++ 32%N :: DQUOTE :: h ++ DQUOTE :: trail.
Proof.
  unfold inc. change (js "#include ") with (js "#include" ++ [32%N]).
  rewrite <- !app_assoc. simpl. rewrite <- app_assoc. reflexivity.
Qed.

(** An include line in its plain form, [#include "h"], possibly
    followed by white space (the line feed that ends the line). *)
Lemma inc_line_inv (h trail ws1 ws2 g1 ws3 : jsstring) (q q' : N) :
  inc h ++ trail = ws1 ++ js "#include" ++ ws2 ++ q :: g1 ++ q' :: ws3 ->
  Forall (fun x => is_space x = true) trail ->
  Forall (fun x => is_space x = true) ws1 ->
  Forall (fun x => is_space x = true) ws2 -> ws2 <> [] ->
  Forall (fun x => is_space x = true) ws3 ->
  one_of [DQUOTE; LT] q = true -> one_of [DQUOTE; GT] q' = true ->
  g1 = h.
Proof.
  intros Heq Htrail H1 H2 Hne H3 Hq Hq'.
  assert (Hq'sp : is_space q' = false).
  { eapply one_of_not_space; [|exact Hq']. repeat constructor. }
  assert (Hqsp : is_space q = false).
  { eapply one_of_not_space; [|exact Hq]. repeat constructor. }
  rewrite inc_app in Heq.
  destruct ws1 as [|x ws1].
  - rewrite app_nil_l in Heq.
    apply app_inv_head in Heq.
    destruct ws2 as [|y ws2]; [contradiction|].
    simpl in Heq. injection Heq as <- Heq.
    destruct ws2 as [|y ws2].
    + simpl in Heq. injection Heq as <- Heq.
      symmetry in Heq.
      destruct (last_non_space_unique is_space _ _ _ _ _ _ Heq H3 Htrail Hq'sp eq_refl)
        as (-> & _). reflexivity.
    + simpl in Heq. injection Heq as <- _.
      apply Forall_cons in H2 as [_ H2]. apply Forall_cons in H2 as [Hsp _].
      vm_compute in Hsp. discriminate.
  - simpl in Heq. injection Heq as <- _. apply Forall_cons in H1 as [Hsp _].
    vm_compute in Hsp. discriminate.
Qed.

Lemma includePattern_matches_intro (input rel base : jsstring) (segs : list jsstring)
    (trail : jsstring) (c : Captures) :
  Forall is_segment segs -> Forall (fun x => is_space x = true) trail ->
  input = inc (concat segs ++ base) ++ trail ->
  exists c', matches input (includePattern (Lit rel) (Lit base)) input c [] c'.
Proof.
  intros Hsegs Htrail Hinput. eexists. unfold includePattern, Plus.
  eapply matches_Seq; [apply matches_Bol; reflexivity|].
  eapply matches_Seq; [apply matches_Star_done|].
  rewrite Hinput at 2. rewrite inc_app, <- app_assoc.
  eapply matches_Seq; [apply matches_Lit|].
  eapply matches_Seq.
  { eapply matches_Seq; [apply matches_Class; reflexivity | apply matches_Star_done]. }
  eapply matches_Seq; [apply matches_Class; reflexivity|].
  eapply matches_Seq.
  { apply matches_Group. apply matches_Alt_r.
    eapply matches_Seq; [apply matches_Star_segment_intro; exact Hsegs|].
    apply (matches_Lit input base). }
  eapply matches_Seq; [apply matches_Class; reflexivity|].
  eapply matches_Seq; [|apply matches_Eol].
  rewrite <- (app_nil_r trail) at 1. apply matches_Star_Class_intro. exact Htrail.
Qed.

(** [exec] on the line [#include "h"] where [h] is the base name after any
    number of three-unit segments. *)
Lemma exec_include_segments (rel base : jsstring) (segs : list jsstring) (trail : jsstring) :
  Forall is_segment segs -> Forall (fun x => is_space x = true) trail ->
  exists g2 : option jsstring,
    exec (includePattern (Lit rel) (Lit base)) (inc (concat segs ++ base) ++ trail)
    = Some [Some (inc (concat segs ++ base) ++ trail); Some (concat segs ++ base); g2] /\
    (g2 = None \/ g2 = last segs) /\
    (rel <> concat segs ++ base -> g2 = last segs).
Proof.
  intros Hsegs Htrail.
  destruct (includePattern_matches_intro _ rel base segs trail [None; None; None]
              Hsegs Htrail eq_refl) as (c' & Hmatch).
  destruct (exec_complete _ _ _ _ Hmatch) as [m Hm]. rewrite Hm.
  destruct (exec_includePattern_inv _ _ _ _ Hm)
    as (ws1 & ws2 & g1 & ws3 & q & q' & g2 & Htext & H1 & H2 & Hne & H3 & Hq & Hq' & -> & Hg).
  assert (g1 = concat segs ++ base) as ->
    by (eapply inc_line_inv; eassumption).
  exists g2. split; [reflexivity|].
  destruct Hg as [[Hrel ->]|(segs' & Hsegs' & Heq & ->)].
  - split; [left; reflexivity|]. intros Hne'. congruence.
  - apply app_inv_tail in Heq. apply concat_segments_inj in Heq; [|assumption..].
    subst segs'. split; [right; reflexivity | reflexivity].
Qed.

(** [exec] on the line [#include "rel"], the root-relative form. *)
Lemma exec_include_relative (rel base trail : jsstring) :
  Forall (fun x => is_space x = true) trail ->
  exists g2 : option jsstring,
    exec (includePattern (Lit rel) (Lit base)) (inc rel ++ trail)
    = Some [Some (inc rel ++ trail); Some rel; g2].
Proof.
  intros Htrail.
  assert (Hmatch : exists c', matches (inc rel ++ trail) (includePattern (Lit rel) (Lit base))
                                (inc rel ++ trail) [None; None; None] [] c').
  { remember (inc rel ++ trail) as input eqn:Hinput.
    eexists. unfold includePattern, Plus.
    eapply matches_Seq; [apply matches_Bol; reflexivity|].
    eapply matches_Seq; [apply matches_Star_done|].
    rewrite Hinput at 2. rewrite inc_app.
    eapply matches_Seq; [apply matches_Lit|].
    eapply matches_Seq.
    { eapply matches_Seq; [apply matches_Class; reflexivity | apply matches_Star_done]. }
    eapply matches_Seq; [apply matches_Class; reflexivity|].
    eapply matches_Seq; [apply matches_Group, matches_Alt_l, (matches_Lit _ rel)|].
    eapply matches_Seq; [apply matches_Class; reflexivity|].
    eapply matches_Seq; [|apply matches_Eol].
    rewrite <- (app_nil_r trail) at 1. apply matches_Star_Class_intro. exact Htrail. }
  destruct Hmatch as (c' & Hmatch).
  destruct (exec_complete _ _ _ _ Hmatch) as [m Hm]. rewrite Hm.
  destruct (exec_includePattern_inv _ _ _ _ Hm)
    as (ws1 & ws2 & g1 & ws3 & q & q' & g2 & Htext & H1 & H2 & Hne & H3 & Hq & Hq' & -> & Hg).
  assert (g1 = rel) as -> by (eapply inc_line_inv; eassumption).
  exists g2. reflexivity.
Qed.

(** ** Include lines in grep output *)

Section IncludeLines.
Context `{Path : PathModule}.

Lemma processGrepResult_grep_line (filename text headerFile : jsstring) (re : regex) :
  NUL ∉ filename -> isSourceFile filename = true ->
  processGrepResult (grep_line filename text) headerFile re
  = match exec re text with
    | None => Normal None
    | Some m =>
        match group m 2 with
        | Some _ =>
            match group m 1 with
            | Some m1 =>
                if negb (str_eqb (normalize (join (dirname filename) m1)) headerFile)
                then Normal None else Normal (Some filename)
            | None => Throw TypeError
            end
        | None => Normal (Some filename)
        end
    end.
Proof.
  intros Hnul Hsrc. unfold processGrepResult.
  rewrite indexOf_grep_line by exact Hnul. unfold substr, grep_line.
  rewrite drop_0, take_app_length, Hsrc. simpl negb. cbv iota.
  rewrite (drop_app_add filename (NUL :: text) 1). reflexivity.
Qed.

(** With the pattern that the search builds, capture 1 is set in every
    match: [path.join] is never handed [undefined]. *)
Lemma processGrepResult_never_throws (result headerFile rel base : jsstring) (e : JsError) :
  processGrepResult result headerFile (includePattern (Lit rel) (Lit base)) <> Throw e.
Proof.
  unfold processGrepResult.
  destruct (indexOf result NUL) as [i|]; [|discriminate].
  destruct (negb (isSourceFile _)); [discriminate|].
  destruct (exec _ _) as [m|] eqn:Hm; [|discriminate].
  apply exec_includePattern_inv in Hm
    as (ws1 & ws2 & g1 & ws3 & q & q' & g2 & _ & _ & _ & _ & _ & _ & _ & -> & _).
  destruct g2; simpl; [|discriminate].
  destruct (negb _); discriminate.
Qed.

(** A line [#include "h"] of a source file survives when [h] has one of the
    forms of the pattern and resolves to the header. *)
Lemma processGrepResult_include (headerFile rel base filename h trail : jsstring) :
  NUL ∉ filename -> isSourceFile filename = true ->
  h = rel \/ (exists segs, Forall is_segment segs /\ h = concat segs ++ base) ->
  normalize (join (dirname filename) h) = headerFile ->
  Forall (fun x => is_space x = true) trail ->
  processGrepResult (grep_line filename (inc h ++ trail)) headerFile
    (includePattern (Lit rel) (Lit base))
  = Normal (Some filename).
Proof.
  intros Hnul Hsrc Hform Hres Htrail.
  rewrite processGrepResult_grep_line by assumption.
  assert (Hexec : exists g2,
             exec (includePattern (Lit rel) (Lit base)) (inc h ++ trail)
             = Some [Some (inc h ++ trail); Some h; g2]).
  { destruct Hform as [->|(segs & Hsegs & ->)].
    - apply exec_include_relative, Htrail.
    - destruct (exec_include_segments rel base segs trail Hsegs Htrail) as (g2 & Hg2 & _).
      exists g2. exact Hg2. }
  destruct Hexec as (g2 & ->). destruct g2 as [g2|]; simpl; [|reflexivity].
  unfold str_eqb. rewrite bool_decide_eq_true_2 by exact Hres. reflexivity.
Qed.

(** C4, as the code has it: when a source file [S] holds the line
    [#include "h"], [h] is the header's path relative to the project root or
    its base name after any number of three-unit segments ending in a slash
    (such as [../]), [h] resolves from the directory of [S] to the header,
    and no earlier line of output survives, the search yields [S]. *)
Theorem include_line_is_found (headerFile projectRoot S h trail : jsstring)
    (pre rest : list ProcessMessage) :
  let o := findIncludingSourceFile headerFile projectRoot in
  NUL ∉ S -> isSourceFile S = true ->
  h = relative projectRoot headerFile \/
  (exists segs, Forall is_segment segs /\ h = concat segs ++ basename headerFile) ->
  normalize (join (dirname S) h) = headerFile ->
  Forall (fun x => is_space x = true) trail ->
  Forall (skipped o) pre ->
  emits o (pre ++ stdout (grep_line S (inc h ++ trail)) :: rest) = [next (Some S); complete].
Proof.
  intros o Hnul Hsrc Hform Hres Htrail Hpre.
  assert (Hline : processGrepResult (grep_line S (inc h ++ trail)) headerFile (pattern o)
                  = Normal (Some S)).
  { apply processGrepResult_include; assumption. }
  unfold emits. subst o.
  rewrite run_decisive; [| exact Hpre |]; rewrite (step_found _ _ _ S Hline); reflexivity.
Qed.

(** C9: the two dots of [(../)*] stand for any unit (but a line terminator).
    A line whose path is the base name after any sequence of three-unit
    segments ending in a slash is accepted, [#include "ab/B"] for one; unless
    the path is the root-relative one, which the first alternative takes,
    capture 2 is then the last segment.  In every match whose path is neither
    the root-relative one nor the bare base name capture 2 is set, and a line
    with capture 2 set survives only when the path resolves to the header. *)
Theorem unescaped_dots_accept_any_segment (headerFile projectRoot : jsstring) :
  let o := findIncludingSourceFile headerFile projectRoot in
  (forall (segs : list jsstring) (trail : jsstring),
      Forall is_segment segs -> Forall (fun x => is_space x = true) trail ->
      exists g2,
        exec (pattern o) (inc (concat segs ++ basename headerFile) ++ trail)
        = Some [Some (inc (concat segs ++ basename headerFile) ++ trail);
                Some (concat segs ++ basename headerFile); g2] /\
        (relative projectRoot headerFile <> concat segs ++ basename headerFile ->
         g2 = last segs)) /\
  (relative projectRoot headerFile <> js "ab/" ++ basename headerFile ->
   exec (pattern o) (inc (js "ab/" ++ basename headerFile))
   = Some [Some (inc (js "ab/" ++ basename headerFile));
           Some (js "ab/" ++ basename headerFile); Some (js "ab/")]) /\
  (forall (text : jsstring) (m : Captures),
      exec (pattern o) text = Some m ->
      exists g1, group m 1 = Some g1 /\
        (g1 <> relative projectRoot headerFile -> g1 <> basename headerFile ->
         exists seg, is_segment seg /\ group m 2 = Some seg)) /\
  (forall (line f : jsstring),
      processGrepResult line headerFile (pattern o) = Normal (Some f) ->
      exists (i : nat) (m : Captures),
        indexOf line NUL = Some i /\ f = take i line /\
        exec (pattern o) (drop (i + 1) line) = Some m /\
        (is_Some (group m 2) ->
         exists m1, group m 1 = Some m1 /\
                    normalize (join (dirname f) m1) = headerFile)).
Proof.
  intros o. subst o. simpl pattern. unfold escapeStringRegExp.
  assert (Hacc : forall (segs : list jsstring) (trail : jsstring),
      Forall is_segment segs -> Forall (fun x => is_space x = true) trail ->
      exists g2,
        exec (includePattern (Lit (relative projectRoot headerFile))
                (Lit (basename headerFile)))
          (inc (concat segs ++ basename headerFile) ++ trail)
        = Some [Some (inc (concat segs ++ basename headerFile) ++ trail);
                Some (concat segs ++ basename headerFile); g2] /\
        (relative projectRoot headerFile <> concat segs ++ basename headerFile ->
         g2 = last segs)).
  { intros segs trail Hsegs Htrail.
    destruct (exec_include_segments (relative projectRoot headerFile) (basename headerFile)
                segs trail Hsegs Htrail) as (g2 & Hexec & _ & Hg2).
    exists g2. split; assumption. }
  split; [exact Hacc|]. split; [|split].
  - intros Hne.
    destruct (Hacc [js "ab/"] []) as (g2 & Hexec & Hg2).
    + repeat constructor. exists 97%N, 98%N. repeat split.
    + constructor.
    + rewrite !app_nil_r in Hexec. rewrite (Hg2 Hne) in Hexec. exact Hexec.
  - intros text m Hm.
    apply exec_includePattern_inv in Hm
      as (ws1 & ws2 & g1 & ws3 & q & q' & g2 & _ & _ & _ & _ & _ & _ & _ & -> & Hg).
    exists g1. split; [reflexivity|]. intros Hrel Hbase.
    destruct Hg as [[-> _]|(segs & Hsegs & -> & ->)]; [contradiction|].
    destruct segs as [|seg segs] using rev_ind; [contradiction|].
    exists seg. split.
    + apply Forall_app in Hsegs as [_ Hseg]. apply Forall_cons in Hseg as [Hseg _].
      exact Hseg.
    + simpl. apply last_snoc.
  - intros line f Hline.
    apply processGrepResult_Some in Hline as (i & m & Hi & Hf & _ & Hm & Hchk).
    exists i, m. repeat split; try assumption.
    intros [g2 Hg2]. destruct Hchk as [Hnone|Hchk]; [congruence | exact Hchk].
Qed.

End IncludeLines.

(** ** The search: results *)

Section SearchResults.
Context `{Path : PathModule}.

(** C1: the stream of [findIncludingSourceFile] carries one value and then
    completes.  The first line of output that survives [processGrepResult]
    is passed on as the found file and ends the search, the process being
    terminated; when the process exits before any line survives, the one
    value is [null] (not found).  Every run in which the process exits and
    sends no [error] message carries exactly one value and then completes,
    and in no run does a subscriber get a second value. *)
Theorem findIncludingSourceFile_emits_once (headerFile projectRoot : jsstring) :
  let o := findIncludingSourceFile headerFile projectRoot in
  (forall (pre rest : list ProcessMessage) (line f : jsstring),
      Forall (skipped o) pre ->
      processGrepResult line headerFile (pattern o) = Normal (Some f) ->
      run o (Message <$> (pre ++ stdout line :: rest))
      = {| process := killed; closed := true; received := [next (Some f); complete] |}) /\
  (forall (pre rest : list ProcessMessage) (code : Z),
      Forall (skipped o) pre ->
      run o (Message <$> (pre ++ exit code :: rest))
      = {| process := exited; closed := true; received := [next None; complete] |}) /\
  (forall messages : list ProcessMessage,
      (exists code, exit code ∈ messages) ->
      (forall err, error err ∉ messages) ->
      exists v, emits o messages = [next v; complete]) /\
  (forall events : list Event,
      received (run o events) = [] \/
      (exists v, received (run o events) = [next v; complete]) \/
      (exists e, received (run o events) = [fail e])).
Proof.
  intros o. split; [|split; [|split]].
  - intros pre rest line f Hpre Hline. subst o.
    rewrite run_decisive by (try exact Hpre; rewrite (step_found _ _ _ f Hline); reflexivity).
    apply step_found, Hline.
  - intros pre rest code Hpre. subst o.
    rewrite run_decisive by (try exact Hpre; reflexivity). reflexivity.
  - intros messages. unfold emits. subst o.
    induction messages as [|m messages IH]; intros [code Hexit] Herr.
    + apply elem_of_nil in Hexit. destruct Hexit.
    + assert (Hrest : (exists code', exit code' ∈ messages) ->
                      exists v, received (run (findIncludingSourceFile headerFile projectRoot)
                                            (Message <$> messages)) = [next v; complete]).
      { intros Hex. apply IH; [exact Hex|]. intros err Hin. apply (Herr err). right. exact Hin. }
      destruct m as [data|data|err|code'].
      * destruct (processGrepResult data headerFile
                    (pattern (findIncludingSourceFile headerFile projectRoot)))
          as [[f|]|e] eqn:Hdata.
        -- exists (Some f). rewrite (run_decisive _ _ [] messages (stdout data));
             [| constructor |]; rewrite (step_found _ _ _ f Hdata); reflexivity.
        -- change (Message <$> stdout data :: messages)
             with (Message <$> ([stdout data] ++ messages)).
           rewrite fmap_app, run_app. unfold run in Hrest |- *.
           rewrite (skipped_fold _ _ [stdout data])
             by (constructor; [apply stdout_skipped, Hdata | constructor]).
           apply Hrest. apply elem_of_cons in Hexit as [Hexit|Hexit]; [discriminate|].
           exists code. exact Hexit.
        -- exfalso. exact (processGrepResult_never_throws _ _ _ _ _ Hdata).
      * change (Message <$> stderr data :: messages)
          with (Message <$> ([stderr data] ++ messages)).
        rewrite fmap_app, run_app. unfold run in Hrest |- *.
        rewrite (skipped_fold _ _ [stderr data]) by (constructor; [reflexivity | constructor]).
        apply Hrest. apply elem_of_cons in Hexit as [Hexit|Hexit]; [discriminate|].
        exists code. exact Hexit.
      * exfalso. apply (Herr err). left.
      * exists None. rewrite (run_decisive _ _ [] messages (exit code'));
          [reflexivity | constructor | reflexivity].
  - intros events.
    destruct (run_shape o events) as [(Hr & _)|[(Hr & _)|[(_ & _ & v & Hr)|(_ & _ & e & Hr)]]];
      eauto.
Qed.

(** C2: a found file is a source file by [isSourceFile], and when the
    include line matched through the [(../)*] alternative (capture 2 is set)
    the normalized join of the file's directory and the captured path is
    [headerFile] itself; a line that fails either test is dropped. *)
Theorem found_is_source_and_resolves (headerFile projectRoot : jsstring) :
  let o := findIncludingSourceFile headerFile projectRoot in
  (forall (events : list Event) (f : jsstring),
      next (Some f) ∈ received (run o events) ->
      exists (line : jsstring) (i : nat) (m : Captures),
        Message (stdout line) ∈ events /\
        indexOf line NUL = Some i /\ f = take i line /\
        isSourceFile f = true /\
        exec (pattern o) (drop (i + 1) line) = Some m /\
        (forall g2, group m 2 = Some g2 ->
           exists m1, group m 1 = Some m1 /\
                      normalize (join (dirname f) m1) = headerFile)) /\
  (forall (line : jsstring) (i : nat),
      indexOf line NUL = Some i -> isSourceFile (take i line) = false ->
      skipped o (stdout line)) /\
  (forall (line : jsstring) (i : nat) (m : Captures) (m1 g2 : jsstring),
      indexOf line NUL = Some i ->
      exec (pattern o) (drop (i + 1) line) = Some m ->
      group m 1 = Some m1 -> group m 2 = Some g2 ->
      normalize (join (dirname (take i line)) m1) <> headerFile ->
      skipped o (stdout line)).
Proof.
  intros o. split; [|split].
  - intros events f Hin.
    destruct (received_origin o events (Some f) Hin) as (msg & vs & Hmsg & Hp).
    destruct msg as [data|data|err|code]; simpl in Hp; try discriminate.
    destruct (processGrepResult data headerFile _) as [[f'|]|e] eqn:Hres; try discriminate.
    injection Hp as -> _.
    destruct (processGrepResult_Some _ _ _ _ Hres) as (i & m & Hi & Hf & Hsrc & Hm & Hchk).
    exists data, i, m. repeat split; try assumption.
    intros g2 Hg2. destruct Hchk as [Hnone|Hchk]; [congruence | exact Hchk].
  - intros line i Hi Hsrc. apply stdout_skipped.
    eapply processGrepResult_not_source; eassumption.
  - intros line i m m1 g2 Hi Hm Hg1 Hg2 Hne. apply stdout_skipped.
    eapply processGrepResult_wrong_path; eassumption.
Qed.

(** C3, as the code has it: an [error] message from the process, arriving
    before any surviving line and before the exit, makes the stream fail
    with that error and nothing is emitted.  An exit is not a failure
    whatever its code: the stream emits [null] and completes. *)
Theorem error_message_fails_exit_code_ignored (headerFile projectRoot : jsstring) :
  let o := findIncludingSourceFile headerFile projectRoot in
  (forall (pre rest : list ProcessMessage) (err : jsstring),
      Forall (skipped o) pre ->
      emits o (pre ++ error err :: rest) = [fail (Error err)]) /\
  (forall (pre rest : list ProcessMessage) (code : Z),
      Forall (skipped o) pre ->
      emits o (pre ++ exit code :: rest) = [next None; complete]).
Proof.
  intros o. split.
  - intros pre rest err Hpre. unfold emits. subst o.
    rewrite run_decisive by (try exact Hpre; reflexivity). reflexivity.
  - intros pre rest code Hpre. unfold emits. subst o.
    rewrite run_decisive by (try exact Hpre; reflexivity). reflexivity.
Qed.

(** C5: unsubscribing before any message has arrived terminates the process
    and the subscriber never gets anything; at any later point too,
    unsubscribing leaves no process running and nothing is received after
    it. *)
Theorem unsubscribe_terminates_process (headerFile projectRoot : jsstring) :
  let o := findIncludingSourceFile headerFile projectRoot in
  (forall later : list Event,
      process (run o (Unsubscribe :: later)) = killed /\
      received (run o (Unsubscribe :: later)) = []) /\
  (forall before later : list Event,
      process (run o (before ++ Unsubscribe :: later)) <> running /\
      received (run o (before ++ Unsubscribe :: later)) = received (run o before)).
Proof.
  intros o. split.
  - intros later. unfold run. simpl. rewrite fold_step_closed by reflexivity.
    split; reflexivity.
  - intros before later. rewrite run_app. simpl.
    assert (Hstep : closed (step o (run o before) Unsubscribe) = true
                    /\ process (step o (run o before) Unsubscribe) <> running
                    /\ received (step o (run o before) Unsubscribe) = received (run o before)).
    { unfold step. destruct (closed (run o before)) eqn:Hc.
      - repeat split; try assumption.
        destruct (run_shape o before) as [(_ & Hc' & _)|[(_ & _ & Hp)|[(_ & Hp & _)|(_ & Hp & _)]]];
          try exact Hp. cbv zeta in Hc'. congruence.
      - simpl. repeat split. destruct (process (run o before)); simpl; discriminate. }
    destruct Hstep as (Hc & Hp & Hr).
    rewrite fold_step_closed by exact Hc. split; assumption.
Qed.

(** C8: a line of output without a NUL gives [null] in [processGrepResult];
    the subscription is left as it was, and a later line that survives is
    still reported. *)
Theorem line_without_separator_is_skipped (headerFile projectRoot : jsstring) :
  let o := findIncludingSourceFile headerFile projectRoot in
  (forall line : jsstring,
      NUL ∉ line -> processGrepResult line headerFile (pattern o) = Normal None) /\
  (forall (line : jsstring) (s : Subscription),
      NUL ∉ line -> step o s (Message (stdout line)) = s) /\
  (forall (bad : list jsstring) (rest : list ProcessMessage) (good f : jsstring),
      Forall (fun line => NUL ∉ line) bad ->
      processGrepResult good headerFile (pattern o) = Normal (Some f) ->
      emits o ((stdout <$> bad) ++ stdout good :: rest) = [next (Some f); complete]).
Proof.
  intros o.
  assert (Hnull : forall line : jsstring,
             NUL ∉ line -> processGrepResult line headerFile (pattern o) = Normal None).
  { intros line Hline. unfold processGrepResult. rewrite indexOf_None by exact Hline.
    reflexivity. }
  split; [exact Hnull|split].
  - intros line s Hline. apply skipped_step, stdout_skipped, Hnull, Hline.
  - intros bad rest good f Hbad Hgood. unfold emits. subst o.
    rewrite run_decisive.
    + rewrite (step_found _ _ _ f Hgood). reflexivity.
    + apply Forall_fmap. eapply Forall_impl; [exact Hbad|].
      intros line Hline. apply stdout_skipped, Hnull, Hline.
    + rewrite (step_found _ _ _ f Hgood). reflexivity.
Qed.

End SearchResults.

(** * The properties on concrete searches *)

Ltac evaluated := vm_compute; reflexivity.

Lemma findIncludingSourceFile_emits_once_witness :
  let o := findIncludingSourceFile (Path := root_path) (js "/a/foo.h") (js "/a") in
  let pre := [stdout (js "Binary file /a/foo.o matches"); stderr (js "grep: /a/x: denied")] in
  let line := grep_line (js "/a/b/y.c") (inc (js "../foo.h") ++ [LF]) in
  Forall (skipped o) pre /\
  processGrepResult (Path := root_path) line (js "/a/foo.h") (pattern o)
    = Normal (Some (js "/a/b/y.c")) /\
  run o (Message <$> (pre ++ stdout line :: [exit 0]))
    = {| process := killed; closed := true;
         received := [next (Some (js "/a/b/y.c")); complete] |} /\
  run o (Message <$> (pre ++ exit 1 :: []))
    = {| process := exited; closed := true; received := [next None; complete] |} /\
  (exists code, exit code ∈ pre ++ [exit 1]) /\
  (forall err, error err ∉ pre ++ [exit 1]) /\
  (exists v, emits o (pre ++ [exit 1]) = [next v; complete]).
Proof.
  intros o pre line.
  destruct (findIncludingSourceFile_emits_once (Path := root_path) (js "/a/foo.h") (js "/a"))
    as (Hfound & Hexit & Htotal & _).
  assert (Hex : exists code, exit code ∈ pre ++ [exit 1]).
  { exists 1%Z. apply elem_of_app. right. left. }
  assert (Herr : forall err, error err ∉ pre ++ [exit 1]).
  { intros err Hin. simpl in Hin.
    repeat (apply elem_of_cons in Hin as [Hin|Hin]; [discriminate|]).
    apply elem_of_nil in Hin. exact Hin. }
  assert (Hpre : Forall (skipped o) pre).
  { constructor; [evaluated|]. constructor; [evaluated|]. constructor. }
  assert (Hline : processGrepResult (Path := root_path) line (js "/a/foo.h") (pattern o)
                  = Normal (Some (js "/a/b/y.c"))) by evaluated.
  split; [exact Hpre|]. split; [exact Hline|]. split; [|split].
  - apply (Hfound pre [exit 0%Z] line (js "/a/b/y.c") Hpre Hline).
  - apply (Hexit pre [] 1%Z Hpre).
  - split; [exact Hex|]. split; [exact Herr|]. exact (Htotal _ Hex Herr).
Defined.

Lemma found_is_source_and_resolves_witness :
  let o := findIncludingSourceFile (Path := root_path) (js "/a/foo.h") (js "/a") in
  let good := grep_line (js "/a/b/y.c") (inc (js "../foo.h") ++ [LF]) in
  let far := grep_line (js "/a/b/x.c") (inc (js "../../foo.h") ++ [LF]) in
  let events := [Message (stdout far); Message (stdout good); Message (exit 0)] in
  next (Some (js "/a/b/y.c")) ∈ received (run o events) /\
  (exists (line : jsstring) (i : nat) (m : Captures),
      Message (stdout line) ∈ events /\
      indexOf line NUL = Some i /\ js "/a/b/y.c" = take i line /\
      isSourceFile (Path := root_path) (js "/a/b/y.c") = true /\
      exec (pattern o) (drop (i + 1) line) = Some m /\
      (forall g2, group m 2 = Some g2 ->
         exists m1, group m 1 = Some m1 /\
                    posix.normalize (posix.join (posix.dirname (js "/a/b/y.c")) m1)
                    = js "/a/foo.h")) /\
  skipped o (stdout far).
Proof.
  intros o good far events.
  destruct (found_is_source_and_resolves (Path := root_path) (js "/a/foo.h") (js "/a"))
    as (Hfound & _ & Hwrong).
  assert (Hin : next (Some (js "/a/b/y.c")) ∈ received (run o events)).
  { vm_compute. constructor. }
  split; [exact Hin|]. split; [exact (Hfound events (js "/a/b/y.c") Hin)|].
  apply (Hwrong far 8 [Some (inc (js "../../foo.h") ++ [LF]); Some (js "../../foo.h");
                       Some (js "../")] (js "../../foo.h") (js "../")).
  - evaluated.
  - evaluated.
  - reflexivity.
  - reflexivity.
  - vm_compute. discriminate.
Defined.

(** C3 as stated fails: a process that exits with code 2 makes the stream
    emit [null] and complete; no error reaches the subscriber. *)
Lemma nonzero_exit_emits_null :
  emits (findIncludingSourceFile (Path := root_path) (js "/a/foo.h") (js "/a")) [exit 2]
  = [next None; complete].
Proof. evaluated. Qed.

Lemma error_message_fails_exit_code_ignored_witness :
  let o := findIncludingSourceFile (Path := root_path) (js "/a/foo.h") (js "/a") in
  let pre := [stderr (js "grep: /a/x: denied")] in
  Forall (skipped o) pre /\
  emits o (pre ++ error (js "spawn grep ENOENT") :: [exit 2])
    = [fail (Error (js "spawn grep ENOENT"))] /\
  emits o (pre ++ exit 2 :: []) = [next None; complete].
Proof.
  intros o pre.
  destruct (error_message_fails_exit_code_ignored (Path := root_path) (js "/a/foo.h") (js "/a"))
    as (Herr & Hexit).
  assert (Hpre : Forall (skipped o) pre).
  { constructor; [evaluated|]. constructor. }
  split; [exact Hpre|]. split.
  - apply (Herr pre [exit 2%Z] (js "spawn grep ENOENT") Hpre).
  - apply (Hexit pre [] 2%Z Hpre).
Defined.

(** C4 as stated fails.  [/a/x.c] holds [#include "./foo.h"], which resolves
    to the header [/a/foo.h], yet the pattern does not accept the line: grep
    has nothing to report, and were the line reported it would be dropped.
    And of two source files that include the header, only the one reported
    first is found. *)
Lemma include_not_always_found :
  let o := findIncludingSourceFile (Path := root_path) (js "/a/foo.h") (js "/a") in
  let S := js "/a/x.c" in
  let S' := js "/a/y.c" in
  (isSourceFile (Path := root_path) S = true /\
   posix.normalize (posix.join (posix.dirname S) (js "./foo.h")) = js "/a/foo.h" /\
   posix.dirname S = directory o /\
   exec (pattern o) (inc (js "./foo.h") ++ [LF]) = None /\
   emits o [exit 1] = [next None; complete] /\
   emits o [stdout (grep_line S (inc (js "./foo.h") ++ [LF])); exit 0]
     = [next None; complete]) /\
  (isSourceFile (Path := root_path) S = true /\
   posix.normalize (posix.join (posix.dirname S) (js "foo.h")) = js "/a/foo.h" /\
   emits o [stdout (grep_line S' (inc (js "foo.h") ++ [LF]));
            stdout (grep_line S (inc (js "foo.h") ++ [LF])); exit 0]
     = [next (Some S'); complete] /\
   S' <> S).
Proof.
  intros o S S'.
  split; [repeat split; evaluated|].
  split; [evaluated|]. split; [evaluated|]. split; [evaluated|]. discriminate.
Qed.

Lemma include_line_is_found_witness :
  let o := findIncludingSourceFile (Path := root_path) (js "/a/foo.h") (js "/a") in
  let S := js "/a/b/y.c" in
  let h := js "../foo.h" in
  let pre := [stdout (grep_line (js "/a/b/x.c") (inc (js "../../foo.h") ++ [LF]))] in
  (NUL ∉ S) /\ isSourceFile (Path := root_path) S = true /\
  (h = posix.relative (js "/") (js "/a") (js "/a/foo.h") \/
   (exists segs, Forall is_segment segs /\ h = concat segs ++ posix.basename (js "/a/foo.h"))) /\
  posix.normalize (posix.join (posix.dirname S) h) = js "/a/foo.h" /\
  Forall (fun x => is_space x = true) [LF] /\
  Forall (skipped o) pre /\
  emits o (pre ++ stdout (grep_line S (inc h ++ [LF])) :: [exit 0]) = [next (Some S); complete].
Proof.
  intros o S h pre.
  assert (Hnul : NUL ∉ S).
  { intros Hin. vm_compute in Hin.
    repeat (apply elem_of_cons in Hin as [Hin|Hin]; [discriminate|]).
    apply elem_of_nil in Hin. exact Hin. }
  assert (Hsrc : isSourceFile (Path := root_path) S = true) by evaluated.
  assert (Hform : h = posix.relative (js "/") (js "/a") (js "/a/foo.h") \/
            (exists segs, Forall is_segment segs /\
                          h = concat segs ++ posix.basename (js "/a/foo.h"))).
  { right. exists [js "../"]. split; [|evaluated].
    constructor; [|constructor]. exists DOT, DOT. repeat split. }
  assert (Hres : posix.normalize (posix.join (posix.dirname S) h) = js "/a/foo.h") by evaluated.
  assert (Htrail : Forall (fun x => is_space x = true) [LF]).
  { constructor; [evaluated | constructor]. }
  assert (Hpre : Forall (skipped o) pre).
  { constructor; [evaluated | constructor]. }
  repeat (split; [assumption|]).
  exact (include_line_is_found (Path := root_path) (js "/a/foo.h") (js "/a") S h [LF] pre
           [exit 0%Z] Hnul Hsrc Hform Hres Htrail Hpre).
Defined.

(** C6 as stated fails: with the odd length 5 the tail has three units, not
    two. *)
Lemma limitString_odd_length_tail :
  limitString (js "abcdefghij") (Some 5%Z) = js "ab" ++ [ELLIPSIS] ++ js "hij" /\
  limitString (js "abcdefghij") (Some 5%Z)
  <> take 2 (js "abcdefghij") ++ [ELLIPSIS] ++ drop (10 - 2) (js "abcdefghij").
Proof. split; [evaluated|]. vm_compute. discriminate. Qed.

Lemma limitString_head_ellipsis_tail_witness :
  (0 <= 5)%Z /\ (5 < Z.of_nat (length (js "abcdefghij")))%Z /\
  length (limitString (js "abcdefghij") (Some 5%Z)) = Z.to_nat 5 + 1.
Proof.
  assert (H0 : (0 <= 5)%Z) by lia.
  assert (H1 : (5 < Z.of_nat (length (js "abcdefghij")))%Z) by (simpl; lia).
  split; [exact H0|]. split; [exact H1|].
  destruct (limitString_head_ellipsis_tail (js "abcdefghij") 5%Z) as (_ & _ & Hlen & _).
  exact (Hlen (conj H0 H1)).
Defined.

Lemma line_without_separator_is_skipped_witness :
  let o := findIncludingSourceFile (Path := root_path) (js "/a/foo.h") (js "/a") in
  let bad := [js "Binary file /a/foo.o matches"; inc (js "foo.h")] in
  let good := grep_line (js "/a/z.c") (inc (js "foo.h") ++ [LF]) in
  Forall (fun line : jsstring => NUL ∉ line) bad /\
  processGrepResult (Path := root_path) good (js "/a/foo.h") (pattern o)
    = Normal (Some (js "/a/z.c")) /\
  processGrepResult (Path := root_path) (inc (js "foo.h")) (js "/a/foo.h") (pattern o)
    = Normal None /\
  emits o ((stdout <$> bad) ++ stdout good :: [exit 0]) = [next (Some (js "/a/z.c")); complete].
Proof.
  intros o bad good.
  destruct (line_without_separator_is_skipped (Path := root_path) (js "/a/foo.h") (js "/a"))
    as (Hnull & _ & Hlater).
  assert (Hbad : Forall (fun line : jsstring => NUL ∉ line) bad).
  { repeat constructor; intros Hin; vm_compute in Hin;
      repeat (apply elem_of_cons in Hin as [Hin|Hin]; [discriminate|]);
      apply elem_of_nil in Hin; exact Hin. }
  assert (Hgood : processGrepResult (Path := root_path) good (js "/a/foo.h") (pattern o)
                  = Normal (Some (js "/a/z.c"))) by evaluated.
  split; [exact Hbad|]. split; [exact Hgood|]. split.
  - apply Hnull. apply Forall_cons in Hbad as [_ Hbad]. apply Forall_cons in Hbad as [H _].
    exact H.
  - exact (Hlater bad [exit 0%Z] good (js "/a/z.c") Hbad Hgood).
Defined.

Lemma unescaped_dots_accept_any_segment_witness :
  let o := findIncludingSourceFile (Path := root_path) (js "/a/foo.h") (js "/a") in
  posix.relative (js "/") (js "/a") (js "/a/foo.h") <> js "ab/" ++ posix.basename (js "/a/foo.h") /\
  exec (pattern o) (inc (js "ab/foo.h"))
  = Some [Some (inc (js "ab/foo.h")); Some (js "ab/foo.h"); Some (js "ab/")] /\
  processGrepResult (Path := root_path) (grep_line (js "/a/z.c") (inc (js "ab/foo.h")))
    (js "/a/foo.h") (pattern o) = Normal None /\
  processGrepResult (Path := root_path) (grep_line (js "/a/z.c") (inc (js "ab/../foo.h")))
    (js "/a/foo.h") (pattern o) = Normal (Some (js "/a/z.c")).
Proof.
  intros o.
  destruct (unescaped_dots_accept_any_segment (Path := root_path) (js "/a/foo.h") (js "/a"))
    as (_ & Hab & _ & _).
  assert (Hne : posix.relative (js "/") (js "/a") (js "/a/foo.h")
                <> js "ab/" ++ posix.basename (js "/a/foo.h")).
  { vm_compute. discriminate. }
  split; [exact Hne|]. split; [exact (Hab Hne)|]. split; evaluated.
Defined.

Lemma addTestRunner_round_trip_witness :
  let this := {| _controller := Some {| updates := 0 |}; _testRunners := {[1%positive]} |} in
  ((1%positive ∈ _testRunners this) /\ addTestRunner this 1%positive = (this, None)) /\
  ((2%positive ∉ _testRunners this) /\
   exists d : Disposable,
     (addTestRunner this 2%positive).2 = Some d /\
     disposed d = false /\
     _testRunners (addTestRunner this 2%positive).1 = {[2%positive]} ∪ _testRunners this /\
     (forall other : Activation,
         _testRunners (dispose d other).2 = _testRunners other ∖ {[2%positive]}) /\
     _testRunners (dispose d (addTestRunner this 2%positive).1).2 = _testRunners this /\
     (forall other : Activation,
         dispose (dispose d (addTestRunner this 2%positive).1).1 other
         = ((dispose d (addTestRunner this 2%positive).1).1, other))).
Proof.
  intros this.
  assert (Hin : 1%positive ∈ _testRunners this).
  { subst this. simpl. apply elem_of_singleton. reflexivity. }
  assert (Hnot : 2%positive ∉ _testRunners this).
  { subst this. simpl. intros H2. apply elem_of_singleton in H2. discriminate. }
  split.
  - split; [exact Hin|]. exact (proj1 (addTestRunner_round_trip this 1%positive) Hin).
  - split; [exact Hnot|]. exact (proj2 (addTestRunner_round_trip this 2%positive) Hnot).
Defined.

(** * Further properties *)

(** ** The search *)

Section SearchFurther.
Context `{Path : PathModule}.

Lemma extensions_disjoint (ext : jsstring) :
  ext ∈ HEADER_EXTENSIONS -> ext ∈ SOURCE_EXTENSIONS -> False.
Proof.
  unfold HEADER_EXTENSIONS, SOURCE_EXTENSIONS. rewrite !elem_of_list_to_set.
  intros Hh Hs.
  repeat (apply elem_of_cons in Hh as [->|Hh]);
    try (apply elem_of_nil in Hh; exact Hh);
    repeat (apply elem_of_cons in Hs as [Hs|Hs]; [discriminate|]);
    apply elem_of_nil in Hs; exact Hs.
Qed.

Lemma failure_origin (o : Observable) (events : list Event) (e : JsError) :
  fail e ∈ received (run o events) ->
  exists m : ProcessMessage, Message m ∈ events /\ project o m = Throw e.
Proof.
  induction events as [|ev events IH] using rev_ind.
  - simpl. intros Hin. apply elem_of_nil in Hin. destruct Hin.
  - rewrite run_app. simpl. unfold step.
    assert (Hold : fail e ∈ received (run o events) ->
                   exists m, Message m ∈ events ++ [ev] /\ project o m = Throw e).
    { intros Hin. destruct (IH Hin) as (m & Hm & Hp). exists m. split; [|exact Hp].
      apply elem_of_app. left. exact Hm. }
    destruct (closed (run o events)); [exact Hold|].
    destruct ev as [m|]; simpl; [|exact Hold].
    destruct (project o m) as [[|w ws]|err] eqn:Hp; simpl; intros Hin.
    + exact (Hold Hin).
    + apply elem_of_app in Hin as [Hin|Hin]; [exact (Hold Hin)|].
      apply elem_of_cons in Hin as [Hin|Hin]; [discriminate|].
      apply list_elem_of_singleton in Hin. discriminate.
    + apply elem_of_app in Hin as [Hin|Hin]; [exact (Hold Hin)|].
      apply list_elem_of_singleton in Hin. injection Hin as ->.
      exists m. split; [|exact Hp]. apply elem_of_app. right. left.
Qed.

(** X1: no file name is both a header and a source file, and the file that
    a search reports is never a header file. *)
Theorem found_file_is_not_a_header (headerFile projectRoot : jsstring) :
  (forall filename : jsstring, isHeaderFile filename && isSourceFile filename = false) /\
  (forall (events : list Event) (f : jsstring),
      next (Some f) ∈ received (run (findIncludingSourceFile headerFile projectRoot) events) ->
      isHeaderFile f = false).
Proof.
  assert (Hdisj : forall filename : jsstring,
             isHeaderFile filename && isSourceFile filename = false).
  { intros filename. unfold isHeaderFile, isSourceFile.
    destruct (bool_decide_reflect (extname filename ∈ HEADER_EXTENSIONS)) as [Hh|]; [|reflexivity].
    destruct (bool_decide_reflect (extname filename ∈ SOURCE_EXTENSIONS)) as [Hs|]; [|reflexivity].
    destruct (extensions_disjoint _ Hh Hs). }
  split; [exact Hdisj|]. intros events f Hin.
  destruct (received_origin _ events (Some f) Hin) as (msg & vs & _ & Hp).
  destruct msg as [data|data|err|code]; simpl in Hp; try discriminate.
  destruct (processGrepResult data headerFile _) as [[f'|]|e] eqn:Hres; try discriminate.
  injection Hp as -> _.
  apply processGrepResult_Some in Hres as (i & m & _ & _ & Hsrc & _).
  specialize (Hdisj f). rewrite Hsrc, andb_true_r in Hdisj. exact Hdisj.
Qed.

(** X2: what the process writes to its standard error plays no part: the
    subscription ends up the same when those messages are left out. *)
Theorem stderr_messages_are_ignored (headerFile projectRoot : jsstring)
    (messages : list ProcessMessage) :
  run (findIncludingSourceFile headerFile projectRoot) (Message <$> messages)
  = run (findIncludingSourceFile headerFile projectRoot)
        (Message <$> List.filter (fun m => negb (is_stderr m)) messages).
Proof.
  unfold run. generalize (subscribe (findIncludingSourceFile headerFile projectRoot)) as s.
  induction messages as [|m messages IH]; intros s; [reflexivity|].
  destruct m as [data|data|err|code]; simpl; try apply IH.
  rewrite (skipped_step headerFile projectRoot (stderr data)) by reflexivity. apply IH.
Qed.

(** X3: a search fails only when the process has sent an [error] message,
    and then with the text of that message; filtering a line of output never
    throws. *)
Theorem search_fails_only_on_error_message (headerFile projectRoot : jsstring)
    (events : list Event) (e : JsError) :
  fail e ∈ received (run (findIncludingSourceFile headerFile projectRoot) events) ->
  exists err : jsstring, e = Error err /\ Message (error err) ∈ events.
Proof.
  intros Hin. destruct (failure_origin _ events e Hin) as (m & Hm & Hp).
  destruct m as [data|data|err|code]; simpl in Hp; try discriminate.
  - destruct (processGrepResult data headerFile _) as [file|e'] eqn:Hres; [discriminate|].
    exfalso. exact (processGrepResult_never_throws _ _ _ _ _ Hres).
  - injection Hp as <-. exists err. split; [reflexivity | exact Hm].
Qed.

Lemma includePattern_matches_shape (input rel base ws1 ws2 g1 ws3 : jsstring) (q q' : N)
    (c : Captures) :
  input = ws1 ++ js "#include" ++ ws2 ++ q :: g1 ++ q' :: ws3 ->
  Forall (fun x => is_space x = true) ws1 ->
  Forall (fun x => is_space x = true) ws2 -> ws2 <> [] ->
  Forall (fun x => is_space x = true) ws3 ->
  one_of [DQUOTE; LT] q = true -> one_of [DQUOTE; GT] q' = true ->
  g1 = rel \/ (exists segs, Forall is_segment segs /\ g1 = concat segs ++ base) ->
  exists c', matches input (includePattern (Lit rel) (Lit base)) input c [] c'.
Proof.
  intros Hinput H1 H2 Hne H3 Hq Hq' Hg.
  assert (HG : exists c1,
             matches input
               (Alt (Lit rel)
                    (Star (Group 2 (Class is_dot >> Class is_dot >> Lit [SLASH])) >> Lit base))
               (g1 ++ q' :: ws3) c (q' :: ws3) c1).
  { destruct Hg as [->|(segs & Hsegs & ->)].
    - exists c. apply matches_Alt_l, (matches_Lit _ rel).
    - eexists. apply matches_Alt_r. rewrite <- app_assoc.
      eapply matches_Seq; [apply matches_Star_segment_intro; exact Hsegs|].
      apply (matches_Lit _ base). }
  destruct HG as (c1 & HG).
  eexists. unfold includePattern, Plus.
  eapply matches_Seq; [apply matches_Bol; reflexivity|].
  rewrite Hinput at 2.
  eapply matches_Seq; [apply matches_Star_Class_intro; exact H1|].
  eapply matches_Seq; [apply matches_Lit|].
  destruct ws2 as [|x ws2]; [contradiction|]. apply Forall_cons in H2 as [Hx H2].
  eapply matches_Seq.
  { eapply matches_Seq; [apply matches_Class; exact Hx|].
    apply matches_Star_Class_intro. exact H2. }
  eapply matches_Seq; [apply matches_Class; exact Hq|].
  eapply matches_Seq; [apply matches_Group; exact HG|].
  eapply matches_Seq; [apply matches_Class; exact Hq'|].
  eapply matches_Seq; [|apply matches_Eol].
  rewrite <- (app_nil_r ws3) at 1. apply matches_Star_Class_intro. exact H3.
Qed.

(** X4: the lines that the pattern of a search accepts are exactly those
    made of optional white space, [#include], white space, an opening
    [double quote] or [<], a path, a closing [double quote] or [>] (either
    one, whatever the opening was) and optional white space, where the path
    is the header's path relative to the project root or its base name after
    any number of three-unit segments ending in a slash.  [match[0]] is then
    the line and [match[1]] the path. *)
Theorem accepted_lines (headerFile projectRoot text : jsstring) :
  let shape (g1 : jsstring) :=
    exists (ws1 ws2 ws3 : jsstring) (q q' : N),
      text = ws1 ++ js "#include" ++ ws2 ++ q :: g1 ++ q' :: ws3 /\
      Forall (fun x => is_space x = true) ws1 /\
      Forall (fun x => is_space x = true) ws2 /\ ws2 <> [] /\
      Forall (fun x => is_space x = true) ws3 /\
      one_of [DQUOTE; LT] q = true /\ one_of [DQUOTE; GT] q' = true /\
      (g1 = relative projectRoot headerFile \/
       (exists segs, Forall is_segment segs /\ g1 = concat segs ++ basename headerFile)) in
  (is_Some (exec (pattern (findIncludingSourceFile headerFile projectRoot)) text) <->
   exists g1, shape g1) /\
  (forall m, exec (pattern (findIncludingSourceFile headerFile projectRoot)) text = Some m ->
     exists g1, shape g1 /\ group m 0 = Some text /\ group m 1 = Some g1).
Proof.
  intros shape. subst shape. simpl pattern. unfold escapeStringRegExp.
  assert (Hinv : forall m,
             exec (includePattern (Lit (relative projectRoot headerFile))
                     (Lit (basename headerFile))) text = Some m ->
             exists g1,
               (exists (ws1 ws2 ws3 : jsstring) (q q' : N),
                   text = ws1 ++ js "#include" ++ ws2 ++ q :: g1 ++ q' :: ws3 /\
                   Forall (fun x => is_space x = true) ws1 /\
                   Forall (fun x => is_space x = true) ws2 /\ ws2 <> [] /\
                   Forall (fun x => is_space x = true) ws3 /\
                   one_of [DQUOTE; LT] q = true /\ one_of [DQUOTE; GT] q' = true /\
                   (g1 = relative projectRoot headerFile \/
                    (exists segs, Forall is_segment segs /\
                                  g1 = concat segs ++ basename headerFile))) /\
               group m 0 = Some text /\ group m 1 = Some g1).
  { intros m Hm.
    apply exec_includePattern_inv in Hm
      as (ws1 & ws2 & g1 & ws3 & q & q' & g2 & Htext & H1 & H2 & Hne & H3 & Hq & Hq' & -> & Hg).
    exists g1. split; [|split; reflexivity].
    exists ws1, ws2, ws3, q, q'. repeat split; try assumption.
    destruct Hg as [[-> _]|(segs & Hsegs & -> & _)]; [left; reflexivity|].
    right. exists segs. split; [exact Hsegs | reflexivity]. }
  split; [|exact Hinv]. split.
  - intros [m Hm]. destruct (Hinv m Hm) as (g1 & Hshape & _). exists g1. exact Hshape.
  - intros (g1 & ws1 & ws2 & ws3 & q & q' & Htext & H1 & H2 & Hne & H3 & Hq & Hq' & Hg).
    destruct (includePattern_matches_shape text (relative projectRoot headerFile)
                (basename headerFile) ws1 ws2 g1 ws3 q q' [None; None; None]
                Htext H1 H2 Hne H3 Hq Hq' Hg) as (c' & Hmatch).
    exact (exec_complete _ _ _ _ Hmatch).
Qed.

End SearchFurther.

(** ** [limitString], further *)

Lemma limitString_unfold (str : jsstring) (len : Z) :
  limitString str (Some len)
  = if (len <? Z.of_nat (length str))%Z
    then take (Z.to_nat (len / 2)) str ++ [ELLIPSIS]
         ++ drop (length str - Z.to_nat ((len + 1) / 2)) str
    else str.
Proof.
  unfold limitString, ToInteger, trunc_half, half_of, int_minus_half. simpl default.
  rewrite Z.gtb_ltb. destruct (Z.ltb_spec len (Z.of_nat (length str))) as [Hlt|Hge];
    [|reflexivity].
  rewrite substring_prefix, substring_suffix.
  destruct (Z_lt_ge_dec len 0) as [Hneg|Hpos].
  - replace (Z.to_nat (len ÷ 2)) with 0
      by (pose proof (Z.quot_le_upper_bound len 2 0); lia).
    replace (Z.to_nat (len / 2)) with 0
      by (pose proof (Z.div_lt_upper_bound len 2 0); lia).
    rewrite !drop_ge; [reflexivity| |].
    + assert ((len + 1) / 2 <= 0)%Z by (apply Z.div_le_upper_bound; lia). lia.
    + assert (Z.of_nat (length str) <= (2 * Z.of_nat (length str) - len) ÷ 2)%Z
        by (apply Z.quot_le_lower_bound; lia). lia.
  - rewrite !Z.quot_div_nonneg by lia. do 3 f_equal.
    assert (Heq : ((2 * Z.of_nat (length str) - len) / 2
                   = Z.of_nat (length str) - (len + 1) / 2)%Z).
    { replace (2 * Z.of_nat (length str) - len)%Z
        with ((- (len + 1) + 1) + Z.of_nat (length str) * 2)%Z by lia.
      rewrite Z.div_add by lia.
      pose proof (Z.div_mod (len + 1) 2 ltac:(lia)).
      pose proof (Z.div_mod (- (len + 1) + 1) 2 ltac:(lia)).
      pose proof (Z.mod_pos_bound (len + 1) 2 ltac:(lia)).
      pose proof (Z.mod_pos_bound (- (len + 1) + 1) 2 ltac:(lia)).
      lia. }
    rewrite Heq.
    assert ((0 <= (len + 1) / 2)%Z /\ ((len + 1) / 2 <= len)%Z).
    { split; [apply Z.div_pos; lia|].
      destruct (Z.eq_dec len 0%Z) as [->|Hnz]; [reflexivity|].
      apply Z.div_le_upper_bound; lia. }
    lia.
Qed.

Lemma halves_sum (len : Z) :
  (0 <= len)%Z -> Z.to_nat (len / 2) + Z.to_nat ((len + 1) / 2) = Z.to_nat len.
Proof.
  intros Hlen.
  assert (0 <= len / 2)%Z by (apply Z.div_pos; lia).
  assert (0 <= (len + 1) / 2)%Z by (apply Z.div_pos; lia).
  assert (len / 2 + (len + 1) / 2 = len)%Z; [|lia].
  pose proof (Z.div_mod len 2 ltac:(lia)).
  pose proof (Z.div_mod (len + 1) 2 ltac:(lia)).
  pose proof (Z.mod_pos_bound len 2 ltac:(lia)).
  pose proof (Z.mod_pos_bound (len + 1) 2 ltac:(lia)).
  assert (Hcases : (len mod 2 = 0 \/ len mod 2 = 1)%Z) by lia.
  destruct Hcases as [Hpar|Hpar].
  - assert (((len + 1) mod 2 = 1)%Z) by (rewrite <- Zplus_mod_idemp_l, Hpar; reflexivity). lia.
  - assert (((len + 1) mod 2 = 0)%Z) by (rewrite <- Zplus_mod_idemp_l, Hpar; reflexivity). lia.
Qed.

Lemma halves_negative (len : Z) :
  (len < 0)%Z -> Z.to_nat (len / 2) = 0 /\ Z.to_nat ((len + 1) / 2) = 0.
Proof.
  intros Hlen. split.
  - pose proof (Z.div_lt_upper_bound len 2 0). lia.
  - assert ((len + 1) / 2 <= 0)%Z by (apply Z.div_le_upper_bound; lia). lia.
Qed.

Lemma limitString_length_le (str : jsstring) (len : Z) :
  (0 <= len)%Z -> length (limitString str (Some len)) <= Z.to_nat len + 1.
Proof.
  intros Hlen. rewrite limitString_unfold.
  destruct (Z.ltb_spec len (Z.of_nat (length str))) as [Hlt|Hge]; [|lia].
  rewrite !length_app, length_take, length_drop. simpl.
  pose proof (halves_sum len Hlen). lia.
Qed.

Lemma limitString_default_bound (str : jsstring) : length (limitString str None) <= 21.
Proof.
  change (limitString str None) with (limitString str (Some 20%Z)).
  apply (limitString_length_le str 20%Z). lia.
Qed.

(** X5: the result of [limitString] is never longer than [length + 1]
    units (21 with the default), whatever the string: when [length] is not
    negative. *)
Theorem limitString_length_bound (str : jsstring) (len : Z) :
  (0 <= len)%Z ->
  length (limitString str (Some len)) <= Z.to_nat len + 1 /\
  length (limitString str None) <= 21.
Proof.
  intros Hlen. split; [apply limitString_length_le, Hlen | apply limitString_default_bound].
Qed.

(** X6: shortening a string that has been shortened changes nothing, for
    every [length], the default included. *)
Theorem limitString_idempotent (str : jsstring) (len : option Z) :
  limitString (limitString str len) len = limitString str len.
Proof.
  assert (Hsome : forall l : Z,
             limitString (limitString str (Some l)) (Some l) = limitString str (Some l)).
  { intros l. rewrite (limitString_unfold str).
    destruct (Z.ltb_spec l (Z.of_nat (length str))) as [Hlt|Hge].
    - rewrite limitString_unfold.
      set (a := Z.to_nat (l / 2)). set (b := Z.to_nat ((l + 1) / 2)).
      assert (Hab : (0 <= l)%Z -> a + b = Z.to_nat l) by (intros; subst a b; apply halves_sum; lia).
      assert (Hneg : (l < 0)%Z -> a = 0 /\ b = 0) by (intros; subst a b; apply halves_negative; lia).
      assert (Hlen : length (take a str ++ [ELLIPSIS] ++ drop (length str - b) str)
                     = Nat.min a (length str) + 1 + Nat.min b (length str)).
      { rewrite !length_app, length_take, length_drop. simpl. lia. }
      rewrite Hlen.
      destruct (Z.ltb_spec l (Z.of_nat (Nat.min a (length str) + 1 + Nat.min b (length str))))
        as [_|Hge'].
      + f_equal.
        * rewrite take_app_le by (rewrite length_take; lia).
          rewrite take_take. f_equal. lia.
        * f_equal. rewrite drop_app_ge by (rewrite length_take; lia).
          rewrite length_take.
          replace (Nat.min a (length str) + 1 + Nat.min b (length str) - b
                   - Nat.min a (length str)) with 1 by lia.
          reflexivity.
      + exfalso. destruct (Z_lt_ge_dec l 0) as [Hl|Hl]; [lia|].
        specialize (Hab ltac:(lia)). lia.
    - rewrite limitString_unfold.
      destruct (Z.ltb_spec l (Z.of_nat (length str))) as [Hlt|_]; [lia | reflexivity]. }
  destruct len as [l|]; [apply Hsome|].
  change (limitString str None) with (limitString str (Some 20%Z)).
  change (limitString (limitString str (Some 20%Z)) None)
    with (limitString (limitString str (Some 20%Z)) (Some 20%Z)).
  apply Hsome.
Qed.

(** ** [Section.js] *)

(** X7: a collapsable section that keeps its own state (no [collapsed]
    prop) hides or shows its body at each click on the headline, calls
    nobody, and is back in the same state after two clicks; at first the
    body is hidden exactly when [collapsedByDefault] is true. *)
Theorem section_uncontrolled_click_toggles (props : SectionUI.Props) (state : SectionUI.State) :
  SectionUI.collapsed props = None -> SectionUI.collapsable props = Some true ->
  (SectionUI.click props state).2 = [] /\
  SectionUI.displayNone (SectionUI.render props (SectionUI.click props state).1)
  = negb (SectionUI.displayNone (SectionUI.render props state)) /\
  SectionUI.clicks props 2 state = state /\
  SectionUI.displayNone (SectionUI.render props (SectionUI.constructor props))
  = match SectionUI.collapsedByDefault props with Some d => d | None => false end.
Proof.
  intros Hc Hable. destruct state as [b].
  unfold SectionUI.clicks, SectionUI.click, SectionUI.render, SectionUI._toggleCollapsed,
    SectionUI.constructor.
  rewrite Hc, Hable. simpl. rewrite ?Hc, ?Hable. simpl. rewrite ?negb_involutive.
  repeat split.
Qed.

(** X8: a section whose [collapsed] prop is given shows what the prop says
    whatever its own state; a click leaves the state alone and, when the
    section is collapsable and [onChange] is a function, calls it once with
    the opposite of the prop; otherwise nothing is called. *)
Theorem section_controlled_reports (props : SectionUI.Props) (state : SectionUI.State)
    (c : bool) :
  SectionUI.collapsed props = Some c ->
  SectionUI.displayNone (SectionUI.render props state) = c /\
  (forall other : SectionUI.State, SectionUI.render props other = SectionUI.render props state) /\
  (SectionUI.click props state).1 = state /\
  (SectionUI.click props state).2
  = (if match SectionUI.collapsable props with Some a => a | None => false end
        && SectionUI.onChange props
     then [negb c] else []).
Proof.
  intros Hc. unfold SectionUI.click, SectionUI.render, SectionUI._toggleCollapsed.
  rewrite Hc. simpl. repeat split.
  - destruct (match SectionUI.collapsable props with Some a => a | None => false end);
      reflexivity.
  - destruct (match SectionUI.collapsable props with Some a => a | None => false end);
      simpl; [|reflexivity]. destruct (SectionUI.onChange props); reflexivity.
Qed.

(** X9: a section that is not collapsable and keeps its own state never
    hides its body, however often the headline is clicked and whatever
    [collapsedByDefault] says; its headline has no handler, no title and no
    icon class. *)
Theorem section_not_collapsable_always_shown (props : SectionUI.Props) (n : nat) :
  SectionUI.collapsed props = None -> SectionUI.collapsable props <> Some true ->
  let r := SectionUI.render props (SectionUI.clicks props n (SectionUI.constructor props)) in
  SectionUI.displayNone r = false /\
  SectionUI.onClick (SectionUI.header r) = false /\
  SectionUI.title (SectionUI.header r) = None /\
  SectionUI.iconClass (SectionUI.header r) = [].
Proof.
  intros Hc Hable.
  assert (Hfalse : match SectionUI.collapsable props with Some a => a | None => false end
                   = false).
  { destruct (SectionUI.collapsable props) as [[|]|]; [congruence | reflexivity..]. }
  assert (Hclicks : forall s, SectionUI.clicks props n s = s).
  { induction n as [|n IH]; intros s; [reflexivity|]. simpl.
    unfold SectionUI.click at 1. unfold SectionUI.render. simpl. rewrite Hfalse. simpl.
    apply IH. }
  rewrite Hclicks. unfold SectionUI.render, SectionUI.constructor. simpl.
  rewrite Hc, Hfalse. simpl.
  destruct (SectionUI.collapsable props) as [[|]|]; [congruence | auto..].
Qed.

(** X10: on a collapsable section the chevron, the title and the body
    agree: when the body is hidden the headline has the right chevron and
    the title "Click to expand", otherwise the down chevron and "Click to
    collapse"; the handler is attached in both cases. *)
Theorem section_chevron_agrees_with_body (props : SectionUI.Props) (state : SectionUI.State) :
  SectionUI.collapsable props = Some true ->
  let r := SectionUI.render props state in
  SectionUI.onClick (SectionUI.header r) = true /\
  (SectionUI.displayNone r = true ->
   SectionUI.iconClass (SectionUI.header r)
   = js "icon icon-chevron-right nuclide-ui-section-collapsable" /\
   SectionUI.title (SectionUI.header r) = Some (js "Click to expand")) /\
  (SectionUI.displayNone r = false ->
   SectionUI.iconClass (SectionUI.header r)
   = js "icon icon-chevron-down nuclide-ui-section-collapsable" /\
   SectionUI.title (SectionUI.header r) = Some (js "Click to collapse")).
Proof.
  intros Hable. unfold SectionUI.render. rewrite Hable. simpl.
  split; [reflexivity|]. split; intros ->; split; reflexivity.
Qed.

(** ** The context menu items *)

(** X11: no menu entry is shown while no test runner is registered or no
    single node is selected; the entry for files and the entry for
    directories are never shown together, the first only on a file and the
    second only on a directory; the separator is shown exactly when one of
    them is. *)
Theorem menu_items_exclusive (this : Activation) (contextMenu : Menu.FileTreeContextMenu)
    (event : Menu.MouseEvent) :
  let file := Menu.shouldDisplay this true contextMenu event in
  let directory := Menu.shouldDisplay this false contextMenu event in
  file && directory = false /\
  (_testRunners this = ∅ -> file = false /\ directory = false) /\
  (Menu.getSingleSelectedNode contextMenu = None -> file = false /\ directory = false) /\
  (file = true ->
   Menu.getSingleSelectedNode contextMenu = Some {| Menu.isContainer := false |}) /\
  (directory = true ->
   Menu.getSingleSelectedNode contextMenu = Some {| Menu.isContainer := true |}) /\
  (Menu.separatorShouldDisplay this contextMenu event = true <->
   file = true \/ directory = true).
Proof.
  intros file directory. subst file directory.
  unfold Menu.separatorShouldDisplay, Menu.shouldDisplay, Menu.shouldDisplayItem.
  split; [|split; [|split; [|split; [|split]]]].
  - destruct (Nat.eqb _ 0); [reflexivity|].
    destruct (Menu.getSingleSelectedNode contextMenu) as [[[|]]|]; reflexivity || apply andb_false_r.
  - intros ->. rewrite size_empty. split; reflexivity.
  - intros ->. destruct (Nat.eqb _ 0); split; reflexivity.
  - destruct (Nat.eqb _ 0); [discriminate|].
    destruct (Menu.getSingleSelectedNode contextMenu) as [[[|]]|]; simpl;
      [discriminate | reflexivity | discriminate].
  - destruct (Nat.eqb _ 0); [discriminate|].
    destruct (Menu.getSingleSelectedNode contextMenu) as [[[|]]|]; simpl;
      [reflexivity | discriminate | discriminate].
  - rewrite orb_true_iff. reflexivity.
Qed.

(** X12: whenever an item is to be shown for an event, [created] for that
    event returns (its [invariant] holds) and gives the item the command
    run-tests and the label made of "Run tests at" or "Run tests in" and the
    shortened name in quotes, at most 36 units long.  [created] fails its
    [invariant] exactly when the target has no [dataset.name] and no
    descendant of class [name]. *)
Theorem shown_item_gets_label (this : Activation) (isForFile : bool)
    (contextMenu : Menu.FileTreeContextMenu) (event : Menu.MouseEvent)
    (item : Menu.ContextMenuItem) :
  (Menu.shouldDisplay this isForFile contextMenu event = true ->
   exists name lbl : jsstring,
     (Menu.name (Menu.dataset (Menu.target event)) = Some name \/
      (Menu.name (Menu.dataset (Menu.target event)) = None /\
       exists d, Menu.querySelector_name (Menu.target event) = Some d /\
                 Menu.name d = Some name)) /\
     lbl = (if isForFile then js "Run tests at" else js "Run tests in")
           ++ js " '" ++ limitString name None ++ js "'" /\
     Menu.created isForFile event item
     = Menu.Returned {| Menu.command := Some (js "nuclide-test-runner:run-tests");
                        Menu.label := Some lbl |} /\
     length lbl <= 36) /\
  (Menu.created isForFile event item = Menu.AssertionError <->
   Menu.name (Menu.dataset (Menu.target event)) = None /\
   Menu.querySelector_name (Menu.target event) = None).
Proof.
  split.
  - unfold Menu.shouldDisplay, Menu.created.
    destruct (Nat.eqb _ 0); [discriminate|].
    destruct (negb _); [discriminate|].
    assert (Hlen : forall name : jsstring,
               length ((if isForFile then js "Run tests at" else js "Run tests in")
                       ++ js " '" ++ limitString name None ++ js "'") <= 36).
    { intros name. rewrite !length_app. pose proof (limitString_default_bound name).
      destruct isForFile; simpl; lia. }
    destruct (Menu.name (Menu.dataset (Menu.target event))) as [name|] eqn:Hname.
    + rewrite Hname. intros _. eexists name, _. split; [left; reflexivity|].
      split; [reflexivity|]. split; [reflexivity | apply Hlen].
    + destruct (Menu.querySelector_name (Menu.target event)) as [d|]; [|discriminate].
      destruct (Menu.name d) as [name|] eqn:Hd; [|discriminate]. intros _.
      eexists name, _. split; [right; split; [reflexivity|]; exists d; auto|].
      split; [reflexivity|]. split; [reflexivity | apply Hlen].
  - unfold Menu.created.
    destruct (Menu.name (Menu.dataset (Menu.target event))) as [name|] eqn:Hname.
    + rewrite Hname. split; [discriminate | intros [? _]; discriminate].
    + destruct (Menu.querySelector_name (Menu.target event)) as [d|].
      * destruct (Menu.name d); split; (discriminate || intros [_ ?]; discriminate).
      * split; auto.
Qed.

(** ** The registry in use *)

Lemma registry_inv_step (w : Registry) (op : RegistryOp) :
  registry_inv w -> registry_inv (registry_step w op).
Proof.
  unfold registry_inv. intros (Hact & Hreg & Huniq). destruct op as [t|i]; simpl.
  - unfold addTestRunner.
    destruct (bool_decide_reflect (t ∈ _testRunners (registryOf w))) as [Hin|Hnot].
    + rewrite app_nil_r. destruct w; repeat split; assumption || apply Hreg.
    + simpl. repeat split.
      * intros i t' d Hi a. apply lookup_app_Some in Hi as [Hi|[_ Hi]].
        -- exact (Hact i t' d Hi a).
        -- apply list_lookup_singleton_Some in Hi as [_ Hi]. injection Hi as <- <-.
           reflexivity.
      * intros Ht'. apply elem_of_union in Ht' as [Ht'|Ht'].
        -- apply elem_of_singleton in Ht' as ->.
           eexists (length (issued w)), _.
           split; [rewrite lookup_app_r by lia; rewrite Nat.sub_diag; reflexivity|].
           reflexivity.
        -- apply Hreg in Ht' as (i & d & Hi & Hd). exists i, d. split; [|exact Hd].
           apply lookup_app_l_Some. exact Hi.
      * intros (i & d & Hi & Hd). apply lookup_app_Some in Hi as [Hi|[_ Hi]].
        -- apply elem_of_union. right. apply Hreg. eauto.
        -- apply list_lookup_singleton_Some in Hi as [_ Hi]. injection Hi as <- _.
           apply elem_of_union. left. apply elem_of_singleton. reflexivity.
      * intros i j t' d d' Hi Hj Hd Hd'.
        apply lookup_app_Some in Hi as [Hi|[Hli Hi]];
          apply lookup_app_Some in Hj as [Hj|[Hlj Hj]].
        -- exact (Huniq i j t' d d' Hi Hj Hd Hd').
        -- apply list_lookup_singleton_Some in Hj as [_ Hj]. injection Hj as <- _.
           exfalso. apply Hnot, Hreg. eauto.
        -- apply list_lookup_singleton_Some in Hi as [_ Hi]. injection Hi as <- _.
           exfalso. apply Hnot, Hreg. eauto.
        -- apply list_lookup_singleton_Some in Hi as [Hi0 _].
           apply list_lookup_singleton_Some in Hj as [Hj0 _]. lia.
  - destruct (issued w !! i) as [[t d]|] eqn:Hi; [|repeat split; assumption || apply Hreg].
    unfold dispose. destruct (disposed d) eqn:Hd.
    + simpl. rewrite list_insert_id by exact Hi. repeat split; assumption || apply Hreg.
    + simpl.
      assert (Hlook : forall j t' d', j <> i ->
                 <[i := (t, {| disposed := true; disposalAction := disposalAction d |})]>
                   (issued w) !! j = Some (t', d') <->
                 issued w !! j = Some (t', d')).
      { intros j t' d' Hne. rewrite list_lookup_insert_ne by congruence. reflexivity. }
      assert (Hat : forall t' d',
                 <[i := (t, {| disposed := true; disposalAction := disposalAction d |})]>
                   (issued w) !! i = Some (t', d') ->
                 t' = t /\ d' = {| disposed := true; disposalAction := disposalAction d |}).
      { intros t' d' Hl. rewrite list_lookup_insert_eq in Hl
          by (apply lookup_lt_Some in Hi; exact Hi).
        injection Hl as <- <-. auto. }
      repeat split.
      * intros j t' d' Hj a. destruct (decide (j = i)) as [->|Hne].
        -- apply Hat in Hj as [-> ->]. simpl. exact (Hact i t d Hi a).
        -- apply Hlook in Hj; [|exact Hne]. exact (Hact j t' d' Hj a).
      * intros Ht'. rewrite (Hact i t d Hi) in Ht'.
        apply elem_of_difference in Ht' as [Ht' Hne].
        apply Hreg in Ht' as (j & d' & Hj & Hd'). exists j, d'. split; [|exact Hd'].
        apply Hlook; [|exact Hj]. intros ->. rewrite Hi in Hj. injection Hj as -> _.
        apply Hne, elem_of_singleton. reflexivity.
      * intros (j & d' & Hj & Hd'). rewrite (Hact i t d Hi).
        destruct (decide (j = i)) as [->|Hne].
        { apply Hat in Hj as [_ ->]. discriminate. }
        apply Hlook in Hj; [|exact Hne]. apply elem_of_difference. split.
        -- apply Hreg. eauto.
        -- intros Heq. apply elem_of_singleton in Heq as ->.
           apply Hne. exact (Huniq j i t d' d Hj Hi Hd' Hd).
      * intros j k t' d1 d2 Hj Hk Hd1 Hd2.
        destruct (decide (j = i)) as [->|Hnj].
        { apply Hat in Hj as [_ ->]. discriminate. }
        destruct (decide (k = i)) as [->|Hnk].
        { apply Hat in Hk as [_ ->]. discriminate. }
        apply Hlook in Hj; [|exact Hnj]. apply Hlook in Hk; [|exact Hnk].
        exact (Huniq j k t' d1 d2 Hj Hk Hd1 Hd2).
Qed.

Lemma registry_inv_run (ops : list RegistryOp) (w : Registry) :
  registry_inv w -> registry_inv (registry_run ops w).
Proof.
  revert w. induction ops as [|op ops IH]; intros w Hw; [exact Hw|].
  simpl. apply IH, registry_inv_step, Hw.
Qed.

Lemma registry_inv_new (c : option TestRunnerController) :
  registry_inv {| registryOf := {| _controller := c; _testRunners := ∅ |}; issued := [] |}.
Proof.
  unfold registry_inv. simpl. repeat split.
  - intros i t d Hi. rewrite lookup_nil in Hi. discriminate.
  - intros Ht. apply not_elem_of_empty in Ht. destruct Ht.
  - intros (i & d & Hi & _). rewrite lookup_nil in Hi. discriminate.
  - intros i j t d d' Hi. rewrite lookup_nil in Hi. discriminate.
Qed.

(** X13: whatever runners are added and whichever of the returned
    [Disposable]s are disposed, in any order and any number of times, a
    runner is registered exactly when one of the [Disposable]s returned for
    it has not been disposed, and at most one of them has not. *)
Theorem registered_iff_live_disposable (ops : list RegistryOp) (t : TestRunner) :
  let w := registry_run ops new_registry in
  (t ∈ _testRunners (registryOf w) <->
   exists i d, issued w !! i = Some (t, d) /\ disposed d = false) /\
  (forall i j d d',
     issued w !! i = Some (t, d) -> issued w !! j = Some (t, d') ->
     disposed d = false -> disposed d' = false -> i = j).
Proof.
  intros w. destruct (registry_inv_run ops new_registry (registry_inv_new None))
    as (_ & Hreg & Huniq).
  split; [apply Hreg | intros i j d d'; apply Huniq].
Qed.

Lemma registry_controller_step (w : Registry) (op : RegistryOp) :
  registry_inv w ->
  match _controller (registryOf w), _controller (registryOf (registry_step w op)) with
  | None, None => True
  | Some before, Some after =>
      updates after
      = updates before
        + (if bool_decide (_testRunners (registryOf (registry_step w op))
                           = _testRunners (registryOf w))
           then 0 else 1)
  | _, _ => False
  end.
Proof.
  unfold registry_inv. intros (Hact & Hreg & Huniq). destruct op as [t|i]; simpl.
  - unfold addTestRunner.
    destruct (bool_decide_reflect (t ∈ _testRunners (registryOf w))) as [Hin|Hnot]; simpl.
    + rewrite bool_decide_eq_true_2 by reflexivity.
      destruct (_controller (registryOf w)); [lia | exact I].
    + rewrite bool_decide_eq_false_2.
      * destruct (_controller (registryOf w)); simpl; [lia | exact I].
      * intros Heq. apply Hnot. rewrite <- Heq. apply elem_of_union. left.
        apply elem_of_singleton. reflexivity.
  - destruct (issued w !! i) as [[t d]|] eqn:Hi.
    + unfold dispose. destruct (disposed d) eqn:Hd; simpl.
      * rewrite bool_decide_eq_true_2 by reflexivity.
        destruct (_controller (registryOf w)); [lia | exact I].
      * rewrite (Hact i t d Hi). simpl. rewrite bool_decide_eq_false_2.
        -- destruct (_controller (registryOf w)); simpl; [lia | exact I].
        -- intros Heq. assert (Hin : t ∈ _testRunners (registryOf w)) by (apply Hreg; eauto).
           rewrite <- Heq in Hin. apply elem_of_difference in Hin as [_ Hne].
           apply Hne, elem_of_singleton. reflexivity.
    + rewrite bool_decide_eq_true_2 by reflexivity.
      destruct (_controller (registryOf w)); [lia | exact I].
Qed.

(** X14: adding runners and disposing the returned [Disposable]s never
    makes the controller: it exists afterwards exactly when it existed
    before.  When it exists, each call tells it once if the call changed the
    set of runners and not at all otherwise. *)
Theorem registry_never_makes_controller (c : option TestRunnerController)
    (ops : list RegistryOp) (op : RegistryOp) :
  let w := registry_run ops
             {| registryOf := {| _controller := c; _testRunners := ∅ |}; issued := [] |} in
  let w' := registry_step w op in
  (_controller (registryOf w) = None <-> c = None) /\
  match _controller (registryOf w), _controller (registryOf w') with
  | None, None => True
  | Some before, Some after =>
      updates after
      = updates before
        + (if bool_decide (_testRunners (registryOf w') = _testRunners (registryOf w))
           then 0 else 1)
  | _, _ => False
  end.
Proof.
  intros w w'. split; [|apply registry_controller_step, registry_inv_run, registry_inv_new].
  subst w.
  assert (Hnone : forall (ops' : list RegistryOp) (v : Registry),
             registry_inv v ->
             (_controller (registryOf (registry_run ops' v)) = None
              <-> _controller (registryOf v) = None)).
  { induction ops' as [|o ops' IH]; intros v Hv; [reflexivity|]. simpl.
    rewrite IH by (apply registry_inv_step, Hv).
    pose proof (registry_controller_step v o Hv) as Hstep.
    destruct (_controller (registryOf v)), (_controller (registryOf (registry_step v o)));
      try contradiction; split; congruence. }
  apply (Hnone ops _ (registry_inv_new c)).
Qed.

(** ** The package and its disposables *)

Lemma only_below_refl (n : nat) (w : Package.World) : Package.only_below n w w.
Proof.
  unfold Package.only_below. repeat split; try reflexivity; try tauto.
  exists []. rewrite app_nil_r. split; [reflexivity | constructor].
Qed.

Lemma only_below_trans (n : nat) (w1 w2 w3 : Package.World) :
  Package.only_below n w1 w2 -> Package.only_below n w2 w3 -> Package.only_below n w1 w3.
Proof.
  intros (Ho1 & Ha1 & Hh1 & Hv1 & (e1 & Hr1 & He1) & Hd1)
         (Ho2 & Ha2 & Hh2 & Hv2 & (e2 & Hr2 & He2) & Hd2).
  unfold Package.only_below. repeat split; try congruence.
  - exists (e1 ++ e2). split; [rewrite Hr2, Hr1, app_assoc; reflexivity|].
    apply Forall_app. split; assumption.
  - intros Hin. apply Hd1; [assumption|]. apply Hd2; assumption.
  - intros Hin. apply Hd2; [assumption|]. apply Hd1; assumption.
Qed.

Lemma dispose_single_below (n id : nat) (r : Package.Resource) (w : Package.World) :
  id < n -> Package.only_below n w (Package.dispose_single id r w).
Proof.
  intros Hid. unfold Package.dispose_single.
  destruct (bool_decide (id ∈ Package.disposedObjects w)); [apply only_below_refl|].
  unfold Package.only_below. simpl. repeat split; try reflexivity.
  - exists [(id, r)]. split; [reflexivity|]. constructor; [exact Hid | constructor].
  - intros Hin. apply elem_of_union in Hin as [Hin|Hin]; [|exact Hin].
    apply elem_of_singleton in Hin. lia.
  - intros Hin. apply elem_of_union. right. exact Hin.
Qed.

Lemma dispose_items_below (n : nat) (items : list (nat * Package.Resource))
    (w : Package.World) :
  Forall (fun item => item.1 < n) items ->
  Package.only_below n w
    (fold_left (fun w item => Package.dispose_single item.1 item.2 w) items w).
Proof.
  intros Hitems. revert w. induction Hitems as [|item items Hitem _ IH]; intros w; simpl.
  - apply only_below_refl.
  - eapply only_below_trans; [apply dispose_single_below; exact Hitem | apply IH].
Qed.

Lemma dispose_entry_below (n : nat) (e : Package.Entry) (w : Package.World) :
  (forall id, id ∈ Package.entry_ids e -> id < n) ->
  Package.only_below n w (Package.dispose_entry w e).
Proof.
  intros Hids. destruct e as [id r|id items]; simpl.
  - apply dispose_single_below, Hids. left.
  - destruct (bool_decide (id ∈ Package.disposedObjects w)); [apply only_below_refl|].
    eapply only_below_trans; [|apply dispose_items_below].
    + unfold Package.only_below. simpl. repeat split; try reflexivity.
      * exists []. rewrite app_nil_r. split; [reflexivity | constructor].
      * intros Hin. apply elem_of_union in Hin as [Hin|Hin]; [|exact Hin].
        apply elem_of_singleton in Hin. specialize (Hids id ltac:(left)). lia.
      * intros Hin. apply elem_of_union. right. exact Hin.
    + apply Forall_forall. intros item Hitem. apply Hids. simpl. right.
      apply list_elem_of_fmap. exists item. split; [reflexivity | exact Hitem].
Qed.

Lemma dispose_entries_below (n : nat) (es : list Package.Entry) (w : Package.World) :
  (forall e id, e ∈ es -> id ∈ Package.entry_ids e -> id < n) ->
  Package.only_below n w (fold_left Package.dispose_entry es w).
Proof.
  revert w. induction es as [|e es IH]; intros w Hids; simpl.
  - apply only_below_refl.
  - eapply only_below_trans.
    + apply dispose_entry_below. intros id Hid. apply (Hids e id); [left | exact Hid].
    + apply IH. intros e' id He' Hid. apply (Hids e' id); [right; exact He' | exact Hid].
Qed.

(** [Activation.dispose] of an [Activation] that has not been disposed. *)
Lemma Activation_dispose_live (this : nat) (a : Package.ActivationObject)
    (w : Package.World) :
  Package.heap w !! this = Some a ->
  Package.isDisposed (Package._disposables a) = false ->
  Package.Activation_dispose this w
  = fold_left Package.dispose_entry (Package.disposables (Package._disposables a))
      (Package.set_heap
         (<[this := {| Package.fields := Package.fields a;
                       Package._disposables :=
                         {| Package.isDisposed := true; Package.disposables := [] |} |}]>
            (Package.heap w)) w).
Proof.
  intros Ha Hlive. unfold Package.Activation_dispose, Package.update_disposables.
  rewrite Ha, Hlive. reflexivity.
Qed.

Lemma update_disposables_at (this : nat) (a : Package.ActivationObject)
    (f : Package.CompositeDisposable -> Package.CompositeDisposable) (w : Package.World) :
  Package.heap w !! this = Some a ->
  Package.update_disposables this f w
  = Package.set_heap
      (<[this := {| Package.fields := Package.fields a;
                    Package._disposables := f (Package._disposables a) |}]>
         (Package.heap w)) w.
Proof. intros Ha. unfold Package.update_disposables. rewrite Ha. reflexivity. Qed.

Lemma released_once_intro (id : nat) (r : Package.Resource) (w : Package.World)
    (before after : list (nat * Package.Resource)) :
  Package.released w = before ++ (id, r) :: after ->
  Forall (fun item => item.1 < id) before -> Forall (fun item => item.1 < id) after ->
  Package.released_once id r w.
Proof.
  intros Hrel Hb Ha. exists before, after. split; [exact Hrel|].
  intros Hin. apply list_elem_of_fmap in Hin as (item & -> & Hin).
  assert (Hall : Forall (fun item => item.1 < item.1) [item]).
  { pose proof (proj2 (Forall_app _ before after) (conj Hb Ha)) as Hboth.
    rewrite Forall_forall in Hboth. specialize (Hboth item Hin). lia. }
  apply Forall_cons in Hall as [Hlt _]. lia.
Qed.

(** X15: the button's [Disposable] that [consumeToolBar] returns is also
    kept by the package, so the tool bar's items are removed exactly once:
    when the caller disposes it, when the package is deactivated, or both,
    in either order. *)
Theorem tool_bar_items_removed_once (w : Package.World) (this : nat) :
  Package.wf w -> Package.activation w = Some this ->
  exists (h : Package.Handle) (w1 : Package.World),
    Package.consumeToolBar w = Menu.Returned (h, w1) /\
    (Package.objects w, Package.ToolBarItems) ∈ Package.acquired w1 /\
    (Package.objects w ∉ (Package.released w1).*1) /\
    Package.released_once (Package.objects w) Package.ToolBarItems
      (Package.dispose_handle h w1) /\
    Package.released_once (Package.objects w) Package.ToolBarItems (Package.deactivate w1) /\
    Package.released_once (Package.objects w) Package.ToolBarItems
      (Package.deactivate (Package.dispose_handle h w1)) /\
    Package.released_once (Package.objects w) Package.ToolBarItems
      (Package.dispose_handle h (Package.deactivate w1)).
Proof.
  intros (Hdisp & Hrel & Hids & Hcur) Hact.
  destruct (Hcur this Hact) as (a & Ha & Hlive).
  set (n := Package.objects w).
  unfold Package.consumeToolBar. rewrite Hact. unfold Package.Activation_addToolBar.
  eexists _, _. split; [reflexivity|].
  assert (Hlt : this < length (Package.heap w)) by (apply lookup_lt_Some in Ha; exact Ha).
  rewrite (update_disposables_at this a) by exact Ha.
  unfold Package.composite_add. rewrite Hlive.
  set (a1 := {| Package.fields := Package.fields a;
                Package._disposables :=
                  {| Package.isDisposed := false;
                     Package.disposables :=
                       Package.disposables (Package._disposables a)
                       ++ [Package.Single n Package.ToolBarItems] |} |}).
  set (w1 := Package.set_heap (<[this := a1]> (Package.heap w))
               (Package.acquire [Package.ToolBarItems] w)).
  assert (Hfresh : n ∉ Package.disposedObjects w).
  { intros Hin. apply Hdisp in Hin. subst n. lia. }
  assert (Hrelw : Forall (fun item => item.1 < n) (Package.released w)).
  { apply Forall_forall. intros item Hitem. apply Hrel, Hitem. }
  assert (Hold : forall e id,
             e ∈ Package.disposables (Package._disposables a) ->
             id ∈ Package.entry_ids e -> id < n).
  { intros e id He Hid. exact (Hids this a e id Ha He Hid). }
  assert (Ha1 : Package.heap w1 !! this = Some a1).
  { subst w1. simpl. apply list_lookup_insert_eq. exact Hlt. }
  (* the caller disposes *)
  assert (HH : Package.released (Package.dispose_handle (Package.Releases n Package.ToolBarItems) w1)
               = Package.released w ++ [(n, Package.ToolBarItems)] /\
               n ∈ Package.disposedObjects
                     (Package.dispose_handle (Package.Releases n Package.ToolBarItems) w1)).
  { simpl. unfold Package.dispose_single. simpl.
    rewrite bool_decide_eq_false_2 by exact Hfresh. simpl.
    split; [reflexivity|]. apply elem_of_union. left. apply elem_of_singleton. reflexivity. }
  (* the package is deactivated *)
  assert (HD : forall v : Package.World,
             Package.heap v = Package.heap w1 -> Package.activation v = Some this ->
             exists extra,
               Forall (fun item => item.1 < n) extra /\
               Package.released (Package.deactivate v)
               = Package.released v ++ extra
                 ++ (if bool_decide (n ∈ Package.disposedObjects v) then []
                     else [(n, Package.ToolBarItems)]) /\
               n ∈ Package.disposedObjects (Package.deactivate v)).
  { intros v Hheap Hv. unfold Package.deactivate. rewrite Hv.
    rewrite (Activation_dispose_live this a1 v); [| rewrite Hheap; exact Ha1 | reflexivity].
    simpl Package.disposables. rewrite fold_left_app.
    match goal with
    | |- context [fold_left Package.dispose_entry (Package.disposables _) ?v0] =>
        pose proof (dispose_entries_below n _ v0 Hold)
          as (_ & _ & _ & _ & (extra & Hextra & Hlow) & Hsame);
        set (vA := fold_left Package.dispose_entry
                     (Package.disposables (Package._disposables a)) v0) in *
    end.
    exists extra. split; [exact Hlow|]. simpl. unfold Package.dispose_single.
    simpl in Hextra, Hsame.
    destruct (bool_decide_reflect (n ∈ Package.disposedObjects v)) as [Hin|Hnot].
    - rewrite bool_decide_eq_true_2 by (apply Hsame; [lia | exact Hin]).
      simpl. rewrite app_nil_r. split; [exact Hextra|]. apply Hsame; [lia | exact Hin].
    - rewrite bool_decide_eq_false_2 by (intros Hin; apply Hnot, Hsame; [lia | exact Hin]).
      simpl. rewrite Hextra, app_assoc. split; [reflexivity|].
      apply elem_of_union. left. apply elem_of_singleton. reflexivity. }
  split; [|split; [|split; [|split; [|split]]]].
  - simpl. apply elem_of_app. right. simpl. rewrite Nat.add_0_r. left.
  - simpl. intros Hin. apply list_elem_of_fmap in Hin as (item & Hn & Hin).
    apply Hrel in Hin. subst n. lia.
  - destruct HH as [HH _].
    exact (released_once_intro _ _ _ (Package.released w) [] HH Hrelw (Forall_nil_2 _)).
  - destruct (HD w1 eq_refl Hact) as (extra & Hlow & Hr & _).
    rewrite bool_decide_eq_false_2 in Hr by exact Hfresh.
    assert (E : Package.released (Package.deactivate w1)
                = (Package.released w ++ extra) ++ (n, Package.ToolBarItems) :: []).
    { rewrite Hr. simpl. rewrite app_assoc. reflexivity. }
    refine (released_once_intro _ _ _ _ _ E _ (Forall_nil_2 _)).
    apply Forall_app. split; assumption.
  - destruct HH as [HH Hin].
    destruct (HD (Package.dispose_handle (Package.Releases n Package.ToolBarItems) w1))
      as (extra & Hlow & Hr & _).
    + simpl. unfold Package.dispose_single. destruct (bool_decide _); reflexivity.
    + simpl. unfold Package.dispose_single. destruct (bool_decide _); exact Hact.
    + rewrite bool_decide_eq_true_2 in Hr by exact Hin. rewrite app_nil_r, HH in Hr.
      assert (E : Package.released
                    (Package.deactivate
                       (Package.dispose_handle (Package.Releases n Package.ToolBarItems) w1))
                  = Package.released w ++ (n, Package.ToolBarItems) :: extra).
      { rewrite Hr, <- app_assoc. reflexivity. }
      exact (released_once_intro _ _ _ _ _ E Hrelw Hlow).
  - destruct (HD w1 eq_refl Hact) as (extra & Hlow & Hr & Hin).
    rewrite bool_decide_eq_false_2 in Hr by exact Hfresh.
    assert (E : Package.released
                  (Package.dispose_handle (Package.Releases n Package.ToolBarItems)
                     (Package.deactivate w1))
                = (Package.released w ++ extra) ++ (n, Package.ToolBarItems) :: []).
    { simpl. unfold Package.dispose_single. rewrite bool_decide_eq_true_2 by exact Hin.
      rewrite Hr. simpl. rewrite app_assoc. reflexivity. }
    refine (released_once_intro _ _ _ _ _ E _ (Forall_nil_2 _)).
    apply Forall_app. split; assumption.
Qed.

Lemma released_once_intro_ne (id : nat) (r : Package.Resource) (w : Package.World)
    (before after : list (nat * Package.Resource)) :
  Package.released w = before ++ (id, r) :: after ->
  Forall (fun item => item.1 <> id) before -> Forall (fun item => item.1 <> id) after ->
  Package.released_once id r w.
Proof.
  intros Hrel Hb Ha. exists before, after. split; [exact Hrel|].
  intros Hin. apply list_elem_of_fmap in Hin as (item & Hid & Hin).
  pose proof (proj2 (Forall_app _ before after) (conj Hb Ha)) as Hboth.
  rewrite Forall_forall in Hboth. exact (Hboth item Hin (eq_sym Hid)).
Qed.

(** Disposing objects none of which has been disposed runs all their
    actions, in order. *)
Lemma dispose_items_fresh (items : list (nat * Package.Resource)) (w : Package.World) :
  NoDup items.*1 ->
  (forall item, item ∈ items -> item.1 ∉ Package.disposedObjects w) ->
  let w' := fold_left (fun w item => Package.dispose_single item.1 item.2 w) items w in
  Package.released w' = Package.released w ++ items /\
  Package.heap w' = Package.heap w /\ Package.activation w' = Package.activation w /\
  Package.objects w' = Package.objects w /\ Package.acquired w' = Package.acquired w.
Proof.
  revert w. induction items as [|[id r] items IH]; intros w Hnd Hfresh; simpl.
  - rewrite app_nil_r. auto.
  - apply NoDup_cons in Hnd as [Hid Hnd].
    unfold Package.dispose_single at 2 4 6 8 10. simpl.
    rewrite bool_decide_eq_false_2 by (apply (Hfresh (id, r)); left).
    match goal with
    | |- context [fold_left _ items ?v] => destruct (IH v Hnd) as (Hr & Hh & Ha & Ho & Hq)
    end.
    + intros item Hitem. simpl. intros Hin. apply elem_of_union in Hin as [Hin|Hin].
      * apply elem_of_singleton in Hin. apply Hid. rewrite <- Hin.
        apply list_elem_of_fmap. exists item. split; [reflexivity | exact Hitem].
      * apply (Hfresh item); [right; exact Hitem | exact Hin].
    + simpl in Hr, Hh, Ha, Ho, Hq. rewrite Hr, <- app_assoc. auto.
Qed.

Lemma filter_keeps_all {A} (p : A -> bool) (l : list A) :
  (forall x, x ∈ l -> p x = true) -> List.filter p l = l.
Proof.
  induction l as [|x l IH]; intros Hall; simpl; [reflexivity|].
  rewrite (Hall x) by left. f_equal. apply IH. intros y Hy. apply Hall. right. exact Hy.
Qed.

(** X16: the three items that [addItemsToFileTreeContextMenu] adds to the
    context menu are removed, once each, when the package is deactivated.
    The [Disposable] that the function returns removes none of them: it only
    takes them out of the package's hands, so that after it has been
    disposed a deactivation does not remove them either. *)
Theorem menu_items_removed_only_by_deactivation (w : Package.World) (this : nat) :
  Package.wf w -> Package.activation w = Some this ->
  let n := Package.objects w in
  let items :=
    [(n, Package.TestSectionItem 200); (n + 1, Package.TestSectionItem 201);
     (n + 2, Package.TestSectionItem 202)] in
  exists (h : Package.Handle) (w1 : Package.World),
    Package.addItemsToFileTreeContextMenu w = Menu.Returned (h, w1) /\
    Package.acquired w1 = Package.acquired w ++ items /\
    Package.released w1 = Package.released w /\
    Forall (fun item => Package.released_once item.1 item.2 (Package.deactivate w1)) items /\
    Package.released (Package.dispose_handle h w1) = Package.released w /\
    Forall (fun item =>
              item.1 ∉ (Package.released (Package.deactivate (Package.dispose_handle h w1))).*1)
           items.
Proof.
  intros (Hdisp & Hrel & Hids & Hcur) Hact n items.
  destruct (Hcur this Hact) as (a & Ha & Hlive).
  unfold Package.addItemsToFileTreeContextMenu. rewrite Hact.
  unfold Package.Activation_addItemsToFileTreeContextMenu.
  eexists _, _. split; [reflexivity|].
  assert (Hlt : this < length (Package.heap w)) by (apply lookup_lt_Some in Ha; exact Ha).
  rewrite (update_disposables_at this a) by exact Ha.
  unfold Package.composite_add. rewrite Hlive.
  change (imap (fun k r => (Package.objects w + k, r))
            [Package.TestSectionItem Package.FILE_TREE_CONTEXT_MENU_PRIORITY;
             Package.TestSectionItem (Package.FILE_TREE_CONTEXT_MENU_PRIORITY + 1);
             Package.TestSectionItem (Package.FILE_TREE_CONTEXT_MENU_PRIORITY + 2)])
    with [(n + 0, Package.TestSectionItem 200); (n + 1, Package.TestSectionItem 201);
          (n + 2, Package.TestSectionItem 202)].
  rewrite Nat.add_0_r. fold items.
  set (a1 := {| Package.fields := Package.fields a;
                Package._disposables :=
                  {| Package.isDisposed := false;
                     Package.disposables :=
                       Package.disposables (Package._disposables a)
                       ++ [Package.Group (n + 3) items] |} |}).
  match goal with
  | |- context [Package.set_heap ?h ?v] => set (w1 := Package.set_heap h v)
  end.
  assert (Hrelw : Forall (fun item => item.1 < n) (Package.released w)).
  { apply Forall_forall. intros item Hitem. apply Hrel, Hitem. }
  assert (Hold : forall e id,
             e ∈ Package.disposables (Package._disposables a) ->
             id ∈ Package.entry_ids e -> id < n).
  { intros e id He Hid. exact (Hids this a e id Ha He Hid). }
  assert (Ha1 : Package.heap w1 !! this = Some a1).
  { subst w1. simpl. apply list_lookup_insert_eq. exact Hlt. }
  assert (Hnd : NoDup items.*1).
  { subst items. simpl. repeat constructor; intros Hin;
      repeat (apply elem_of_cons in Hin as [Hin|Hin]; [lia|]);
      apply elem_of_nil in Hin; exact Hin. }
  assert (Hitems : forall item, item ∈ items -> n <= item.1 < n + 3).
  { intros item Hitem. subst items.
    repeat (apply elem_of_cons in Hitem as [->|Hitem]; [simpl; lia|]).
    apply elem_of_nil in Hitem. destruct Hitem. }
  split; [|split; [|split; [|split]]].
  - subst w1. simpl. f_equal. subst items. simpl. rewrite Nat.add_0_r. reflexivity.
  - reflexivity.
  - (* deactivation with the items still attached *)
    unfold Package.deactivate.
    replace (Package.activation w1) with (Some this) by (symmetry; exact Hact).
    rewrite (Activation_dispose_live this a1 w1 Ha1 eq_refl).
    simpl Package.disposables. rewrite fold_left_app.
    match goal with
    | |- context [fold_left Package.dispose_entry (Package.disposables _) ?v0] =>
        pose proof (dispose_entries_below n _ v0 Hold)
          as (_ & _ & _ & _ & (extra & Hextra & Hlow) & Hsame);
        set (vA := fold_left Package.dispose_entry
                     (Package.disposables (Package._disposables a)) v0) in *
    end.
    simpl in Hextra, Hsame.
    assert (Hfr : forall id, n <= id -> id ∉ Package.disposedObjects vA).
    { intros id Hid Hin. apply Hsame in Hin; [|exact Hid]. apply Hdisp in Hin. lia. }
    change (fold_left Package.dispose_entry [Package.Group (n + 3) items] vA)
      with (Package.dispose_entry vA (Package.Group (n + 3) items)).
    unfold Package.dispose_entry.
    rewrite bool_decide_eq_false_2 by (apply Hfr; lia).
    match goal with
    | |- context [fold_left ?f items ?v] =>
        destruct (dispose_items_fresh items v Hnd) as (Hr & _);
        [| set (vF := fold_left f items v) in * ]
    end.
    { intros item Hitem. simpl. intros Hin. apply elem_of_union in Hin as [Hin|Hin].
      - apply elem_of_singleton in Hin. specialize (Hitems item Hitem). lia.
      - apply (Hfr item.1); [apply (Hitems item Hitem) | exact Hin]. }
    assert (HrF : Package.released (Package.set_activation None vF)
                  = (Package.released w ++ extra) ++ items).
    { change (Package.released (Package.set_activation None vF))
        with (Package.released vF).
      rewrite Hr. simpl. rewrite Hextra. reflexivity. }
    clearbody vF.
    assert (Hbefore : Forall (fun item => item.1 < n) (Package.released w ++ extra)).
    { apply Forall_app. split; assumption. }
    subst items. repeat constructor; simpl.
    + refine (released_once_intro_ne _ _ _ (Package.released w ++ extra) _ HrF _ _).
      * eapply Forall_impl; [exact Hbefore|]. simpl. intros; lia.
      * repeat constructor; simpl; lia.
    + refine (released_once_intro_ne _ _ _
                ((Package.released w ++ extra) ++ [(n, Package.TestSectionItem 200)]) _ _ _ _).
      * rewrite HrF, <- !app_assoc. reflexivity.
      * apply Forall_app. split; [|repeat constructor; simpl; lia].
        eapply Forall_impl; [exact Hbefore|]. simpl. intros; lia.
      * repeat constructor; simpl; lia.
    + refine (released_once_intro_ne _ _ _
                ((Package.released w ++ extra)
                 ++ [(n, Package.TestSectionItem 200); (n + 1, Package.TestSectionItem 201)])
                [] _ _ _).
      * rewrite HrF, <- !app_assoc. reflexivity.
      * apply Forall_app. split; [|repeat constructor; simpl; lia].
        eapply Forall_impl; [exact Hbefore|]. simpl. intros; lia.
      * constructor.
  - (* the returned Disposable *)
    simpl Package.dispose_handle.
    rewrite bool_decide_eq_false_2
      by (subst w1; simpl; intros Hin; apply Hdisp in Hin; subst n; lia).
    match goal with
    | |- context [Package.update_disposables this ?f ?v] =>
        rewrite (update_disposables_at this a1 f v) by exact Ha1
    end.
    reflexivity.
  - simpl Package.dispose_handle.
    rewrite bool_decide_eq_false_2
      by (subst w1; simpl; intros Hin; apply Hdisp in Hin; subst n; lia).
    match goal with
    | |- context [Package.update_disposables this ?f ?v] =>
        rewrite (update_disposables_at this a1 f v) by exact Ha1
    end.
    unfold Package.composite_remove. simpl Package.isDisposed. cbv iota.
    simpl Package.disposables. rewrite List.filter_app. simpl List.filter.
    rewrite Nat.eqb_refl. simpl negb. cbv iota. rewrite app_nil_r.
    rewrite filter_keeps_all.
    2:{ intros e He. apply negb_true_iff, Nat.eqb_neq.
        assert (Package.entry_id e < n); [|lia].
        apply (Hold e); [exact He|]. destruct e; left. }
    unfold Package.deactivate. simpl Package.activation. rewrite Hact.
    match goal with
    | |- context [Package.Activation_dispose this ?v] =>
        rewrite (Activation_dispose_live this
                   {| Package.fields := Package.fields a;
                      Package._disposables :=
                        {| Package.isDisposed := false;
                           Package.disposables :=
                             Package.disposables (Package._disposables a) |} |} v)
    end.
    2:{ simpl. rewrite list_insert_insert_eq. apply list_lookup_insert_eq. exact Hlt. }
    2:{ reflexivity. }
    simpl Package.disposables.
    match goal with
    | |- context [fold_left Package.dispose_entry (Package.disposables _) ?v0] =>
        pose proof (dispose_entries_below n _ v0 Hold)
          as (_ & _ & _ & _ & (extra & Hextra & Hlow) & _)
    end.
    simpl in Hextra. apply Forall_forall. intros item Hitem. simpl. rewrite Hextra.
    intros Hin. apply list_elem_of_fmap in Hin as (item' & Hid & Hin).
    assert (item'.1 < n).
    { apply elem_of_app in Hin as [Hin|Hin].
      - rewrite Forall_forall in Hrelw. apply Hrelw, Hin.
      - rewrite Forall_forall in Hlow. apply Hlow, Hin. }
    specialize (Hitems item Hitem). lia.
Qed.

(** ** Every state the package can be in *)

Lemma entry_ok_mono (w w' : Package.World) (e : Package.Entry) :
  Package.objects w <= Package.objects w' ->
  (forall item, item ∈ Package.acquired w -> item ∈ Package.acquired w') ->
  Package.entry_ok w e -> Package.entry_ok w' e.
Proof.
  intros Ho Ha. destruct e as [id r|id items]; simpl.
  - intros [Hid Hin]. split; [lia | apply Ha, Hin].
  - intros [Hid Hitems]. split; [lia|]. intros item Hitem.
    destruct (Hitems item Hitem) as [H1 H2]. split; [lia | apply Ha, H2].
Qed.

Lemma handle_ok_mono (w w' : Package.World) (h : Package.Handle) :
  Package.objects w <= Package.objects w' ->
  (forall item, item ∈ Package.acquired w -> item ∈ Package.acquired w') ->
  Package.handle_ok w h -> Package.handle_ok w' h.
Proof.
  intros Ho Ha. destruct h as [id r|id this group]; simpl.
  - intros [Hid Hin]. split; [lia | apply Ha, Hin].
  - lia.
Qed.

Lemma entry_ok_ids (w : Package.World) (e : Package.Entry) (id : nat) :
  Package.entry_ok w e -> id ∈ Package.entry_ids e -> id < Package.objects w.
Proof.
  destruct e as [id' r|id' items]; simpl.
  - intros [Hid _] Hin. apply list_elem_of_singleton in Hin. subst. exact Hid.
  - intros [Hid Hitems] Hin. apply elem_of_cons in Hin as [->|Hin]; [exact Hid|].
    apply list_elem_of_fmap in Hin as (item & -> & Hitem). apply (Hitems item Hitem).
Qed.

Lemma inv0_frame (w w' : Package.World) :
  Package.inv0 w ->
  Package.objects w' = Package.objects w -> Package.acquired w' = Package.acquired w ->
  Package.disposedObjects w' = Package.disposedObjects w ->
  Package.released w' = Package.released w ->
  (forall this a e,
      Package.heap w' !! this = Some a ->
      e ∈ Package.disposables (Package._disposables a) -> Package.entry_ok w e) ->
  Package.inv0 w'.
Proof.
  intros (Hd & Hr & Hnd & Hh) Ho Ha Hdis Hrel Hheap.
  unfold Package.inv0. rewrite Ho, Ha, Hdis, Hrel.
  split; [exact Hd|]. split; [exact Hr|]. split; [exact Hnd|].
  intros this a e Hl He. eapply entry_ok_mono; [| |exact (Hheap this a e Hl He)].
  - rewrite Ho. lia.
  - rewrite Ha. auto.
Qed.

Lemma inv0_mark (id : nat) (w : Package.World) :
  Package.inv0 w -> id < Package.objects w ->
  Package.inv0
    {| Package.objects := Package.objects w;
       Package.disposedObjects := {[id]} ∪ Package.disposedObjects w;
       Package.acquired := Package.acquired w;
       Package.released := Package.released w;
       Package.heap := Package.heap w;
       Package.activation := Package.activation w |}.
Proof.
  intros (Hd & Hr & Hnd & Hh) Hid.
  split; [|split; [|split]]; simpl.
  - intros id' H. apply elem_of_union in H as [H|H].
    + apply elem_of_singleton in H. subst. exact Hid.
    + apply Hd, H.
  - intros item H. destruct (Hr item H) as [H1 H2]. split; [|exact H2].
    apply elem_of_union_r. exact H1.
  - exact Hnd.
  - exact Hh.
Qed.

Lemma inv0_dispose_single (id : nat) (r : Package.Resource) (w : Package.World) :
  Package.inv0 w -> id < Package.objects w -> (id, r) ∈ Package.acquired w ->
  Package.inv0 (Package.dispose_single id r w).
Proof.
  intros Hinv Hid Hacq. unfold Package.dispose_single.
  destruct (decide (id ∈ Package.disposedObjects w)) as [Hin|Hin].
  - rewrite bool_decide_eq_true_2 by exact Hin. exact Hinv.
  - rewrite bool_decide_eq_false_2 by exact Hin.
    destruct Hinv as (Hd & Hr & Hnd & Hh).
    split; [|split; [|split]]; simpl.
    + intros id' H. apply elem_of_union in H as [H|H].
      * apply elem_of_singleton in H. subst. exact Hid.
      * apply Hd, H.
    + intros item H. apply elem_of_app in H as [H|H].
      * destruct (Hr item H) as [H1 H2]. split; [|exact H2]. apply elem_of_union_r. exact H1.
      * apply list_elem_of_singleton in H. subst item. split; [|exact Hacq].
        apply elem_of_union_l, elem_of_singleton. reflexivity.
    + rewrite fmap_app. apply NoDup_app. split; [exact Hnd|]. split.
      * intros x Hx Hx'. simpl in Hx'. apply list_elem_of_singleton in Hx'. subst x.
        apply list_elem_of_fmap in Hx as (item & E & Hitem).
        apply Hin. rewrite E. apply (Hr item Hitem).
      * simpl. apply NoDup_singleton.
    + exact Hh.
Qed.

Lemma dispose_single_frame (id : nat) (r : Package.Resource) (w : Package.World) :
  Package.objects (Package.dispose_single id r w) = Package.objects w /\
  Package.acquired (Package.dispose_single id r w) = Package.acquired w /\
  Package.heap (Package.dispose_single id r w) = Package.heap w /\
  Package.activation (Package.dispose_single id r w) = Package.activation w.
Proof. unfold Package.dispose_single. destruct (bool_decide _); auto. Qed.

Lemma dispose_items_frame (items : list (nat * Package.Resource)) (w : Package.World) :
  let w' := fold_left (fun w item => Package.dispose_single item.1 item.2 w) items w in
  Package.objects w' = Package.objects w /\ Package.acquired w' = Package.acquired w /\
  Package.heap w' = Package.heap w /\ Package.activation w' = Package.activation w.
Proof.
  revert w. induction items as [|item items IH]; intros w; simpl; [auto|].
  destruct (IH (Package.dispose_single item.1 item.2 w)) as (H1 & H2 & H3 & H4).
  destruct (dispose_single_frame item.1 item.2 w) as (G1 & G2 & G3 & G4).
  simpl in H1, H2, H3, H4. rewrite H1, H2, H3, H4. auto.
Qed.

Lemma dispose_entry_frame (e : Package.Entry) (w : Package.World) :
  Package.objects (Package.dispose_entry w e) = Package.objects w /\
  Package.acquired (Package.dispose_entry w e) = Package.acquired w /\
  Package.heap (Package.dispose_entry w e) = Package.heap w /\
  Package.activation (Package.dispose_entry w e) = Package.activation w.
Proof.
  destruct e as [id r|id items]; simpl; [apply dispose_single_frame|].
  destruct (bool_decide _); [auto|].
  match goal with
  | |- context [fold_left _ items ?v] => exact (dispose_items_frame items v)
  end.
Qed.

Lemma dispose_entries_frame (es : list Package.Entry) (w : Package.World) :
  Package.objects (fold_left Package.dispose_entry es w) = Package.objects w /\
  Package.acquired (fold_left Package.dispose_entry es w) = Package.acquired w /\
  Package.heap (fold_left Package.dispose_entry es w) = Package.heap w /\
  Package.activation (fold_left Package.dispose_entry es w) = Package.activation w.
Proof.
  revert w. induction es as [|e es IH]; intros w; simpl; [auto|].
  destruct (IH (Package.dispose_entry w e)) as (H1 & H2 & H3 & H4).
  destruct (dispose_entry_frame e w) as (G1 & G2 & G3 & G4).
  rewrite H1, H2, H3, H4. auto.
Qed.

Lemma inv0_dispose_items (items : list (nat * Package.Resource)) (w : Package.World) :
  Package.inv0 w ->
  (forall item, item ∈ items -> item.1 < Package.objects w /\ item ∈ Package.acquired w) ->
  Package.inv0 (fold_left (fun w item => Package.dispose_single item.1 item.2 w) items w).
Proof.
  revert w. induction items as [|[id r] items IH]; intros w Hinv Hitems; simpl; [exact Hinv|].
  destruct (dispose_single_frame id r w) as (G1 & G2 & _).
  apply IH.
  - apply inv0_dispose_single; [exact Hinv | |]; apply (Hitems (id, r)); left.
  - intros item Hitem. rewrite G1, G2. apply Hitems. right. exact Hitem.
Qed.

Lemma inv0_dispose_entry (e : Package.Entry) (w : Package.World) :
  Package.inv0 w -> Package.entry_ok w e -> Package.inv0 (Package.dispose_entry w e).
Proof.
  intros Hinv Hok. destruct e as [id r|id items]; simpl in *.
  - destruct Hok. apply inv0_dispose_single; assumption.
  - destruct Hok as [Hid Hitems]. destruct (bool_decide _); [exact Hinv|].
    apply inv0_dispose_items; [apply inv0_mark; assumption | exact Hitems].
Qed.

Lemma inv0_dispose_entries (es : list Package.Entry) (w : Package.World) :
  Package.inv0 w -> (forall e, e ∈ es -> Package.entry_ok w e) ->
  Package.inv0 (fold_left Package.dispose_entry es w).
Proof.
  revert w. induction es as [|e es IH]; intros w Hinv Hes; simpl; [exact Hinv|].
  destruct (dispose_entry_frame e w) as (G1 & G2 & _).
  apply IH.
  - apply inv0_dispose_entry; [exact Hinv | apply Hes; left].
  - intros e' He'. eapply entry_ok_mono; [| |apply Hes; right; exact He'].
    + rewrite G1. lia.
    + rewrite G2. auto.
Qed.

Lemma inv0_acquire (rs : list Package.Resource) (w : Package.World) :
  Package.inv0 w -> Package.inv0 (Package.acquire rs w).
Proof.
  intros (Hd & Hr & Hnd & Hh). split; [|split; [|split]]; simpl.
  - intros id H. apply Hd in H. lia.
  - intros item H. destruct (Hr item H). split; [assumption|]. apply elem_of_app. left. assumption.
  - exact Hnd.
  - intros this a e Hl He. eapply entry_ok_mono; [| |exact (Hh this a e Hl He)]; simpl.
    + lia.
    + intros item Hitem. apply elem_of_app. left. exact Hitem.
Qed.

Lemma inv0_create (k : nat) (w : Package.World) :
  Package.inv0 w -> Package.inv0 (Package.create k w).
Proof.
  intros (Hd & Hr & Hnd & Hh). split; [|split; [|split]]; simpl.
  - intros id H. apply Hd in H. lia.
  - exact Hr.
  - exact Hnd.
  - intros this a e Hl He. eapply entry_ok_mono; [| |exact (Hh this a e Hl He)]; simpl; [lia|auto].
Qed.

Lemma inv0_set_heap (h : list Package.ActivationObject) (w : Package.World) :
  Package.inv0 w ->
  (forall this a e,
      h !! this = Some a -> e ∈ Package.disposables (Package._disposables a) ->
      Package.entry_ok w e) ->
  Package.inv0 (Package.set_heap h w).
Proof.
  intros Hinv Hh. apply (inv0_frame w); try reflexivity; assumption.
Qed.

Lemma filter_subset {A} (p : A -> bool) (l : list A) (x : A) :
  x ∈ List.filter p l -> x ∈ l.
Proof.
  induction l as [|y l IH]; simpl; [auto|]. destruct (p y).
  - intros H. apply elem_of_cons in H as [->|H]; [left | right; auto].
  - intros H. right. auto.
Qed.

(** A change of the members of one [_disposables] that adds nothing but
    what is in order, and does not dispose it. *)
Lemma inv_update_disposables (this : nat)
    (f : Package.CompositeDisposable -> Package.CompositeDisposable) (w : Package.World) :
  Package.inv w ->
  (forall c e, e ∈ Package.disposables (f c) ->
               e ∈ Package.disposables c \/ Package.entry_ok w e) ->
  (forall c, Package.isDisposed (f c) = Package.isDisposed c) ->
  Package.inv (Package.update_disposables this f w).
Proof.
  intros [Hinv Hlive] Hf Hdis. unfold Package.update_disposables.
  destruct (Package.heap w !! this) as [a|] eqn:Ha; [|split; assumption].
  assert (Hlt : this < length (Package.heap w)) by (apply lookup_lt_Some in Ha; exact Ha).
  split.
  - apply inv0_set_heap; [exact Hinv|]. intros this' a' e Hl He.
    destruct (decide (this = this')) as [<-|Hne].
    + rewrite list_lookup_insert_eq in Hl by exact Hlt. injection Hl as <-. simpl in He.
      destruct (Hf _ e He) as [Hold|Hok]; [|exact Hok].
      destruct Hinv as (_ & _ & _ & Hh). exact (Hh this a e Ha Hold).
    + rewrite list_lookup_insert_ne in Hl by exact Hne.
      destruct Hinv as (_ & _ & _ & Hh). exact (Hh this' a' e Hl He).
  - simpl. intros this' Hact. destruct (Hlive this' Hact) as (a' & Ha' & Hl').
    destruct (decide (this = this')) as [<-|Hne].
    + rewrite Ha in Ha'. injection Ha' as <-. eexists. split.
      * apply list_lookup_insert_eq. exact Hlt.
      * simpl. rewrite Hdis. exact Hl'.
    + exists a'. split; [|exact Hl']. rewrite list_lookup_insert_ne by exact Hne. exact Ha'.
Qed.

Lemma inv_update_fields (this : nat) (f : Activation) (w : Package.World) :
  Package.inv w -> Package.inv (Package.update_fields this f w).
Proof.
  intros [Hinv Hlive]. unfold Package.update_fields.
  destruct (Package.heap w !! this) as [a|] eqn:Ha; [|split; assumption].
  assert (Hlt : this < length (Package.heap w)) by (apply lookup_lt_Some in Ha; exact Ha).
  split.
  - apply inv0_set_heap; [exact Hinv|]. intros this' a' e Hl He.
    destruct Hinv as (_ & _ & _ & Hh).
    destruct (decide (this = this')) as [<-|Hne].
    + rewrite list_lookup_insert_eq in Hl by exact Hlt. injection Hl as <-. simpl in He.
      exact (Hh this a e Ha He).
    + rewrite list_lookup_insert_ne in Hl by exact Hne. exact (Hh this' a' e Hl He).
  - simpl. intros this' Hact. destruct (Hlive this' Hact) as (a' & Ha' & Hl').
    destruct (decide (this = this')) as [<-|Hne].
    + rewrite Ha in Ha'. injection Ha' as <-. eexists. split.
      * apply list_lookup_insert_eq. exact Hlt.
      * exact Hl'.
    + exists a'. split; [|exact Hl']. rewrite list_lookup_insert_ne by exact Hne. exact Ha'.
Qed.

Lemma inv_acquire (rs : list Package.Resource) (w : Package.World) :
  Package.inv w -> Package.inv (Package.acquire rs w).
Proof. intros [Hinv Hlive]. split; [apply inv0_acquire, Hinv | exact Hlive]. Qed.

Lemma inv_create (k : nat) (w : Package.World) :
  Package.inv w -> Package.inv (Package.create k w).
Proof. intros [Hinv Hlive]. split; [apply inv0_create, Hinv | exact Hlive]. Qed.

Lemma composite_add_members (es : list Package.Entry) (w : Package.World) :
  (forall e, e ∈ es -> Package.entry_ok w e) ->
  (forall c e, e ∈ Package.disposables (Package.composite_add es c) ->
               e ∈ Package.disposables c \/ Package.entry_ok w e) /\
  (forall c, Package.isDisposed (Package.composite_add es c) = Package.isDisposed c).
Proof.
  intros Hes. unfold Package.composite_add. split.
  - intros c e. destruct (Package.isDisposed c); simpl; [auto|].
    intros H. apply elem_of_app in H as [H|H]; [left | right; apply Hes]; exact H.
  - intros c. destruct (Package.isDisposed c) eqn:E; [exact E | reflexivity].
Qed.

Lemma composite_remove_members (id : nat) (w : Package.World) :
  (forall c e, e ∈ Package.disposables (Package.composite_remove id c) ->
               e ∈ Package.disposables c \/ Package.entry_ok w e) /\
  (forall c, Package.isDisposed (Package.composite_remove id c) = Package.isDisposed c).
Proof.
  unfold Package.composite_remove. split.
  - intros c e. destruct (Package.isDisposed c); simpl; [auto|].
    intros H. left. exact (filter_subset _ _ _ H).
  - intros c. destruct (Package.isDisposed c) eqn:E; [exact E | reflexivity].
Qed.

Lemma inv_wf (w : Package.World) : Package.inv w -> Package.wf w.
Proof.
  intros [(Hd & Hr & Hnd & Hh) Hlive]. split; [exact Hd|]. split; [|split; [|exact Hlive]].
  - intros item Hitem. apply Hd. apply (Hr item Hitem).
  - intros this a e id Ha He Hid. exact (entry_ok_ids w e id (Hh this a e Ha He) Hid).
Qed.

Lemma inv_start : Package.inv Package.start.
Proof.
  split; [split; [|split; [|split]]|]; simpl.
  - intros id H. apply elem_of_empty in H. destruct H.
  - intros item H. apply elem_of_nil in H. destruct H.
  - apply NoDup_nil_2.
  - intros this a e H. destruct this; discriminate H.
  - intros this H. discriminate H.
Qed.

Lemma grows_same (w w' : Package.World) :
  Package.objects w' = Package.objects w -> Package.acquired w' = Package.acquired w ->
  Package.grows w w'.
Proof. intros Ho Ha. split; [lia|]. rewrite Ha. auto. Qed.

Lemma grows_trans (w1 w2 w3 : Package.World) :
  Package.grows w1 w2 -> Package.grows w2 w3 -> Package.grows w1 w3.
Proof.
  intros (H1 & H2 & H3) (G1 & G2 & G3). split; [lia|]. split; [auto|].
  intros item Hitem. destruct (G3 item Hitem) as [H|H]; [|right; lia].
  destruct (H3 item H) as [H'|H']; [left; exact H' | right; exact H'].
Qed.

Lemma acquired_ids (n : nat) (rs : list Package.Resource) (item : nat * Package.Resource) :
  item ∈ imap (fun k r => (n + k, r)) rs -> n <= item.1 < n + length rs.
Proof.
  intros H. apply elem_of_lookup_imap in H as (k & r & -> & Hl).
  apply lookup_lt_Some in Hl. simpl. lia.
Qed.

Lemma grows_acquire (rs : list Package.Resource) (w : Package.World) :
  Package.grows w (Package.acquire rs w).
Proof.
  split; simpl; [lia|]. split.
  - intros item H. apply elem_of_app. left. exact H.
  - intros item H. apply elem_of_app in H as [H|H]; [left; exact H | right].
    apply acquired_ids in H. lia.
Qed.

Lemma update_disposables_frame (this : nat)
    (f : Package.CompositeDisposable -> Package.CompositeDisposable) (w : Package.World) :
  Package.objects (Package.update_disposables this f w) = Package.objects w /\
  Package.acquired (Package.update_disposables this f w) = Package.acquired w /\
  Package.released (Package.update_disposables this f w) = Package.released w /\
  Package.activation (Package.update_disposables this f w) = Package.activation w.
Proof. unfold Package.update_disposables. destruct (_ !! this); auto. Qed.

Lemma update_fields_frame (this : nat) (f : Activation) (w : Package.World) :
  Package.objects (Package.update_fields this f w) = Package.objects w /\
  Package.acquired (Package.update_fields this f w) = Package.acquired w /\
  Package.released (Package.update_fields this f w) = Package.released w /\
  Package.activation (Package.update_fields this f w) = Package.activation w.
Proof. unfold Package.update_fields. destruct (_ !! this); auto. Qed.

Lemma singles_ok (rs : list Package.Resource) (w : Package.World) (e : Package.Entry) :
  e ∈ imap (fun k r => Package.Single (Package.objects w + k) r) rs ->
  Package.entry_ok (Package.acquire rs w) e.
Proof.
  intros H. apply elem_of_lookup_imap in H as (i & r & -> & Hl). simpl. split.
  - apply lookup_lt_Some in Hl. lia.
  - apply elem_of_app. right.
    exact (elem_of_lookup_imap_2 (fun k r => (Package.objects w + k, r)) rs r i Hl).
Qed.

Lemma inv_activate (w : Package.World) :
  Package.inv w -> Package.inv (Package.activate w) /\ Package.grows w (Package.activate w).
Proof.
  intros Hinv. unfold Package.activate.
  destruct (Package.activation w) as [this|] eqn:Hact.
  { split; [exact Hinv | apply grows_same; reflexivity]. }
  destruct Hinv as [Hinv _]. simpl. split; [split|].
  - apply (inv0_frame (Package.acquire Package.constructor_commands w));
      [apply inv0_acquire, Hinv | reflexivity..|].
    simpl. intros this a e Hl He. apply lookup_app_Some in Hl as [Hl|[Hlen Hl]].
    + destruct Hinv as (_ & _ & _ & Hh).
      eapply entry_ok_mono; [| |exact (Hh this a e Hl He)]; apply grows_acquire.
    + destruct (this - length (Package.heap w)) as [|k]; [|destruct k; discriminate Hl].
      injection Hl as <-. simpl in He. apply (singles_ok Package.constructor_commands). exact He.
  - simpl. intros this H. injection H as <-. eexists. split.
    + apply list_lookup_middle. reflexivity.
    + reflexivity.
  - exact (grows_acquire Package.constructor_commands w).
Qed.

Lemma inv_deactivate (w : Package.World) :
  Package.inv w ->
  Package.inv (Package.deactivate w) /\ Package.grows w (Package.deactivate w).
Proof.
  intros Hinv. unfold Package.deactivate.
  destruct (Package.activation w) as [this|] eqn:Hact.
  2:{ split; [exact Hinv | apply grows_same; reflexivity]. }
  destruct Hinv as [Hinv Hlive]. destruct (Hlive this Hact) as (a & Ha & Hl).
  rewrite (Activation_dispose_live this a w Ha Hl).
  assert (Hlt : this < length (Package.heap w)) by (apply lookup_lt_Some in Ha; exact Ha).
  match goal with
  | |- context [fold_left Package.dispose_entry ?es ?v] =>
      destruct (dispose_entries_frame es v) as (F1 & F2 & _);
      assert (Hv : Package.inv0 (fold_left Package.dispose_entry es v))
  end.
  { destruct Hinv as (Hd & Hr & Hnd & Hh). apply inv0_dispose_entries.
    - apply inv0_set_heap; [exact (conj Hd (conj Hr (conj Hnd Hh)))|].
      intros this' a' e Hl' He. destruct (decide (this = this')) as [<-|Hne].
      + rewrite list_lookup_insert_eq in Hl' by exact Hlt. injection Hl' as <-.
        simpl in He. apply elem_of_nil in He. destruct He.
      + rewrite list_lookup_insert_ne in Hl' by exact Hne. exact (Hh this' a' e Hl' He).
    - intros e He. exact (Hh this a e Ha He). }
  split; [split|].
  - exact Hv.
  - simpl. intros this' H. discriminate H.
  - apply grows_same; simpl; assumption.
Qed.

Lemma inv_consumeTestRunner (testRunner : TestRunner) (w : Package.World) :
  Package.inv w ->
  Package.inv (Package.consumeTestRunner testRunner w).1 /\
  Package.grows w (Package.consumeTestRunner testRunner w).1.
Proof.
  intros Hinv. unfold Package.consumeTestRunner.
  destruct (Package.activation w) as [this|];
    [|split; [exact Hinv | apply grows_same; reflexivity]].
  destruct (Package.heap w !! this) as [a|];
    [|split; [exact Hinv | apply grows_same; reflexivity]].
  destruct (addTestRunner (Package.fields a) testRunner) as [f d]. simpl.
  split; [apply inv_update_fields, Hinv|].
  destruct (update_fields_frame this f w) as (F1 & F2 & _). apply grows_same; assumption.
Qed.

Lemma inv_dispose_runner (h : nat * Disposable) (w : Package.World) :
  Package.inv w ->
  Package.inv (Package.dispose_runner h w).2 /\ Package.grows w (Package.dispose_runner h w).2.
Proof.
  intros Hinv. unfold Package.dispose_runner.
  destruct (Package.heap w !! h.1) as [a|];
    [|split; [exact Hinv | apply grows_same; reflexivity]].
  destruct (dispose h.2 (Package.fields a)) as [d f]. simpl.
  split; [apply inv_update_fields, Hinv|].
  destruct (update_fields_frame h.1 f w) as (F1 & F2 & _). apply grows_same; assumption.
Qed.

Lemma inv_deserializeTestRunnerPanelState (w : Package.World) :
  Package.inv w ->
  match Package.deserializeTestRunnerPanelState w with
  | Menu.Returned (_, w') => Package.inv w' /\ Package.grows w w'
  | Menu.AssertionError => True
  end.
Proof.
  intros Hinv. unfold Package.deserializeTestRunnerPanelState.
  destruct (inv_activate w Hinv) as [Hinv' Hg].
  destruct (Package.activation (Package.activate w)) as [this|]; [|exact I].
  destruct (Package.heap (Package.activate w) !! this) as [a|]; [|exact I].
  destruct (getController (Package.fields a)) as [f c].
  split; [apply inv_update_fields, Hinv'|].
  eapply grows_trans; [exact Hg|].
  destruct (update_fields_frame this f (Package.activate w)) as (F1 & F2 & _).
  apply grows_same; assumption.
Qed.

Lemma inv_consumeToolBar (w : Package.World) :
  Package.inv w ->
  match Package.consumeToolBar w with
  | Menu.Returned (h, w') => Package.inv w' /\ Package.grows w w' /\ Package.handle_ok w' h
  | Menu.AssertionError => True
  end.
Proof.
  intros Hinv. unfold Package.consumeToolBar.
  destruct (Package.activation w) as [this|]; [|exact I].
  unfold Package.Activation_addToolBar.
  match goal with
  | |- context [Package.update_disposables this ?f ?v] =>
      destruct (update_disposables_frame this f v) as (F1 & F2 & _)
  end.
  assert (Hin : (Package.objects w, Package.ToolBarItems)
                ∈ Package.acquired (Package.acquire [Package.ToolBarItems] w)).
  { simpl. apply elem_of_app. right. rewrite Nat.add_0_r. left. }
  split; [|split].
  - destruct (composite_add_members
                [Package.Single (Package.objects w) Package.ToolBarItems]
                (Package.acquire [Package.ToolBarItems] w)) as [M1 M2].
    { intros e He. apply list_elem_of_singleton in He. subst e. simpl. split; [lia|exact Hin]. }
    apply inv_update_disposables; [apply inv_acquire, Hinv | exact M1 | exact M2].
  - eapply grows_trans; [apply (grows_acquire [Package.ToolBarItems])|].
    apply grows_same; assumption.
  - simpl. rewrite F1, F2. split; [simpl; lia | exact Hin].
Qed.

Lemma inv_addItemsToFileTreeContextMenu (w : Package.World) :
  Package.inv w ->
  match Package.addItemsToFileTreeContextMenu w with
  | Menu.Returned (h, w') => Package.inv w' /\ Package.grows w w' /\ Package.handle_ok w' h
  | Menu.AssertionError => True
  end.
Proof.
  intros Hinv. unfold Package.addItemsToFileTreeContextMenu.
  destruct (Package.activation w) as [this|]; [|exact I].
  unfold Package.Activation_addItemsToFileTreeContextMenu.
  match goal with
  | |- context [Package.update_disposables this ?f (Package.create 2 (Package.acquire ?rs w))] =>
      destruct (update_disposables_frame this f (Package.create 2 (Package.acquire rs w)))
        as (F1 & F2 & _);
      set (items := rs) in *
  end.
  split; [|split].
  - match goal with
    | |- context [Package.composite_add ?es] =>
        destruct (composite_add_members es (Package.create 2 (Package.acquire items w)))
          as [M1 M2]
    end.
    { intros e He. apply list_elem_of_singleton in He. subst e. simpl. split; [lia|].
      intros item Hitem. split.
      - repeat (apply elem_of_cons in Hitem as [->|Hitem]; [simpl; lia|]).
        apply elem_of_nil in Hitem. destruct Hitem.
      - apply elem_of_app. right. exact Hitem. }
    apply inv_update_disposables; [apply inv_create, inv_acquire, Hinv | exact M1 | exact M2].
  - eapply grows_trans; [apply (grows_acquire items)|].
    eapply grows_trans; [|apply grows_same; apply update_disposables_frame].
    split; simpl; [lia | auto].
  - simpl.
    match goal with
    | |- _ < Package.objects (Package.update_disposables ?t ?f ?v) =>
        rewrite (proj1 (update_disposables_frame t f v))
    end.
    simpl. lia.
Qed.

Lemma inv_consumeWorkspaceViewsService (w : Package.World) :
  Package.inv w ->
  match Package.consumeWorkspaceViewsService w with
  | Menu.Returned w' => Package.inv w' /\ Package.grows w w'
  | Menu.AssertionError => True
  end.
Proof.
  intros Hinv. unfold Package.consumeWorkspaceViewsService.
  destruct (Package.activation w) as [this|]; [|exact I].
  unfold Package.Activation_consumeWorkspaceViewsService.
  match goal with
  | |- context [Package.update_disposables this ?f (Package.acquire ?rs w)] =>
      destruct (update_disposables_frame this f (Package.acquire rs w)) as (F1 & F2 & _);
      set (views := rs) in *
  end.
  split.
  - match goal with
    | |- context [Package.composite_add ?es] =>
        destruct (composite_add_members es (Package.acquire views w)) as [M1 M2]
    end.
    { intros e He. apply (singles_ok views). exact He. }
    apply inv_update_disposables; [apply inv_acquire, Hinv | exact M1 | exact M2].
  - eapply grows_trans; [apply (grows_acquire views)|]. apply grows_same; assumption.
Qed.

Lemma inv_dispose_handle (h : Package.Handle) (w : Package.World) :
  Package.inv w -> Package.handle_ok w h ->
  Package.inv (Package.dispose_handle h w) /\ Package.grows w (Package.dispose_handle h w).
Proof.
  intros [Hinv Hlive] Hok. destruct h as [id r|id this group]; simpl in *.
  - destruct Hok as [Hid Hacq].
    destruct (dispose_single_frame id r w) as (F1 & F2 & F3 & F4).
    split; [split|].
    + apply inv0_dispose_single; assumption.
    + rewrite F3, F4. exact Hlive.
    + apply grows_same; assumption.
  - destruct (bool_decide _).
    { split; [split; assumption | apply grows_same; reflexivity]. }
    match goal with
    | |- context [Package.update_disposables this ?f ?v] =>
        destruct (update_disposables_frame this f v) as (F1 & F2 & _);
        destruct (composite_remove_members group v) as [M1 M2]
    end.
    split.
    + apply inv_update_disposables; [|exact M1|exact M2].
      split; [apply inv0_mark; assumption | exact Hlive].
    + apply grows_same; assumption.
Qed.

Lemma session_inv_call (s : Package.Session) (c : Package.Call) :
  Package.session_inv s -> Package.session_inv (Package.call s c).
Proof.
  intros [Hinv Hhs].
  assert (Hkeep : forall w', Package.grows (Package.world s) w' ->
                    forall h, h ∈ Package.handles s -> Package.handle_ok w' h).
  { intros w' (G1 & G2 & _) h Hh. eapply handle_ok_mono; [exact G1 | exact G2 | apply Hhs, Hh]. }
  destruct c as [| |testRunner| | | | |i|i]; simpl.
  - destruct (inv_activate _ Hinv) as [H G]. split; [exact H | exact (Hkeep _ G)].
  - destruct (inv_deactivate _ Hinv) as [H G]. split; [exact H | exact (Hkeep _ G)].
  - destruct (inv_consumeTestRunner testRunner _ Hinv) as [H G].
    destruct (Package.consumeTestRunner testRunner (Package.world s)) as [w' h'].
    split; [exact H | exact (Hkeep _ G)].
  - pose proof (inv_addItemsToFileTreeContextMenu _ Hinv) as H.
    destruct (Package.addItemsToFileTreeContextMenu (Package.world s)) as [[h w']|];
      [|split; assumption].
    destruct H as (H & G & Hh). split; [exact H|]. simpl. intros h' Hin.
    apply elem_of_app in Hin as [Hin|Hin]; [exact (Hkeep _ G h' Hin)|].
    apply list_elem_of_singleton in Hin. subst h'. exact Hh.
  - pose proof (inv_consumeToolBar _ Hinv) as H.
    destruct (Package.consumeToolBar (Package.world s)) as [[h w']|]; [|split; assumption].
    destruct H as (H & G & Hh). split; [exact H|]. simpl. intros h' Hin.
    apply elem_of_app in Hin as [Hin|Hin]; [exact (Hkeep _ G h' Hin)|].
    apply list_elem_of_singleton in Hin. subst h'. exact Hh.
  - pose proof (inv_deserializeTestRunnerPanelState _ Hinv) as H.
    destruct (Package.deserializeTestRunnerPanelState (Package.world s)) as [[c w']|];
      [|split; assumption].
    destruct H as (H & G). split; [exact H | exact (Hkeep _ G)].
  - pose proof (inv_consumeWorkspaceViewsService _ Hinv) as H.
    destruct (Package.consumeWorkspaceViewsService (Package.world s)) as [w'|];
      [|split; assumption].
    destruct H as (H & G). split; [exact H | exact (Hkeep _ G)].
  - destruct (Package.handles s !! i) as [h|] eqn:Hi; [|split; assumption].
    destruct (inv_dispose_handle h _ Hinv) as [H G].
    { apply Hhs. exact (list_elem_of_lookup_2 _ _ _ Hi). }
    split; [exact H | exact (Hkeep _ G)].
  - destruct (Package.runnerHandles s !! i) as [h|]; [|split; assumption].
    destruct (inv_dispose_runner h _ Hinv) as [H G].
    destruct (Package.dispose_runner h (Package.world s)) as [h' w'].
    split; [exact H | exact (Hkeep _ G)].
Qed.

Lemma session_inv_calls (cs : list Package.Call) (s : Package.Session) :
  Package.session_inv s -> Package.session_inv (Package.calls cs s).
Proof.
  revert s. induction cs as [|c cs IH]; intros s Hs; simpl; [exact Hs|].
  apply IH, session_inv_call, Hs.
Qed.

(** X17: whatever functions of the module are called, in whatever order,
    and whichever of the returned [Disposable]s are disposed, once or
    repeatedly: no disposal action has run twice, only what was taken from
    Atom has been given back, and the [Activation] in the module's variable
    is one whose [dispose] has not run. *)
Theorem package_gives_back_once (cs : list Package.Call) :
  let w := Package.world (Package.calls cs Package.start_session) in
  NoDup (Package.released w).*1 /\
  (forall item, item ∈ Package.released w -> item ∈ Package.acquired w) /\
  (forall this, Package.activation w = Some this ->
     exists a, Package.heap w !! this = Some a /\
               Package.isDisposed (Package._disposables a) = false) /\
  Package.wf w.
Proof.
  intros w.
  assert (Hs : Package.session_inv (Package.calls cs Package.start_session)).
  { apply session_inv_calls. split; [exact inv_start|]. simpl. intros h Hh.
    apply elem_of_nil in Hh. destruct Hh. }
  destruct Hs as [Hinv _]. fold w in Hinv.
  pose proof (inv_wf w Hinv) as Hwf.
  destruct Hinv as [(Hd & Hr & Hnd & Hh) Hlive].
  split; [exact Hnd|]. split; [|split; [exact Hlive | exact Hwf]].
  intros item Hitem. apply (Hr item Hitem).
Qed.

Lemma dispose_singles (n : nat) (rs : list Package.Resource) (w : Package.World) :
  fold_left Package.dispose_entry (imap (fun k r => Package.Single (n + k) r) rs) w
  = fold_left (fun w item => Package.dispose_single item.1 item.2 w)
      (imap (fun k r => (n + k, r)) rs) w.
Proof.
  revert n w. induction rs as [|r rs IH]; intros n w; simpl; [reflexivity|].
  rewrite (imap_ext (_ ∘ S) (fun k r => Package.Single (S n + k) r))
    by (intros; simpl; f_equal; lia).
  rewrite (imap_ext (_ ∘ S) (fun k r => (S n + k, r)))
    by (intros; simpl; f_equal; lia).
  apply (IH (S n)).
Qed.

(** X18: the constructor of [Activation] registers four command listeners
    with Atom, [activate] does so only if the package is not active, and
    [deactivate] unregisters exactly those four, in the order of their
    registration, and empties the module's variable. *)
Theorem deactivate_unregisters_the_commands (w : Package.World) :
  Package.wf w -> Package.activation w = None ->
  let listeners :=
    imap (fun k r => (Package.objects w + k, r)) Package.constructor_commands in
  Package.acquired (Package.activate w) = Package.acquired w ++ listeners /\
  Package.released (Package.activate w) = Package.released w /\
  Package.activate (Package.activate w) = Package.activate w /\
  Package.released (Package.deactivate (Package.activate w))
  = Package.released w ++ listeners /\
  Package.activation (Package.deactivate (Package.activate w)) = None.
Proof.
  intros (Hdisp & Hrel & Hids & Hcur) Hact listeners.
  assert (E : Package.activate w
              = Package.set_activation (Some (length (Package.heap w)))
                  (Package.Activation_new w).2).
  { unfold Package.activate. rewrite Hact. reflexivity. }
  rewrite !E.
  split; [reflexivity|]. split; [reflexivity|]. split; [reflexivity|].
  unfold Package.deactivate. simpl Package.activation. cbv beta iota.
  rewrite (Activation_dispose_live (length (Package.heap w))
             {| Package.fields := {| _controller := None; _testRunners := ∅ |};
                Package._disposables :=
                  {| Package.isDisposed := false;
                     Package.disposables :=
                       imap (fun k r => Package.Single (Package.objects w + k) r)
                         Package.constructor_commands |} |}).
  2:{ simpl. apply list_lookup_middle. reflexivity. }
  2:{ reflexivity. }
  split; [|reflexivity].
  cbn [Package.disposables Package._disposables].
  match goal with
  | |- context [fold_left Package.dispose_entry _ ?v] => set (v0 := v)
  end.
  rewrite (dispose_singles (Package.objects w) Package.constructor_commands v0).
  fold listeners.
  destruct (dispose_items_fresh listeners v0) as (Hr & _).
  - subst listeners. simpl. repeat constructor; intros Hin;
      repeat (apply elem_of_cons in Hin as [Hin|Hin]; [lia|]);
      apply elem_of_nil in Hin; exact Hin.
  - intros item Hitem Hin. apply Hdisp in Hin.
    apply elem_of_lookup_imap in Hitem as (k & r & -> & _). simpl in Hin. lia.
  - exact Hr.
Qed.

Lemma update_fields_at (this : nat) (a : Package.ActivationObject) (f : Activation)
    (w : Package.World) :
  Package.heap w !! this = Some a ->
  Package.update_fields this f w
  = Package.set_heap
      (<[this := {| Package.fields := f; Package._disposables := Package._disposables a |}]>
         (Package.heap w)) w.
Proof. intros Ha. unfold Package.update_fields. rewrite Ha. reflexivity. Qed.

Lemma update_fields_same (this : nat) (a : Package.ActivationObject) (w : Package.World) :
  Package.heap w !! this = Some a -> Package.update_fields this (Package.fields a) w = w.
Proof.
  intros Ha. rewrite (update_fields_at this a) by exact Ha.
  destruct a as [f c]. simpl. rewrite list_insert_id by exact Ha.
  destruct w. reflexivity.
Qed.

Lemma getController_controller (this : Activation) :
  _controller (getController this).1 = Some (getController this).2 /\
  _testRunners (getController this).1 = _testRunners this /\
  getController (getController this).1 = getController this.
Proof. unfold getController. destruct (_controller this) eqn:E; simpl; rewrite ?E; auto. Qed.

Lemma deserialize_active (this : nat) (a : Package.ActivationObject) (w : Package.World) :
  Package.activation w = Some this -> Package.heap w !! this = Some a ->
  Package.deserializeTestRunnerPanelState w
  = Menu.Returned ((getController (Package.fields a)).2,
                   Package.update_fields this (getController (Package.fields a)).1 w).
Proof.
  intros Hact Ha. unfold Package.deserializeTestRunnerPanelState, Package.activate.
  rewrite Hact. simpl. rewrite Hact, Ha.
  destruct (getController (Package.fields a)). reflexivity.
Qed.

(** X19: [deserializeTestRunnerPanelState] returns a controller whatever the
    state of the package: it activates the package if need be, makes the
    controller if the [Activation] has none, and gives back nothing to
    Atom.  Called again it returns the same controller and changes
    nothing; if the package was active and had a controller, the first call
    changes nothing either. *)
Theorem deserialize_returns_the_one_controller (w : Package.World) :
  Package.wf w ->
  exists (c : TestRunnerController) (w1 : Package.World) (this : nat)
         (a1 : Package.ActivationObject),
    Package.deserializeTestRunnerPanelState w = Menu.Returned (c, w1) /\
    Package.activation w1 = Some this /\
    Package.heap w1 !! this = Some a1 /\
    _controller (Package.fields a1) = Some c /\
    Package.isDisposed (Package._disposables a1) = false /\
    Package.released w1 = Package.released w /\
    Package.deserializeTestRunnerPanelState w1 = Menu.Returned (c, w1) /\
    (forall this0 a0 c0,
        Package.activation w = Some this0 -> Package.heap w !! this0 = Some a0 ->
        _controller (Package.fields a0) = Some c0 -> c = c0 /\ w1 = w).
Proof.
  intros Hwf.
  assert (Hactive : forall v this a,
             Package.activation v = Some this -> Package.heap v !! this = Some a ->
             Package.isDisposed (Package._disposables a) = false ->
             Package.released v = Package.released w ->
             exists c w1 this a1,
               Package.deserializeTestRunnerPanelState v = Menu.Returned (c, w1) /\
               Package.activation w1 = Some this /\
               Package.heap w1 !! this = Some a1 /\
               _controller (Package.fields a1) = Some c /\
               Package.isDisposed (Package._disposables a1) = false /\
               Package.released w1 = Package.released w /\
               Package.deserializeTestRunnerPanelState w1 = Menu.Returned (c, w1) /\
               (forall c0, _controller (Package.fields a) = Some c0 -> c = c0 /\ w1 = v)).
  { intros v this a Hact Ha Hlive Hrel.
    destruct (getController_controller (Package.fields a)) as (G1 & G2 & G3).
    assert (Hlt : this < length (Package.heap v)) by (apply lookup_lt_Some in Ha; exact Ha).
    set (f := (getController (Package.fields a)).1) in *.
    set (c := (getController (Package.fields a)).2) in *.
    set (a1 := {| Package.fields := f; Package._disposables := Package._disposables a |}).
    assert (Ha1 : Package.heap (Package.update_fields this f v) !! this = Some a1).
    { rewrite (update_fields_at this a) by exact Ha. simpl.
      apply list_lookup_insert_eq. exact Hlt. }
    destruct (update_fields_frame this f v) as (_ & _ & F3 & F4).
    exists c, (Package.update_fields this f v), this, a1.
    split; [exact (deserialize_active this a v Hact Ha)|].
    split; [rewrite F4; exact Hact|]. split; [exact Ha1|]. split; [exact G1|].
    split; [exact Hlive|]. split; [rewrite F3; exact Hrel|]. split.
    - rewrite (deserialize_active this a1) by (rewrite ?F4; assumption).
      change (Package.fields a1) with f.
      assert (E : getController f = (f, c)).
      { rewrite G3. unfold f, c. destruct (getController _). reflexivity. }
      rewrite E. simpl.
      change f with (Package.fields a1) at 1.
      rewrite (update_fields_same this a1) by exact Ha1. reflexivity.
    - intros c0 Hc0. subst f c. unfold getController in *. rewrite Hc0 in *. simpl.
      split; [reflexivity|]. apply (update_fields_same this a). exact Ha. }
  destruct (Package.activation w) as [this|] eqn:Hact.
  - destruct Hwf as (_ & _ & _ & Hcur). destruct (Hcur this Hact) as (a & Ha & Hlive).
    destruct (Hactive w this a Hact Ha Hlive eq_refl)
      as (c & w1 & this1 & a1 & H1 & H2 & H3 & H4 & H5 & H6 & H7 & H8).
    exists c, w1, this1, a1. repeat (split; [assumption|]).
    intros this0 a0 c0 E0 Ha0 Hc0. injection E0 as <-.
    rewrite Ha in Ha0. injection Ha0 as <-. apply H8. exact Hc0.
  - assert (E : Package.activate w
                = Package.set_activation (Some (length (Package.heap w)))
                    (Package.Activation_new w).2).
    { unfold Package.activate. rewrite Hact. reflexivity. }
    assert (Hsame : Package.deserializeTestRunnerPanelState w
                    = Package.deserializeTestRunnerPanelState (Package.activate w)).
    { unfold Package.deserializeTestRunnerPanelState.
      replace (Package.activate (Package.activate w)) with (Package.activate w);
        [reflexivity|].
      rewrite E. reflexivity. }
    rewrite Hsame.
    destruct (Hactive (Package.activate w) (length (Package.heap w))
                {| Package.fields := {| _controller := None; _testRunners := ∅ |};
                   Package._disposables :=
                     {| Package.isDisposed := false;
                        Package.disposables :=
                          imap (fun k r => Package.Single (Package.objects w + k) r)
                            Package.constructor_commands |} |})
      as (c & w1 & this1 & a1 & H1 & H2 & H3 & H4 & H5 & H6 & H7 & H8).
    + rewrite E. reflexivity.
    + rewrite E. simpl. apply list_lookup_middle. reflexivity.
    + reflexivity.
    + rewrite E. reflexivity.
    + exists c, w1, this1, a1. repeat (split; [assumption|]).
      intros this0 a0 c0 E0. discriminate E0.
Qed.

Lemma update_fields_lookup (this : nat) (a : Package.ActivationObject) (f : Activation)
    (w : Package.World) :
  Package.heap w !! this = Some a ->
  Package.heap (Package.update_fields this f w) !! this
  = Some {| Package.fields := f; Package._disposables := Package._disposables a |}.
Proof.
  intros Ha. rewrite (update_fields_at this a) by exact Ha. simpl.
  apply list_lookup_insert_eq. apply lookup_lt_Some in Ha. exact Ha.
Qed.

Lemma update_fields_lookup_ne (this that : nat) (f : Activation) (w : Package.World) :
  this <> that ->
  Package.heap (Package.update_fields this f w) !! that = Package.heap w !! that.
Proof.
  intros Hne. unfold Package.update_fields. destruct (_ !! this); [|reflexivity].
  simpl. apply list_lookup_insert_ne. exact Hne.
Qed.

Lemma update_fields_length (this : nat) (f : Activation) (w : Package.World) :
  length (Package.heap (Package.update_fields this f w)) = length (Package.heap w).
Proof.
  unfold Package.update_fields. destruct (_ !! this); [|reflexivity].
  simpl. apply length_insert.
Qed.

Lemma consumeTestRunner_new (testRunner : TestRunner) (this : nat)
    (a : Package.ActivationObject) (w : Package.World) :
  Package.activation w = Some this -> Package.heap w !! this = Some a ->
  testRunner ∉ _testRunners (Package.fields a) ->
  exists (d : Disposable) (f : Activation),
    Package.consumeTestRunner testRunner w
    = (Package.update_fields this f w, Some (this, d)) /\
    _testRunners f = {[testRunner]} ∪ _testRunners (Package.fields a).
Proof.
  intros Hact Ha Hnew. unfold Package.consumeTestRunner. rewrite Hact, Ha.
  unfold addTestRunner. rewrite bool_decide_eq_false_2 by exact Hnew.
  eexists _, _. split; reflexivity.
Qed.

Lemma dispose_runner_other (h : nat * Disposable) (that : nat) (w : Package.World) :
  h.1 <> that ->
  Package.heap (Package.dispose_runner h w).2 !! that = Package.heap w !! that /\
  Package.activation (Package.dispose_runner h w).2 = Package.activation w.
Proof.
  intros Hne. unfold Package.dispose_runner. destruct (Package.heap w !! h.1); [|auto].
  destruct (dispose h.2 (Package.fields a)) as [d f]. simpl. split.
  - apply update_fields_lookup_ne. exact Hne.
  - apply update_fields_frame.
Qed.

Lemma deactivate_active (this : nat) (a : Package.ActivationObject) (w : Package.World) :
  Package.activation w = Some this -> Package.heap w !! this = Some a ->
  Package.isDisposed (Package._disposables a) = false ->
  Package.activation (Package.deactivate w) = None /\
  length (Package.heap (Package.deactivate w)) = length (Package.heap w).
Proof.
  intros Hact Ha Hlive. unfold Package.deactivate. rewrite Hact.
  rewrite (Activation_dispose_live this a w Ha Hlive).
  split; [reflexivity|].
  change (Package.heap (Package.set_activation None ?v)) with (Package.heap v).
  match goal with
  | |- context [fold_left Package.dispose_entry ?es ?v] =>
      destruct (dispose_entries_frame es v) as (_ & _ & F3 & _)
  end.
  rewrite F3. simpl. apply length_insert.
Qed.

Lemma activate_inactive (w : Package.World) :
  Package.activation w = None ->
  Package.activation (Package.activate w) = Some (length (Package.heap w)) /\
  exists b, Package.heap (Package.activate w) !! length (Package.heap w) = Some b /\
            _testRunners (Package.fields b) = ∅.
Proof.
  intros Hact. unfold Package.activate. rewrite Hact. simpl. split; [reflexivity|].
  eexists. split; [apply list_lookup_middle; reflexivity | reflexivity].
Qed.

(** X20: the [Disposable] of a test runner belongs to the [Activation] that
    made it.  When the package has been deactivated and activated again, the
    runner can be registered anew, and disposing the [Disposable] of the
    earlier registration then changes nothing in the new [Activation]: the
    runner stays registered there. *)
Theorem disposable_of_an_earlier_activation (w : Package.World) (this : nat)
    (a : Package.ActivationObject) (testRunner : TestRunner) :
  Package.wf w -> Package.activation w = Some this ->
  Package.heap w !! this = Some a -> testRunner ∉ _testRunners (Package.fields a) ->
  exists (h : nat * Disposable) (w1 : Package.World),
    Package.consumeTestRunner testRunner w = (w1, Some h) /\
    exists (h' : nat * Disposable) (w2 : Package.World) (that : nat)
           (b : Package.ActivationObject),
      Package.consumeTestRunner testRunner (Package.activate (Package.deactivate w1))
      = (w2, Some h') /\
      that <> this /\
      Package.activation w2 = Some that /\
      Package.heap w2 !! that = Some b /\
      _testRunners (Package.fields b) = {[testRunner]} /\
      Package.heap (Package.dispose_runner h w2).2 !! that = Some b /\
      Package.activation (Package.dispose_runner h w2).2 = Some that.
Proof.
  intros (Hdisp & Hrel & Hids & Hcur) Hact Ha Hnew.
  destruct (Hcur this Hact) as (a' & Ha' & Hlive). rewrite Ha in Ha'. injection Ha' as <-.
  assert (Hlt : this < length (Package.heap w)) by (apply lookup_lt_Some in Ha; exact Ha).
  destruct (consumeTestRunner_new testRunner this a w Hact Ha Hnew) as (d & f & Hc & _).
  exists (this, d), (Package.update_fields this f w). split; [exact Hc|].
  set (w1 := Package.update_fields this f w).
  destruct (update_fields_frame this f w) as (_ & _ & _ & F4).
  destruct (deactivate_active this
              {| Package.fields := f; Package._disposables := Package._disposables a |} w1)
    as [Hnone Hlen].
  { unfold w1. rewrite F4. exact Hact. }
  { apply (update_fields_lookup this a f w Ha). }
  { exact Hlive. }
  destruct (activate_inactive _ Hnone) as (Hthat & b0 & Hb0 & Hempty).
  set (v := Package.activate (Package.deactivate w1)) in *.
  set (that := length (Package.heap (Package.deactivate w1))) in *.
  assert (Hne : this <> that).
  { rewrite Hlen. unfold w1. rewrite update_fields_length. lia. }
  destruct (consumeTestRunner_new testRunner that b0 v Hthat Hb0) as (d' & f' & Hc' & Hf').
  { rewrite Hempty. apply not_elem_of_empty. }
  destruct (update_fields_frame that f' v) as (_ & _ & _ & G4).
  pose proof (update_fields_lookup that b0 f' v Hb0) as Hb.
  destruct (dispose_runner_other (this, d) that (Package.update_fields that f' v) Hne)
    as [D1 D2].
  eexists (that, d'), (Package.update_fields that f' v), that, _.
  split; [exact Hc'|]. split; [lia|]. split; [rewrite G4; exact Hthat|].
  split; [exact Hb|]. split.
  - simpl. rewrite Hf', Hempty. apply (right_id_L ∅ (∪)).
  - split; [rewrite D1; exact Hb | rewrite D2, G4; exact Hthat].
Qed.

(** ** What the package still holds *)

Lemma acquired_ids_seq (n : nat) (rs : list Package.Resource) :
  (imap (fun k r => (n + k, r)) rs).*1 = seq n (length rs).
Proof.
  revert n. induction rs as [|r rs IH]; intros n; simpl; [reflexivity|].
  rewrite Nat.add_0_r. f_equal.
  rewrite (imap_ext _ (fun k r => (S n + k, r))) by (intros; simpl; f_equal; lia).
  apply IH.
Qed.

Lemma NoDup_fst_unique {A B} (l : list (A * B)) (x : A) (y1 y2 : B) :
  NoDup l.*1 -> (x, y1) ∈ l -> (x, y2) ∈ l -> y1 = y2.
Proof.
  induction l as [|[a b] l IH]; intros Hnd H1 H2.
  - apply elem_of_nil in H1. destruct H1.
  - simpl in Hnd. apply NoDup_cons in Hnd as [Hnot Hnd].
    apply elem_of_cons in H1 as [H1|H1]; apply elem_of_cons in H2 as [H2|H2].
    + congruence.
    + injection H1 as -> ->. exfalso. apply Hnot.
      apply list_elem_of_fmap. exists (a, y2). auto.
    + injection H2 as -> ->. exfalso. apply Hnot.
      apply list_elem_of_fmap. exists (a, y1). auto.
    + exact (IH Hnd H1 H2).
Qed.

Lemma settled_dispose_single (id : nat) (r : Package.Resource) (w : Package.World) :
  NoDup (Package.acquired w).*1 -> Package.settled w -> (id, r) ∈ Package.acquired w ->
  Package.settled (Package.dispose_single id r w).
Proof.
  intros Hnd Hs Hin. unfold Package.dispose_single.
  destruct (bool_decide _); [exact Hs|].
  intros [id' r'] Hitem Hd. simpl in *. apply elem_of_app.
  apply elem_of_union in Hd as [Hd|Hd].
  - apply elem_of_singleton in Hd. subst id'. right.
    rewrite (NoDup_fst_unique _ id r' r Hnd Hitem Hin). left.
  - left. exact (Hs (id', r') Hitem Hd).
Qed.

Lemma settled_mark (id : nat) (w : Package.World) :
  Package.settled w -> id ∉ (Package.acquired w).*1 ->
  Package.settled
    {| Package.objects := Package.objects w;
       Package.disposedObjects := {[id]} ∪ Package.disposedObjects w;
       Package.acquired := Package.acquired w;
       Package.released := Package.released w;
       Package.heap := Package.heap w;
       Package.activation := Package.activation w |}.
Proof.
  intros Hs Hid item Hitem Hd. simpl in *. apply elem_of_union in Hd as [Hd|Hd].
  - apply elem_of_singleton in Hd. exfalso. apply Hid. rewrite <- Hd.
    apply list_elem_of_fmap. exists item. auto.
  - exact (Hs item Hitem Hd).
Qed.

Lemma settled_dispose_items (items : list (nat * Package.Resource)) (w : Package.World) :
  NoDup (Package.acquired w).*1 -> Package.settled w ->
  (forall item, item ∈ items -> item ∈ Package.acquired w) ->
  Package.settled (fold_left (fun w item => Package.dispose_single item.1 item.2 w) items w).
Proof.
  revert w. induction items as [|[id r] items IH]; intros w Hnd Hs Hitems; simpl; [exact Hs|].
  destruct (dispose_single_frame id r w) as (_ & G2 & _).
  apply IH.
  - rewrite G2. exact Hnd.
  - apply settled_dispose_single; [exact Hnd | exact Hs | apply Hitems; left].
  - intros item Hitem. rewrite G2. apply Hitems. right. exact Hitem.
Qed.

(** A member whose disposal settles: what it gives back was taken, and the
    number of a [CompositeDisposable] is not the number of something
    taken. *)
Lemma settled_dispose_entry (e : Package.Entry) (w : Package.World) :
  NoDup (Package.acquired w).*1 -> Package.settled w ->
  Package.entry_ok w e ->
  (forall g items, e = Package.Group g items -> g ∉ (Package.acquired w).*1) ->
  Package.settled (Package.dispose_entry w e).
Proof.
  intros Hnd Hs Hok Hg. destruct e as [id r|g items]; simpl in *.
  - apply settled_dispose_single; [exact Hnd | exact Hs | apply Hok].
  - destruct (bool_decide _); [exact Hs|].
    apply settled_dispose_items; [exact Hnd | |].
    + apply settled_mark; [exact Hs | exact (Hg g items eq_refl)].
    + intros item Hitem. apply (proj2 Hok item Hitem).
Qed.

Lemma settled_dispose_entries (es : list Package.Entry) (w : Package.World) :
  NoDup (Package.acquired w).*1 -> Package.settled w ->
  (forall e, e ∈ es -> Package.entry_ok w e) ->
  (forall g items, Package.Group g items ∈ es -> g ∉ (Package.acquired w).*1) ->
  Package.settled (fold_left Package.dispose_entry es w).
Proof.
  revert w. induction es as [|e es IH]; intros w Hnd Hs Hok Hg; simpl; [exact Hs|].
  destruct (dispose_entry_frame e w) as (G1 & G2 & _).
  apply IH.
  - rewrite G2. exact Hnd.
  - apply settled_dispose_entry; [exact Hnd | exact Hs | apply Hok; left|].
    intros g items ->. apply (Hg g items). left.
  - intros e' He'. eapply entry_ok_mono; [| |apply Hok; right; exact He'].
    + rewrite G1. lia.
    + rewrite G2. auto.
  - intros g items Hin. rewrite G2. apply (Hg g items). right. exact Hin.
Qed.

Lemma dispose_single_disposes (id : nat) (r : Package.Resource) (w : Package.World) :
  id ∈ Package.disposedObjects (Package.dispose_single id r w) /\
  (forall id', id' ∈ Package.disposedObjects w ->
               id' ∈ Package.disposedObjects (Package.dispose_single id r w)) /\
  (forall item, item ∈ Package.released w ->
                item ∈ Package.released (Package.dispose_single id r w)).
Proof.
  unfold Package.dispose_single.
  destruct (decide (id ∈ Package.disposedObjects w)) as [Hin|Hin].
  - rewrite bool_decide_eq_true_2 by exact Hin. auto.
  - rewrite bool_decide_eq_false_2 by exact Hin. simpl. split; [|split].
    + apply elem_of_union_l, elem_of_singleton. reflexivity.
    + intros id' H. apply elem_of_union_r. exact H.
    + intros item H. apply elem_of_app. left. exact H.
Qed.

Lemma dispose_items_keeps (items : list (nat * Package.Resource)) (w : Package.World) :
  let w' := fold_left (fun w item => Package.dispose_single item.1 item.2 w) items w in
  (forall id, id ∈ Package.disposedObjects w -> id ∈ Package.disposedObjects w') /\
  (forall item, item ∈ Package.released w -> item ∈ Package.released w').
Proof.
  revert w. induction items as [|[id r] items IH]; intros w; simpl; [auto|].
  destruct (IH (Package.dispose_single id r w)) as [H1 H2].
  destruct (dispose_single_disposes id r w) as (_ & G1 & G2).
  split; auto.
Qed.

Lemma dispose_entry_keeps (e : Package.Entry) (w : Package.World) :
  (forall id, id ∈ Package.disposedObjects w ->
              id ∈ Package.disposedObjects (Package.dispose_entry w e)) /\
  (forall item, item ∈ Package.released w ->
                item ∈ Package.released (Package.dispose_entry w e)).
Proof.
  destruct e as [id r|g items]; simpl.
  - destruct (dispose_single_disposes id r w) as (_ & G1 & G2). auto.
  - destruct (bool_decide _); [auto|].
    match goal with
    | |- context [fold_left _ items ?v] => destruct (dispose_items_keeps items v) as [H1 H2]
    end.
    split.
    + intros id H. apply H1. simpl. apply elem_of_union_r. exact H.
    + intros item H. apply H2. exact H.
Qed.

Lemma dispose_entries_keeps (es : list Package.Entry) (w : Package.World) :
  (forall id, id ∈ Package.disposedObjects w ->
              id ∈ Package.disposedObjects (fold_left Package.dispose_entry es w)) /\
  (forall item, item ∈ Package.released w ->
                item ∈ Package.released (fold_left Package.dispose_entry es w)).
Proof.
  revert w. induction es as [|e es IH]; intros w; simpl; [auto|].
  destruct (IH (Package.dispose_entry w e)) as [H1 H2].
  destruct (dispose_entry_keeps e w) as [G1 G2]. split; auto.
Qed.

(** After [dispose] of a [CompositeDisposable] each [Disposable] in it has
    been disposed. *)
Lemma dispose_entries_disposes (es : list Package.Entry) (w : Package.World) (id : nat)
    (r : Package.Resource) :
  Package.Single id r ∈ es ->
  id ∈ Package.disposedObjects (fold_left Package.dispose_entry es w).
Proof.
  revert w. induction es as [|e es IH]; intros w Hin; simpl.
  - apply elem_of_nil in Hin. destruct Hin.
  - apply elem_of_cons in Hin as [<-|Hin]; [|apply IH, Hin].
    apply (proj1 (dispose_entries_keeps es _)). simpl.
    exact (proj1 (dispose_single_disposes id r w)).
Qed.

(** More is taken from Atom, and what is new is held or an item of the
    menu. *)
Lemma accounted_extend (w v : Package.World) (new : list (nat * Package.Resource)) :
  Package.inv0 w -> Package.accounted w ->
  Package.objects w <= Package.objects v ->
  Package.acquired v = Package.acquired w ++ new ->
  Package.disposedObjects v = Package.disposedObjects w ->
  Package.released v = Package.released w ->
  NoDup new.*1 ->
  (forall item, item ∈ new -> Package.objects w <= item.1 < Package.objects v) ->
  (forall this a g items,
      Package.heap v !! this = Some a ->
      Package.Group g items ∈ Package.disposables (Package._disposables a) ->
      (exists this' a',
          Package.heap w !! this' = Some a' /\
          Package.Group g items ∈ Package.disposables (Package._disposables a')) \/
      ((g ∉ (Package.acquired v).*1) /\
       forall item, item ∈ items -> Package.is_menu_item item.2 = true)) ->
  (forall id r, Package.held w id r -> Package.held v id r) ->
  (forall item, item ∈ new ->
      Package.held v item.1 item.2 \/ Package.is_menu_item item.2 = true) ->
  Package.accounted v.
Proof.
  intros (Hd & Hr & _ & Hh) (A1 & A2 & A3 & A4 & J) Ho Hacq Hdis Hrel Hnd Hnew
    Hgroups Hheld Hnewheld.
  unfold Package.accounted, Package.settled. rewrite Hacq, Hdis, Hrel.
  split; [|split; [|split; [|split]]].
  - intros item H. apply elem_of_app in H as [H|H]; [apply A1 in H; lia | apply Hnew in H; lia].
  - rewrite fmap_app. apply NoDup_app. split; [exact A2|]. split; [|exact Hnd].
    intros id H1 H2. apply list_elem_of_fmap in H1 as (i1 & -> & H1).
    apply list_elem_of_fmap in H2 as (i2 & E & H2).
    apply A1 in H1. apply Hnew in H2. lia.
  - intros item H Hdisp. apply elem_of_app in H as [H|H]; [exact (A3 item H Hdisp)|].
    apply Hd in Hdisp. apply Hnew in H. lia.
  - intros this a g items Hl Hg.
    destruct (Hgroups this a g items Hl Hg) as [(this' & a' & Hl' & Hg')|H].
    + destruct (A4 this' a' g items Hl' Hg') as [Hnot Hmenu]. split; [|exact Hmenu].
      rewrite fmap_app. intros Hin. apply elem_of_app in Hin as [Hin|Hin]; [exact (Hnot Hin)|].
      apply list_elem_of_fmap in Hin as (i & E & Hi). apply Hnew in Hi.
      pose proof (Hh this' a' _ Hl' Hg') as [Hlt _]. lia.
    + rewrite Hacq in H. exact H.
  - intros item H. apply elem_of_app in H as [H|H].
    + destruct (J item H) as [H'|[H'|H']];
        [left; exact H' | right; left; apply Hheld, H' | right; right; exact H'].
    + right. apply Hnewheld, H.
Qed.

(** Nothing more is taken, and what was held is held or has been given
    back. *)
Lemma accounted_change (w v : Package.World) :
  Package.accounted w ->
  Package.objects v = Package.objects w -> Package.acquired v = Package.acquired w ->
  Package.settled v ->
  (forall item, item ∈ Package.released w -> item ∈ Package.released v) ->
  (forall this a g items,
      Package.heap v !! this = Some a ->
      Package.Group g items ∈ Package.disposables (Package._disposables a) ->
      exists this' a',
        Package.heap w !! this' = Some a' /\
        Package.Group g items ∈ Package.disposables (Package._disposables a')) ->
  (forall item, item ∈ Package.acquired w -> Package.held w item.1 item.2 ->
      Package.held v item.1 item.2 \/ item ∈ Package.released v) ->
  Package.accounted v.
Proof.
  intros (A1 & A2 & A3 & A4 & J) Ho Hacq Hs Hrel Hgroups Hheld.
  unfold Package.accounted. rewrite Hacq, Ho.
  split; [exact A1|]. split; [exact A2|]. split; [exact Hs|]. split.
  - intros this a g items Hl Hg.
    destruct (Hgroups this a g items Hl Hg) as (this' & a' & Hl' & Hg').
    exact (A4 this' a' g items Hl' Hg').
  - intros item H. destruct (J item H) as [H'|[H'|H']].
    + left. apply Hrel, H'.
    + destruct (Hheld item H H') as [G|G]; [right; left; exact G | left; exact G].
    + right. right. exact H'.
Qed.

(** One [Activation] gets other members, none of them a new
    [CompositeDisposable], and keeps the [Disposable]s of what was taken. *)
Lemma accounted_insert (this : nat) (a a2 : Package.ActivationObject) (w : Package.World) :
  Package.accounted w -> Package.heap w !! this = Some a ->
  (forall g items,
      Package.Group g items ∈ Package.disposables (Package._disposables a2) ->
      Package.Group g items ∈ Package.disposables (Package._disposables a)) ->
  (forall id r,
      Package.Single id r ∈ Package.disposables (Package._disposables a) ->
      (id, r) ∈ Package.acquired w ->
      Package.Single id r ∈ Package.disposables (Package._disposables a2)) ->
  Package.accounted (Package.set_heap (<[this := a2]> (Package.heap w)) w).
Proof.
  intros Hacc Ha Hgroups Hsingles.
  assert (Hlt : this < length (Package.heap w)) by (apply lookup_lt_Some in Ha; exact Ha).
  apply (accounted_change w); try reflexivity.
  - exact Hacc.
  - exact (proj1 (proj2 (proj2 Hacc))).
  - auto.
  - simpl. intros this' a' g items Hl Hg. destruct (decide (this = this')) as [<-|Hne].
    + rewrite list_lookup_insert_eq in Hl by exact Hlt. injection Hl as <-.
      exists this, a. split; [exact Ha | apply Hgroups, Hg].
    + rewrite list_lookup_insert_ne in Hl by exact Hne. exists this', a'. auto.
  - intros [id r] Hitem (this' & a' & Hact & Hl & Hin). left. simpl in *.
    destruct (decide (this = this')) as [<-|Hne].
    + rewrite Ha in Hl. injection Hl as <-. exists this, a2. split; [exact Hact|]. split.
      * simpl. apply list_lookup_insert_eq. exact Hlt.
      * apply Hsingles; assumption.
    + exists this', a'. split; [exact Hact|]. split; [|exact Hin].
      simpl. rewrite list_lookup_insert_ne by exact Hne. exact Hl.
Qed.

Lemma accounted_update_fields (this : nat) (f : Activation) (w : Package.World) :
  Package.accounted w -> Package.accounted (Package.update_fields this f w).
Proof.
  intros Hacc. unfold Package.update_fields.
  destruct (Package.heap w !! this) as [a|] eqn:Ha; [|exact Hacc].
  apply (accounted_insert this a); [exact Hacc | exact Ha | auto | auto].
Qed.

(** Resources are taken and their [Disposable]s added to the
    [_disposables] of the [Activation] in the module's variable. *)
Lemma accounted_add (this : nat) (a : Package.ActivationObject) (es : list Package.Entry)
    (new : list (nat * Package.Resource)) (w v0 : Package.World) :
  Package.inv w -> Package.accounted w ->
  Package.activation w = Some this -> Package.heap w !! this = Some a ->
  Package.objects w <= Package.objects v0 ->
  Package.acquired v0 = Package.acquired w ++ new ->
  Package.disposedObjects v0 = Package.disposedObjects w ->
  Package.released v0 = Package.released w ->
  Package.heap v0 = Package.heap w -> Package.activation v0 = Package.activation w ->
  NoDup new.*1 ->
  (forall item, item ∈ new -> Package.objects w <= item.1 < Package.objects v0) ->
  (forall g items, Package.Group g items ∈ es ->
      (g ∉ (Package.acquired v0).*1) /\
      forall item, item ∈ items -> Package.is_menu_item item.2 = true) ->
  (forall item, item ∈ new ->
      Package.Single item.1 item.2 ∈ es \/ Package.is_menu_item item.2 = true) ->
  Package.accounted (Package.update_disposables this (Package.composite_add es) v0).
Proof.
  intros [Hinv Hlive] Hacc Hact Ha Ho Hacq Hdis Hrel Hheap Hactv Hnd Hnew Hgroups Hsingles.
  destruct (Hlive this Hact) as (a' & Ha' & Hl). rewrite Ha in Ha'. injection Ha' as <-.
  assert (Hlt : this < length (Package.heap w)) by (apply lookup_lt_Some in Ha; exact Ha).
  rewrite (update_disposables_at this a) by (rewrite Hheap; exact Ha).
  unfold Package.composite_add. rewrite Hl.
  apply (accounted_extend w _ new); try assumption.
  - simpl. intros this' a' g items Hlk Hg. rewrite Hheap in Hlk.
    destruct (decide (this = this')) as [<-|Hne].
    + rewrite list_lookup_insert_eq in Hlk by exact Hlt. injection Hlk as <-. simpl in Hg.
      apply elem_of_app in Hg as [Hg|Hg]; [left; exists this, a; auto | right].
      exact (Hgroups g items Hg).
    + rewrite list_lookup_insert_ne in Hlk by exact Hne. left. exists this', a'. auto.
  - intros id r (this' & a' & Hact' & Hlk & Hin). rewrite Hact in Hact'. injection Hact' as <-.
    rewrite Ha in Hlk. injection Hlk as <-.
    eexists this, _. split; [simpl; rewrite Hactv; exact Hact|]. split.
    + simpl. rewrite Hheap. apply list_lookup_insert_eq. exact Hlt.
    + simpl. apply elem_of_app. left. exact Hin.
  - intros item Hitem. destruct (Hsingles item Hitem) as [H|H]; [left | right; exact H].
    eexists this, _. split; [simpl; rewrite Hactv; exact Hact|]. split.
    + simpl. rewrite Hheap. apply list_lookup_insert_eq. exact Hlt.
    + simpl. apply elem_of_app. right. exact H.
Qed.

Lemma accounted_activate (w : Package.World) :
  Package.inv w -> Package.accounted w -> Package.accounted (Package.activate w).
Proof.
  intros [Hinv _] Hacc. unfold Package.activate.
  destruct (Package.activation w) as [this|] eqn:Hact; [exact Hacc|]. simpl.
  apply (accounted_extend w _
           (imap (fun k r => (Package.objects w + k, r)) Package.constructor_commands));
    try assumption; try reflexivity.
  - simpl. lia.
  - rewrite acquired_ids_seq. apply NoDup_seq.
  - intros item Hitem. apply acquired_ids in Hitem. simpl in *. lia.
  - simpl. intros this a g items Hl Hg. left.
    apply lookup_app_Some in Hl as [Hl|[Hlen Hl]]; [exists this, a; auto|].
    destruct (this - length (Package.heap w)) as [|k]; [|destruct k; discriminate Hl].
    injection Hl as <-. simpl in Hg.
    repeat (apply elem_of_cons in Hg as [Hg|Hg]; [discriminate Hg|]).
    apply elem_of_nil in Hg. destruct Hg.
  - intros id r (this & a & Hact' & _). rewrite Hact in Hact'. discriminate Hact'.
  - intros item Hitem. left.
    apply elem_of_lookup_imap in Hitem as (k & r & -> & Hl).
    eexists (length (Package.heap w)), _. split; [reflexivity|]. split.
    + simpl. apply list_lookup_middle. reflexivity.
    + simpl.
      exact (elem_of_lookup_imap_2
               (fun k r => Package.Single (Package.objects w + k) r) _ r k Hl).
Qed.

Lemma accounted_deactivate (w : Package.World) :
  Package.inv w -> Package.accounted w -> Package.accounted (Package.deactivate w).
Proof.
  intros [Hinv Hlive] Hacc. unfold Package.deactivate.
  destruct (Package.activation w) as [this|] eqn:Hact; [|exact Hacc].
  destruct (Hlive this eq_refl) as (a & Ha & Hl).
  rewrite (Activation_dispose_live this a w Ha Hl).
  assert (Hlt : this < length (Package.heap w)) by (apply lookup_lt_Some in Ha; exact Ha).
  destruct Hinv as (Hd & Hr & Hnd & Hh).
  pose proof Hacc as (A1 & A2 & A3 & A4 & J).
  match goal with
  | |- context [fold_left Package.dispose_entry ?es ?v] =>
      destruct (dispose_entries_frame es v) as (F1 & F2 & F3 & F4);
      destruct (dispose_entries_keeps es v) as (K1 & K2);
      assert (Hs : Package.settled (fold_left Package.dispose_entry es v));
      [|set (v1 := fold_left Package.dispose_entry es v) in *]
  end.
  { apply settled_dispose_entries.
    - exact A2.
    - exact A3.
    - intros e He. exact (Hh this a e Ha He).
    - intros g items Hg. exact (proj1 (A4 this a g items Ha Hg)). }
  apply (accounted_change w); [exact Hacc | exact F1 | exact F2 | exact Hs | exact K2 | |].
  - simpl. intros this' a' g items Hlk Hg. rewrite F3 in Hlk. simpl in Hlk.
    destruct (decide (this = this')) as [<-|Hne].
    + rewrite list_lookup_insert_eq in Hlk by exact Hlt. injection Hlk as <-.
      simpl in Hg. apply elem_of_nil in Hg. destruct Hg.
    + rewrite list_lookup_insert_ne in Hlk by exact Hne. exists this', a'. auto.
  - intros [id r] Hitem (this' & a' & Hact' & Hlk & Hin). right. simpl in *.
    rewrite Hact in Hact'. injection Hact' as <-. rewrite Ha in Hlk. injection Hlk as <-.
    apply Hs.
    + rewrite F2. exact Hitem.
    + simpl. unfold v1. eapply dispose_entries_disposes. exact Hin.
Qed.

Lemma accounted_consumeTestRunner (testRunner : TestRunner) (w : Package.World) :
  Package.accounted w -> Package.accounted (Package.consumeTestRunner testRunner w).1.
Proof.
  intros Hacc. unfold Package.consumeTestRunner.
  destruct (Package.activation w) as [this|]; [|exact Hacc].
  destruct (Package.heap w !! this) as [a|]; [|exact Hacc].
  destruct (addTestRunner (Package.fields a) testRunner) as [f d]. simpl.
  apply accounted_update_fields, Hacc.
Qed.

Lemma accounted_dispose_runner (h : nat * Disposable) (w : Package.World) :
  Package.accounted w -> Package.accounted (Package.dispose_runner h w).2.
Proof.
  intros Hacc. unfold Package.dispose_runner.
  destruct (Package.heap w !! h.1) as [a|]; [|exact Hacc].
  destruct (dispose h.2 (Package.fields a)) as [d f]. simpl.
  apply accounted_update_fields, Hacc.
Qed.

Lemma accounted_deserializeTestRunnerPanelState (w : Package.World) :
  Package.inv w -> Package.accounted w ->
  match Package.deserializeTestRunnerPanelState w with
  | Menu.Returned (_, w') => Package.accounted w'
  | Menu.AssertionError => True
  end.
Proof.
  intros Hinv Hacc. unfold Package.deserializeTestRunnerPanelState.
  pose proof (accounted_activate w Hinv Hacc) as Hacc'.
  destruct (Package.activation (Package.activate w)) as [this|]; [|exact I].
  destruct (Package.heap (Package.activate w) !! this) as [a|]; [|exact I].
  destruct (getController (Package.fields a)) as [f c].
  apply accounted_update_fields, Hacc'.
Qed.

Lemma accounted_consumeToolBar (w : Package.World) :
  Package.inv w -> Package.accounted w ->
  match Package.consumeToolBar w with
  | Menu.Returned (_, w') => Package.accounted w'
  | Menu.AssertionError => True
  end.
Proof.
  intros Hinv Hacc. unfold Package.consumeToolBar.
  destruct (Package.activation w) as [this|] eqn:Hact; [|exact I].
  destruct (proj2 Hinv this Hact) as (a & Ha & _).
  unfold Package.Activation_addToolBar.
  apply (accounted_add this a _ [(Package.objects w + 0, Package.ToolBarItems)] w);
    try assumption; try reflexivity.
  - simpl. lia.
  - simpl. apply NoDup_singleton.
  - intros item Hitem. apply list_elem_of_singleton in Hitem. subst item. simpl. lia.
  - intros g items Hg. apply list_elem_of_singleton in Hg. discriminate Hg.
  - intros item Hitem. apply list_elem_of_singleton in Hitem. subst item. left. simpl.
    rewrite Nat.add_0_r. left.
Qed.

Lemma accounted_consumeWorkspaceViewsService (w : Package.World) :
  Package.inv w -> Package.accounted w ->
  match Package.consumeWorkspaceViewsService w with
  | Menu.Returned w' => Package.accounted w'
  | Menu.AssertionError => True
  end.
Proof.
  intros Hinv Hacc. unfold Package.consumeWorkspaceViewsService.
  destruct (Package.activation w) as [this|] eqn:Hact; [|exact I].
  destruct (proj2 Hinv this Hact) as (a & Ha & _).
  unfold Package.Activation_consumeWorkspaceViewsService.
  match goal with
  | |- context [Package.acquire ?rs w] =>
      apply (accounted_add this a _ (imap (fun k r => (Package.objects w + k, r)) rs) w);
        try assumption; try reflexivity
  end.
  - simpl. lia.
  - rewrite acquired_ids_seq. apply NoDup_seq.
  - intros item Hitem. apply acquired_ids in Hitem. simpl in *. lia.
  - intros g items Hg. apply elem_of_lookup_imap in Hg as (k & r & E & _). discriminate E.
  - intros item Hitem. left.
    apply elem_of_lookup_imap in Hitem as (k & r & -> & Hl).
    exact (elem_of_lookup_imap_2
             (fun k r => Package.Single (Package.objects w + k) r) _ r k Hl).
Qed.

Lemma accounted_addItemsToFileTreeContextMenu (w : Package.World) :
  Package.inv w -> Package.accounted w ->
  match Package.addItemsToFileTreeContextMenu w with
  | Menu.Returned (h, w') =>
      Package.accounted w' /\
      forall id this g, h = Package.Detaches id this g ->
        (id ∉ (Package.acquired w').*1) /\ (g ∉ (Package.acquired w').*1) /\
        g < Package.objects w'
  | Menu.AssertionError => True
  end.
Proof.
  intros Hinv Hacc. unfold Package.addItemsToFileTreeContextMenu.
  destruct (Package.activation w) as [this|] eqn:Hact; [|exact I].
  destruct (proj2 Hinv this Hact) as (a & Ha & _).
  unfold Package.Activation_addItemsToFileTreeContextMenu.
  match goal with
  | |- context [Package.update_disposables this ?f (Package.create 2 (Package.acquire ?rs w))] =>
      destruct (update_disposables_frame this f (Package.create 2 (Package.acquire rs w)))
        as (F1 & F2 & _);
      set (rs0 := rs) in *
  end.
  assert (Hfresh : forall id, Package.objects w + 3 <= id ->
            id ∉ (Package.acquired w ++ imap (fun k r => (Package.objects w + k, r)) rs0).*1).
  { intros id Hid Hin. rewrite fmap_app in Hin. apply elem_of_app in Hin as [Hin|Hin].
    - apply list_elem_of_fmap in Hin as (item & -> & Hitem).
      apply (proj1 Hacc) in Hitem. lia.
    - rewrite acquired_ids_seq in Hin. apply elem_of_seq in Hin. simpl in Hin. lia. }
  split.
  - apply (accounted_add this a _ (imap (fun k r => (Package.objects w + k, r)) rs0) w);
      try assumption; try reflexivity.
    + simpl. lia.
    + rewrite acquired_ids_seq. apply NoDup_seq.
    + intros item Hitem. apply acquired_ids in Hitem. simpl in *. lia.
    + intros g items Hg. apply list_elem_of_singleton in Hg. injection Hg as -> ->.
      split; [apply Hfresh; lia|].
      intros item Hitem.
      repeat (apply elem_of_cons in Hitem as [->|Hitem]; [reflexivity|]).
      apply elem_of_nil in Hitem. destruct Hitem.
    + intros item Hitem. right.
      repeat (apply elem_of_cons in Hitem as [->|Hitem]; [reflexivity|]).
      apply elem_of_nil in Hitem. destruct Hitem.
  - intros id this' g E. injection E as <- <- <-.
    match goal with
    | |- context [Package.acquired (Package.update_disposables ?t ?f ?v)] =>
        rewrite (proj1 (proj2 (update_disposables_frame t f v)));
        rewrite (proj1 (update_disposables_frame t f v))
    end.
    split; [apply Hfresh; lia|]. split; [apply Hfresh; lia|]. simpl. lia.
Qed.

Lemma filter_keeps {A} (p : A -> bool) (l : list A) (x : A) :
  x ∈ l -> p x = true -> x ∈ List.filter p l.
Proof.
  intros Hin Hp. apply list_elem_of_In. apply filter_In. split; [|exact Hp].
  apply list_elem_of_In. exact Hin.
Qed.

Lemma accounted_dispose_handle (h : Package.Handle) (w : Package.World) :
  Package.inv w -> Package.accounted w -> Package.handle_ok w h ->
  (forall id this g, h = Package.Detaches id this g ->
     (id ∉ (Package.acquired w).*1) /\ (g ∉ (Package.acquired w).*1)) ->
  Package.accounted (Package.dispose_handle h w).
Proof.
  intros [Hinv Hlive] Hacc Hok Hdet. pose proof Hacc as (A1 & A2 & A3 & A4 & J).
  destruct h as [id r|id this g]; simpl in *.
  - destruct Hok as [Hid Hacq].
    destruct (dispose_single_frame id r w) as (F1 & F2 & F3 & F4).
    destruct (dispose_single_disposes id r w) as (_ & _ & K2).
    apply (accounted_change w); try assumption.
    + apply settled_dispose_single; assumption.
    + intros this a g items Hl Hg. rewrite F3 in Hl. exists this, a. auto.
    + intros item _ (this & a & Hact & Hl & Hin). left.
      exists this, a. rewrite F3, F4. auto.
  - destruct (Hdet id this g eq_refl) as [Hid Hg].
    destruct (bool_decide _); [exact Hacc|].
    match goal with
    | |- context [Package.update_disposables this _ ?v] =>
        assert (Hm : Package.accounted v); [|set (v0 := v) in *]
    end.
    { apply (accounted_change w); try assumption; try reflexivity.
      - apply settled_mark; assumption.
      - auto.
      - intros this' a g' items Hl Hg'. exists this', a. auto.
      - intros item _ H. left. exact H. }
    unfold Package.update_disposables.
    destruct (Package.heap v0 !! this) as [a|] eqn:Ha; [|exact Hm].
    apply (accounted_insert this a); [exact Hm | exact Ha | |].
    + simpl. unfold Package.composite_remove. intros g' items.
      destruct (Package.isDisposed _); [auto|]. simpl. apply filter_subset.
    + simpl. unfold Package.composite_remove. intros id' r' Hin Hacq.
      destruct (Package.isDisposed _); [exact Hin|]. simpl.
      apply filter_keeps; [exact Hin|]. simpl.
      apply negb_true_iff, Nat.eqb_neq. intros ->. apply Hg.
      apply list_elem_of_fmap. exists (g, r'). auto.
Qed.

Lemma session_accounted_call (s : Package.Session) (c : Package.Call) :
  Package.session_inv s -> Package.session_accounted s ->
  Package.session_accounted (Package.call s c).
Proof.
  intros [Hinv Hhs] [Hacc Hdet].
  assert (Hkeep : forall w', Package.grows (Package.world s) w' ->
            forall id this g, Package.Detaches id this g ∈ Package.handles s ->
              (id ∉ (Package.acquired w').*1) /\ (g ∉ (Package.acquired w').*1) /\
              g < Package.objects w').
  { intros w' (G1 & G2 & G3) id this g Hh.
    destruct (Hdet id this g Hh) as (D1 & D2 & D3).
    pose proof (Hhs _ Hh) as Hid. simpl in Hid.
    split; [|split; [|lia]].
    - intros Hin. apply list_elem_of_fmap in Hin as (item & -> & Hitem).
      destruct (G3 item Hitem) as [H|H]; [|lia].
      apply D1. apply list_elem_of_fmap. exists item. auto.
    - intros Hin. apply list_elem_of_fmap in Hin as (item & -> & Hitem).
      destruct (G3 item Hitem) as [H|H]; [|lia].
      apply D2. apply list_elem_of_fmap. exists item. auto. }
  destruct c as [| |testRunner| | | | |i|i]; simpl.
  - split; [apply accounted_activate; assumption|].
    exact (Hkeep _ (proj2 (inv_activate _ Hinv))).
  - split; [apply accounted_deactivate; assumption|].
    exact (Hkeep _ (proj2 (inv_deactivate _ Hinv))).
  - pose proof (accounted_consumeTestRunner testRunner _ Hacc) as H.
    pose proof (proj2 (inv_consumeTestRunner testRunner _ Hinv)) as G.
    destruct (Package.consumeTestRunner testRunner (Package.world s)) as [w' h'].
    split; [exact H | exact (Hkeep _ G)].
  - pose proof (accounted_addItemsToFileTreeContextMenu _ Hinv Hacc) as H.
    pose proof (inv_addItemsToFileTreeContextMenu _ Hinv) as G.
    destruct (Package.addItemsToFileTreeContextMenu (Package.world s)) as [[h w']|];
      [|split; assumption].
    destruct H as [H Hnew]. destruct G as (_ & G & _). split; [exact H|]. simpl.
    intros id this g Hin. apply elem_of_app in Hin as [Hin|Hin]; [exact (Hkeep _ G _ _ _ Hin)|].
    apply list_elem_of_singleton in Hin. exact (Hnew id this g (eq_sym Hin)).
  - pose proof (accounted_consumeToolBar _ Hinv Hacc) as H.
    pose proof (inv_consumeToolBar _ Hinv) as G.
    unfold Package.consumeToolBar, Package.Activation_addToolBar in *.
    destruct (Package.activation (Package.world s)) as [this|]; [|split; assumption].
    destruct G as (_ & G & _). split; [exact H|]. simpl.
    intros id this' g Hin. apply elem_of_app in Hin as [Hin|Hin]; [exact (Hkeep _ G _ _ _ Hin)|].
    apply list_elem_of_singleton in Hin. discriminate Hin.
  - pose proof (accounted_deserializeTestRunnerPanelState _ Hinv Hacc) as H.
    pose proof (inv_deserializeTestRunnerPanelState _ Hinv) as G.
    destruct (Package.deserializeTestRunnerPanelState (Package.world s)) as [[c w']|];
      [|split; assumption].
    split; [exact H | exact (Hkeep _ (proj2 G))].
  - pose proof (accounted_consumeWorkspaceViewsService _ Hinv Hacc) as H.
    pose proof (inv_consumeWorkspaceViewsService _ Hinv) as G.
    destruct (Package.consumeWorkspaceViewsService (Package.world s)) as [w'|];
      [|split; assumption].
    split; [exact H | exact (Hkeep _ (proj2 G))].
  - destruct (Package.handles s !! i) as [h|] eqn:Hi; [|split; assumption].
    pose proof (list_elem_of_lookup_2 _ _ _ Hi) as Hin.
    destruct (inv_dispose_handle h _ Hinv (Hhs h Hin)) as [_ G].
    split; [|exact (Hkeep _ G)]. simpl.
    apply accounted_dispose_handle; [exact Hinv | exact Hacc | exact (Hhs h Hin) |].
    intros id this g ->. destruct (Hdet id this g Hin) as (D1 & D2 & _). auto.
  - destruct (Package.runnerHandles s !! i) as [h|]; [|split; assumption].
    pose proof (accounted_dispose_runner h _ Hacc) as H.
    pose proof (proj2 (inv_dispose_runner h _ Hinv)) as G.
    destruct (Package.dispose_runner h (Package.world s)) as [h' w'].
    split; [exact H | exact (Hkeep _ G)].
Qed.

Lemma session_accounted_calls (cs : list Package.Call) (s : Package.Session) :
  Package.session_inv s -> Package.session_accounted s ->
  Package.session_accounted (Package.calls cs s).
Proof.
  revert s. induction cs as [|c cs IH]; intros s Hs Ha; simpl; [exact Ha|].
  apply IH; [apply session_inv_call, Hs | apply session_accounted_call; assumption].
Qed.

Lemma session_accounted_start : Package.session_accounted Package.start_session.
Proof.
  split; [|intros id this g H; apply elem_of_nil in H; destruct H].
  split; [|split; [|split; [|split]]]; simpl.
  - intros item H. apply elem_of_nil in H. destruct H.
  - apply NoDup_nil_2.
  - intros item H. apply elem_of_nil in H. destruct H.
  - intros this a g items H. destruct this; discriminate H.
  - intros item H. apply elem_of_nil in H. destruct H.
Qed.

Lemma deactivate_clears (w : Package.World) :
  Package.activation (Package.deactivate w) = None.
Proof.
  unfold Package.deactivate. destruct (Package.activation w) eqn:E; [reflexivity | exact E].
Qed.

(** X21: nothing but items of the context menu stays registered with Atom
    behind the package's back.  Whatever functions of the module are called,
    in whatever order, and whichever of the returned [Disposable]s are
    disposed: what was taken from Atom has been given back, or its
    [Disposable] is among the [_disposables] of the [Activation] in the
    module's variable, or it is an item of the context menu.  So when the
    package is not active, and after every [deactivate], all command
    listeners, tool bar buttons, openers and workspace items have been given
    back. *)
Theorem deactivated_package_holds_only_menu_items (cs : list Package.Call) :
  let w := Package.world (Package.calls cs Package.start_session) in
  let w' := Package.world (Package.calls (cs ++ [Package.CallDeactivate]) Package.start_session) in
  (forall id r, (id, r) ∈ Package.acquired w ->
     (id, r) ∈ Package.released w \/ Package.held w id r \/
     Package.is_menu_item r = true) /\
  (Package.activation w = None ->
   forall id r, (id, r) ∈ Package.acquired w ->
     (id, r) ∈ Package.released w \/ Package.is_menu_item r = true) /\
  (forall id r, (id, r) ∈ Package.acquired w' ->
     (id, r) ∈ Package.released w' \/ Package.is_menu_item r = true).
Proof.
  assert (Hall : forall cs,
             let w := Package.world (Package.calls cs Package.start_session) in
             forall id r, (id, r) ∈ Package.acquired w ->
               (id, r) ∈ Package.released w \/ Package.held w id r \/
               Package.is_menu_item r = true).
  { intros cs0 w0 id r Hin.
    assert (Hs : Package.session_accounted (Package.calls cs0 Package.start_session)).
    { apply session_accounted_calls; [|exact session_accounted_start].
      split; [exact inv_start|]. intros h Hh. apply elem_of_nil in Hh. destruct Hh. }
    destruct Hs as [(_ & _ & _ & _ & J) _]. exact (J (id, r) Hin). }
  assert (Hnone : forall cs,
             let w := Package.world (Package.calls cs Package.start_session) in
             Package.activation w = None ->
             forall id r, (id, r) ∈ Package.acquired w ->
               (id, r) ∈ Package.released w \/ Package.is_menu_item r = true).
  { intros cs0 w0 Hact id r Hin.
    destruct (Hall cs0 id r Hin) as [H|[H|H]]; [left; exact H | | right; exact H].
    destruct H as (this & a & Hact' & _). fold w0 in Hact'. rewrite Hact in Hact'.
    discriminate Hact'. }
  intros w w'. split; [exact (Hall cs)|]. split; [exact (Hnone cs)|].
  apply (Hnone (cs ++ [Package.CallDeactivate])).
  unfold Package.calls. rewrite fold_left_app.
  exact (deactivate_clears _).
Qed.

(** ** The further properties on concrete inputs *)

Lemma search_fails_only_on_error_message_witness :
  let o := findIncludingSourceFile (Path := root_path) (js "/a/foo.h") (js "/a") in
  let events := [Message (stdout (js "x")); Message (error (js "spawn grep ENOENT"))] in
  fail (Error (js "spawn grep ENOENT")) ∈ received (run o events) /\
  exists err : jsstring,
    Error (js "spawn grep ENOENT") = Error err /\ Message (error err) ∈ events.
Proof.
  intros o events.
  assert (H : fail (Error (js "spawn grep ENOENT")) ∈ received (run o events)).
  { vm_compute. constructor. }
  split; [exact H|].
  exact (search_fails_only_on_error_message (Path := root_path)
           (js "/a/foo.h") (js "/a") events _ H).
Defined.

Lemma limitString_length_bound_witness :
  (0 <= 5)%Z /\
  length (limitString (js "abcdefghij") (Some 5%Z)) <= Z.to_nat 5 + 1 /\
  length (limitString (js "abcdefghij") None) <= 21.
Proof.
  assert (H : (0 <= 5)%Z) by lia.
  split; [exact H|]. exact (limitString_length_bound (js "abcdefghij") 5%Z H).
Defined.

Lemma section_uncontrolled_click_toggles_witness :
  let props :=
    {| SectionUI.headline := SectionUI.Text (js "Results"); SectionUI.className := None;
       SectionUI.children := Some (SectionUI.Element 1);
       SectionUI.collapsable := Some true; SectionUI.collapsedByDefault := Some true;
       SectionUI.collapsed := None; SectionUI.onChange := false;
       SectionUI.size := None |} in
  let state := SectionUI.constructor props in
  SectionUI.collapsed props = None /\ SectionUI.collapsable props = Some true /\
  SectionUI.displayNone (SectionUI.render props state) = true /\
  SectionUI.displayNone (SectionUI.render props (SectionUI.click props state).1)
  = negb (SectionUI.displayNone (SectionUI.render props state)) /\
  SectionUI.clicks props 2 state = state.
Proof.
  intros props state.
  destruct (section_uncontrolled_click_toggles props state eq_refl eq_refl)
    as (_ & Hflip & Htwice & _).
  split; [reflexivity|]. split; [reflexivity|]. split; [reflexivity|].
  split; [exact Hflip | exact Htwice].
Defined.

Lemma section_controlled_reports_witness :
  let props :=
    {| SectionUI.headline := SectionUI.Text (js "Results"); SectionUI.className := None;
       SectionUI.children := Some (SectionUI.Element 1);
       SectionUI.collapsable := Some true; SectionUI.collapsedByDefault := None;
       SectionUI.collapsed := Some true; SectionUI.onChange := true;
       SectionUI.size := Some (js "small") |} in
  let state := {| SectionUI.isCollapsed := false |} in
  SectionUI.collapsed props = Some true /\
  SectionUI.displayNone (SectionUI.render props state) = true /\
  (SectionUI.click props state).1 = state /\
  (SectionUI.click props state).2 = [false].
Proof.
  intros props state.
  destruct (section_controlled_reports props state true eq_refl)
    as (Hshown & _ & Hstate & Hcalls).
  split; [reflexivity|]. split; [exact Hshown|]. split; [exact Hstate | exact Hcalls].
Defined.

Lemma section_not_collapsable_always_shown_witness :
  let props :=
    {| SectionUI.headline := SectionUI.Text (js "Results"); SectionUI.className := None;
       SectionUI.children := Some (SectionUI.Element 1);
       SectionUI.collapsable := None; SectionUI.collapsedByDefault := Some true;
       SectionUI.collapsed := None; SectionUI.onChange := false;
       SectionUI.size := None |} in
  SectionUI.collapsed props = None /\ SectionUI.collapsable props <> Some true /\
  SectionUI.displayNone
    (SectionUI.render props (SectionUI.clicks props 3 (SectionUI.constructor props)))
  = false.
Proof.
  intros props.
  assert (H : SectionUI.collapsable props <> Some true) by discriminate.
  split; [reflexivity|]. split; [exact H|].
  exact (proj1 (section_not_collapsable_always_shown props 3 eq_refl H)).
Defined.

Lemma section_chevron_agrees_with_body_witness :
  let props :=
    {| SectionUI.headline := SectionUI.Text (js "Results"); SectionUI.className := None;
       SectionUI.children := Some (SectionUI.Element 1);
       SectionUI.collapsable := Some true; SectionUI.collapsedByDefault := None;
       SectionUI.collapsed := None; SectionUI.onChange := false;
       SectionUI.size := None |} in
  let state := {| SectionUI.isCollapsed := true |} in
  SectionUI.collapsable props = Some true /\
  SectionUI.displayNone (SectionUI.render props state) = true /\
  SectionUI.iconClass (SectionUI.header (SectionUI.render props state))
  = js "icon icon-chevron-right nuclide-ui-section-collapsable" /\
  SectionUI.title (SectionUI.header (SectionUI.render props state))
  = Some (js "Click to expand").
Proof.
  intros props state.
  destruct (section_chevron_agrees_with_body props state eq_refl) as (_ & Hhidden & _).
  split; [reflexivity|]. split; [reflexivity|]. exact (Hhidden eq_refl).
Defined.

Lemma shown_item_gets_label_witness :
  let this := {| _controller := None; _testRunners := {[1%positive]} |} in
  let contextMenu :=
    {| Menu.getSingleSelectedNode := Some {| Menu.isContainer := false |} |} in
  let event :=
    {| Menu.target :=
         {| Menu.dataset := {| Menu.name := None; Menu.path := None |};
            Menu.querySelector_name :=
              Some {| Menu.name := Some (js "spec.js");
                      Menu.path := Some (js "/a/spec.js") |} |} |} in
  let item := {| Menu.command := None; Menu.label := None |} in
  Menu.shouldDisplay this true contextMenu event = true /\
  exists lbl : jsstring,
    Menu.created true event item
    = Menu.Returned {| Menu.command := Some (js "nuclide-test-runner:run-tests");
                       Menu.label := Some lbl |} /\
    length lbl <= 36.
Proof.
  intros this contextMenu event item.
  assert (H : Menu.shouldDisplay this true contextMenu event = true) by (vm_compute; reflexivity).
  split; [exact H|].
  destruct (proj1 (shown_item_gets_label this true contextMenu event item) H)
    as (name & lbl & _ & _ & Hcreated & Hlen).
  exists lbl. split; [exact Hcreated | exact Hlen].
Defined.

Lemma tool_bar_items_removed_once_witness :
  let w := Package.activate Package.start in
  Package.wf w /\ Package.activation w = Some 0 /\
  exists (h : Package.Handle) (w1 : Package.World),
    Package.consumeToolBar w = Menu.Returned (h, w1) /\
    Package.released_once 4 Package.ToolBarItems
      (Package.deactivate (Package.dispose_handle h w1)).
Proof.
  intros w.
  assert (Hwf : Package.wf w).
  { apply inv_wf. apply (inv_activate Package.start inv_start). }
  split; [exact Hwf|]. split; [reflexivity|].
  destruct (tool_bar_items_removed_once w 0 Hwf eq_refl)
    as (h & w1 & Hc & _ & _ & _ & _ & Hboth & _).
  exists h, w1. split; [exact Hc | exact Hboth].
Defined.

Lemma menu_items_removed_only_by_deactivation_witness :
  let w := Package.activate Package.start in
  Package.wf w /\ Package.activation w = Some 0 /\
  exists (h : Package.Handle) (w1 : Package.World),
    Package.addItemsToFileTreeContextMenu w = Menu.Returned (h, w1) /\
    Package.released_once 4 (Package.TestSectionItem 200) (Package.deactivate w1) /\
    4 ∉ (Package.released (Package.deactivate (Package.dispose_handle h w1))).*1.
Proof.
  intros w.
  assert (Hwf : Package.wf w).
  { apply inv_wf. apply (inv_activate Package.start inv_start). }
  split; [exact Hwf|]. split; [reflexivity|].
  destruct (menu_items_removed_only_by_deactivation w 0 Hwf eq_refl)
    as (h & w1 & Hc & _ & _ & Hattached & _ & Hdetached).
  exists h, w1. split; [exact Hc|]. split.
  - exact (proj1 (proj1 (Forall_cons _ _ _) Hattached)).
  - exact (proj1 (proj1 (Forall_cons _ _ _) Hdetached)).
Defined.

Lemma deactivate_unregisters_the_commands_witness :
  Package.wf Package.start /\ Package.activation Package.start = None /\
  Package.released (Package.deactivate (Package.activate Package.start))
  = Package.released Package.start
    ++ imap (fun k r => (Package.objects Package.start + k, r)) Package.constructor_commands.
Proof.
  assert (Hwf : Package.wf Package.start) by exact (inv_wf _ inv_start).
  split; [exact Hwf|]. split; [reflexivity|].
  destruct (deactivate_unregisters_the_commands Package.start Hwf eq_refl)
    as (_ & _ & _ & Hreleased & _).
  exact Hreleased.
Defined.

Lemma deserialize_returns_the_one_controller_witness :
  Package.wf Package.start /\
  exists (c : TestRunnerController) (w1 : Package.World),
    Package.deserializeTestRunnerPanelState Package.start = Menu.Returned (c, w1) /\
    Package.deserializeTestRunnerPanelState w1 = Menu.Returned (c, w1).
Proof.
  assert (Hwf : Package.wf Package.start) by exact (inv_wf _ inv_start).
  split; [exact Hwf|].
  destruct (deserialize_returns_the_one_controller Package.start Hwf)
    as (c & w1 & this & a1 & H1 & _ & _ & _ & _ & _ & H2 & _).
  exists c, w1. split; [exact H1 | exact H2].
Defined.

Lemma disposable_of_an_earlier_activation_witness :
  let w := Package.activate Package.start in
  Package.wf w /\ Package.activation w = Some 0 /\
  (exists a, Package.heap w !! 0 = Some a /\ 1%positive ∉ _testRunners (Package.fields a)) /\
  exists (h : nat * Disposable) (w1 : Package.World),
    Package.consumeTestRunner 1%positive w = (w1, Some h) /\
    exists (h' : nat * Disposable) (w2 : Package.World) (that : nat)
           (b : Package.ActivationObject),
      Package.consumeTestRunner 1%positive (Package.activate (Package.deactivate w1))
      = (w2, Some h') /\
      Package.heap (Package.dispose_runner h w2).2 !! that = Some b /\
      _testRunners (Package.fields b) = {[1%positive]}.
Proof.
  intros w.
  assert (Hwf : Package.wf w).
  { apply inv_wf. apply (inv_activate Package.start inv_start). }
  assert (Ha : Package.heap w !! 0
               = Some {| Package.fields := {| _controller := None; _testRunners := ∅ |};
                         Package._disposables :=
                           {| Package.isDisposed := false;
                              Package.disposables :=
                                imap (fun k r => Package.Single (0 + k) r)
                                  Package.constructor_commands |} |}) by reflexivity.
  assert (Hnew : 1%positive ∉ (∅ : gset positive)) by apply not_elem_of_empty.
  split; [exact Hwf|]. split; [reflexivity|].
  split; [eexists; split; [exact Ha | exact Hnew]|].
  destruct (disposable_of_an_earlier_activation w 0 _ 1%positive Hwf eq_refl Ha Hnew)
    as (h & w1 & Hc & h' & w2 & that & b & Hc' & _ & _ & _ & Hb & Hkept & _).
  exists h, w1. split; [exact Hc|]. exists h', w2, that, b.
  split; [exact Hc'|]. split; [exact Hkept | exact Hb].
Defined.
